(** * ent: query builder, graph resolver and schema deriver

    A shallow embedding of
    - the generated query builder [ItemQuery]
      (entc/integration/ent: Where, Limit, Offset, Order, First, Only, All,
      Count, Exist, Clone, sqlQuery, gremlinQuery and their helpers),
    - the graph resolver and the relational schema deriver of entc/gen
      (NewGraph, addEdges, resolve, Tables),
    - the generated migration schema (entc/integration/ent/migrate),
    followed by the properties proved about them. *)

From Stdlib Require Import ZArith Lia Ascii String.
From stdpp Require Import base option list gmap strings.


(* ===================================================================== *)
(** * Part I. Definitions *)
(* ===================================================================== *)

(** ** Go integers and errors *)

Module Go.

(** [math.MaxInt32]. *)
Definition MaxInt32 : Z := 2147483647.

(** Go's [int] on the 64-bit platforms the integration suite runs on:
    two's complement, addition wraps around. *)
Definition wrap (z : Z) : Z := ((z + 2 ^ 63) `mod` 2 ^ 64 - 2 ^ 63)%Z.
Definition add (a b : Z) : Z := wrap (a + b).

(** The error values that reach the caller of a builder.  [ErrNotFound]
    and [ErrNotSingular] are the package's own error types; [ErrBackend]
    is an error produced outside the package (driver, row scanning,
    response decoding) and passed through; [ErrNew] is [errors.New msg];
    [ErrWrap pre e] is [fmt.Errorf (pre ++ ": %v") e]. *)
Inductive error : Type :=
| ErrNotFound (label : string)
| ErrNotSingular (label : string)
| ErrNew (msg : string)
| ErrWrap (pre : string) (e : error)
| ErrBackend (msg : string).

(** A Go result pair [(v, err)]. *)
Inductive result (A : Type) : Type :=
| Ok (a : A)
| Err (e : error).
Arguments Ok {A} a.
Arguments Err {A} e.

Definition bind {A B} (r : result A) (k : A -> result B) : result B :=
  match r with
  | Ok a => k a
  | Err e => Err e
  end.

Definition map_err {A} (f : error -> error) (r : result A) : result A :=
  match r with
  | Ok a => Ok a
  | Err e => Err (f e)
  end.

(** What the outside world hands back: a value or an opaque message. *)
Definition lift {A} (r : string + A) : result A :=
  match r with
  | inr a => Ok a
  | inl msg => Err (ErrBackend msg)
  end.

End Go.

(** Early return on error is written with stdpp's monadic notation:
    [x ← c; k] runs [k] when [c] succeeded and returns its error
    otherwise. *)
#[global] Instance result_bind : MBind Go.result :=
  fun A B k r => Go.bind r k.
#[global] Instance result_ret : MRet Go.result := @Go.Ok.

(** ** dialect/sql: the selector
    Modelled from the spec: the package dialect/sql is not part of the
    sources at hand.  A selector is the record of the clauses the builder
    methods set: [Select] replaces the column list, [From] names the table,
    [Limit]/[Offset] store their argument, [Distinct] turns the query into
    SELECT DISTINCT and [Count] replaces the column list by one COUNT
    expression.  Predicates and orderings are arbitrary functions on it. *)

Module sql.

Record Selector : Type := mkSelector {
  columns : list string;
  from : string;
  where_ : list string;
  order : list string;
  limit : option Z;
  offset : option Z;
  distinct : bool;
}.

(** [sql.Table name].Columns(cs...) and [selector.Columns(cs...)]: the
    column names qualified by the table. *)
Definition qualify (table : string) (cs : list string) : list string :=
  (fun c => table +:+ "." +:+ c) <$> cs.

Definition Columns (s : Selector) (cs : list string) : list string :=
  qualify (from s) cs.

(** [sql.Select(cs...).From(t)]. *)
Definition SelectFrom (cs : list string) (table : string) : Selector :=
  mkSelector cs table [] [] None None false.

Definition Select (cs : list string) (s : Selector) : Selector :=
  mkSelector cs (from s) (where_ s) (order s) (limit s) (offset s) (distinct s).

Definition Limit (n : Z) (s : Selector) : Selector :=
  mkSelector (columns s) (from s) (where_ s) (order s) (Some n) (offset s) (distinct s).

Definition Offset (n : Z) (s : Selector) : Selector :=
  mkSelector (columns s) (from s) (where_ s) (order s) (limit s) (Some n) (distinct s).

Definition Distinct (s : Selector) : Selector :=
  mkSelector (columns s) (from s) (where_ s) (order s) (limit s) (offset s) true.

Fixpoint comma (cs : list string) : string :=
  match cs with
  | [] => ""
  | [c] => c
  | c :: cs' => c +:+ ", " +:+ comma cs'
  end.

(** The function [sql.Distinct(idents...)]: a DISTINCT column list. *)
Definition DistinctOf (idents : list string) : string :=
  (if idents is [] then "" else "DISTINCT ") +:+ comma idents.

(** [selector.Count(cols...)]: COUNT over the given expression, COUNT of
    every row when none is given. *)
Definition CountExpr (cols : list string) : string :=
  "COUNT(" +:+ (if cols is [] then "*" else comma cols) +:+ ")".

Definition Count (cols : list string) (s : Selector) : Selector :=
  Select [CountExpr cols] s.

(** One scanned cell, one row, the rows of a response. *)
Inductive Value : Type :=
| VInt (n : Z)
| VString (s : string)
| VNull.

Definition Row : Type := list Value.
Definition Rows : Type := list Row.

(** [rows.Scan(&n)] for [n int]. *)
Definition ScanInt (r : Row) : Go.result Z :=
  match r with
  | [VInt n] => Go.Ok n
  | _ => Go.Err (Go.ErrBackend "sql: scan")
  end.

End sql.

(** ** dialect/gremlin/graph/dsl: the traversal
    Modelled from the spec: the traversal DSL is not part of the sources at
    hand.  A traversal is the list of the steps appended so far; every
    builder method appends its step. *)

Module dsl.

Inductive Step : Type :=
| V
| HasLabel (label : string)
| Order
| Range (lo hi : Z)
| Limit (n : Z)
| Dedup
| Count
| HasNext
| ValueMap (all : bool)
| Custom (name : string) (args : list string).

Definition Traversal : Type := list Step.

#[global] Instance Step_eq_dec : EqDecision Step.
Proof. solve_decision. Defined.

(** Number of [Dedup] steps of a traversal. *)
Definition dedups (t : list Step) : nat :=
  length (filter (fun s => s = Dedup) t).

End dsl.

(** ** dialect/gremlin: responses
    Modelled from the spec: a response is the list of results the server
    sent; [ReadInt] and [ReadBool] expect exactly one result of their
    type. *)

Module gremlin.

Inductive Result : Type :=
| RInt (n : Z)
| RBool (b : bool)
| RVertex (id : string).

Definition Response : Type := list Result.

Definition ReadInt (res : Response) : Go.result Z :=
  match res with
  | [RInt n] => Go.Ok n
  | _ => Go.Err (Go.ErrBackend "gremlin: read int")
  end.

Definition ReadBool (res : Response) : Go.result bool :=
  match res with
  | [RBool b] => Go.Ok b
  | _ => Go.Err (Go.ErrBackend "gremlin: read bool")
  end.

End gremlin.

(** ** dialect: drivers *)

Module dialect.

Inductive Dialect : Type :=
| MySQL
| SQLite
| Gremlin
| Other (name : string).

(** A driver answers a rendered SQL query with rows, and a rendered
    traversal with a response, or fails with a message of its own.  The
    query text is a function of the selector (of the traversal), so the
    driver is modelled as a function of those. *)
Record Driver : Type := mkDriver {
  Dialect_ : Dialect;
  Query : sql.Selector -> string + sql.Rows;
  Exec : dsl.Traversal -> string + gremlin.Response;
}.

End dialect.

(** ** Package predicate, package item *)

Module predicate.

(** [predicate.Item]: a function applied to the query under construction,
    a selector on the relational backend and a traversal on the graph
    backend. *)
Record Item : Type := mkItem {
  onSQL : sql.Selector -> sql.Selector;
  onGremlin : dsl.Traversal -> dsl.Traversal;
}.

End predicate.

Module item.

(** The constants of the generated package [item], laid out as in the
    generated package [file]; the table and its single column are those of
    [ItemsTable]. *)
Definition Label : string := "item".
Definition FieldID : string := "id".
Definition Table : string := "items".
Definition Columns : list string := [FieldID].

End item.

(** ** Package ent: the builder *)

Module ent.

(** [Order]: applied to the query under construction, like a predicate. *)
Record Order : Type := mkOrder {
  orderSQL : sql.Selector -> sql.Selector;
  orderGremlin : dsl.Traversal -> dsl.Traversal;
}.

Record config : Type := mkConfig {
  driver : dialect.Driver;
}.

Record Item : Type := mkItem {
  Item_config : option config;
  ID : string;
}.

(** Decoding of one entity rests on [rows.Scan] and on
    [ValueMap.Decode], which are not part of the sources at hand: both are
    parameters.  They fail with a message of their own. *)
Class Decoder : Type := mkDecoder {
  ScanID : sql.Row -> string + string;
  DecodeIDs : gremlin.Response -> string + list string;
}.

(** [Items.FromRows], after [Cars.FromRows]: one entity per row, the first
    failing scan ends the loop with its error. *)
Fixpoint Items_FromRows `{Decoder} (rows : sql.Rows) : Go.result (list Item) :=
  match rows with
  | [] => Go.Ok []
  | r :: rows' =>
      id ← Go.lift (ScanID r);
      its ← Items_FromRows rows';
      Go.Ok (mkItem None id :: its)
  end.

(** [Items.FromResponse], after the template decode/many. *)
Definition Items_FromResponse `{Decoder} (res : gremlin.Response)
  : Go.result (list Item) :=
  ids ← Go.lift (DecodeIDs res);
  Go.Ok (mkItem None <$> (ids : list string)).

(** [Items.config]. *)
Definition Items_config (cfg : config) (its : list Item) : list Item :=
  (fun i => mkItem (Some cfg) (ID i)) <$> its.

Module ItemQuery.

(** The builder, with the contents of its slices and pointers. *)
Record t : Type := mk {
  config_ : config;
  limit : option Z;
  offset : option Z;
  order : list Order;
  unique : list string;
  predicates : list predicate.Item;
  sql_ : option sql.Selector;
  gremlin_ : option dsl.Traversal;
}.

Definition set_limit (l : option Z) (iq : t) : t :=
  mk (config_ iq) l (offset iq) (order iq) (unique iq) (predicates iq)
     (sql_ iq) (gremlin_ iq).
Definition set_offset (o : option Z) (iq : t) : t :=
  mk (config_ iq) (limit iq) o (order iq) (unique iq) (predicates iq)
     (sql_ iq) (gremlin_ iq).
Definition set_order (o : list Order) (iq : t) : t :=
  mk (config_ iq) (limit iq) (offset iq) o (unique iq) (predicates iq)
     (sql_ iq) (gremlin_ iq).
Definition set_predicates (ps : list predicate.Item) (iq : t) : t :=
  mk (config_ iq) (limit iq) (offset iq) (order iq) (unique iq) ps
     (sql_ iq) (gremlin_ iq).
Definition set_sql (s : option sql.Selector) (iq : t) : t :=
  mk (config_ iq) (limit iq) (offset iq) (order iq) (unique iq)
     (predicates iq) s (gremlin_ iq).

(** Where adds a new predicate for the builder. *)
Definition Where (ps : list predicate.Item) (iq : t) : t :=
  set_predicates (predicates iq ++ ps) iq.

(** Limit adds a limit step to the query. *)
Definition Limit (limit : Z) (iq : t) : t := set_limit (Some limit) iq.

(** Offset adds an offset step to the query. *)
Definition Offset (offset : Z) (iq : t) : t := set_offset (Some offset) iq.

(** Order adds an order step to the query. *)
Definition Order (o : list ent.Order) (iq : t) : t :=
  set_order (order iq ++ o) iq.

(** Clone returns a duplicate of the query builder.  On contents the
    duplicate has the fields of the original; what it shares with the
    original in memory is the subject of the slice model below. *)
Definition Clone (iq : t) : t :=
  mk (config_ iq) (limit iq) (offset iq)
     ([] ++ order iq) ([] ++ unique iq) ([] ++ predicates iq)
     (sql_ iq) (gremlin_ iq).

(** [sqlQuery]. *)
Definition sqlQuery (iq : t) : sql.Selector :=
  let selector :=
    match sql_ iq with
    | Some s => sql.Select (sql.Columns s item.Columns) s
    | None => sql.SelectFrom (sql.qualify item.Table item.Columns) item.Table
    end in
  let selector := foldl (fun s p => predicate.onSQL p s) selector (predicates iq) in
  let selector := foldl (fun s p => orderSQL p s) selector (order iq) in
  let selector :=
    match offset iq with
    | Some offset => sql.Limit Go.MaxInt32 (sql.Offset offset selector)
    | None => selector
    end in
  match limit iq with
  | Some limit => sql.Limit limit selector
  | None => selector
  end.

(** When [iq.sql] is set, [sqlQuery] builds on the selector it points
    to and returns that pointer: everything done to the returned selector
    is done to [iq.sql]. *)
Definition aliased (iq : t) (selector : sql.Selector) : t :=
  match sql_ iq with
  | Some _ => set_sql (Some selector) iq
  | None => iq
  end.

(** The selector [sqlAll] hands to the driver. *)
Definition sqlAll_selector (iq : t) : sql.Selector :=
  let selector := sqlQuery iq in
  if unique iq is [] then sql.Distinct selector else selector.

Definition sqlAll `{Decoder} (iq : t) : Go.result (list Item) * t :=
  let selector := sqlAll_selector iq in
  (rows ← Go.lift (dialect.Query (driver (config_ iq)) selector);
   its ← Items_FromRows rows;
   Go.Ok (Items_config (config_ iq) its),
   aliased iq selector).

(** The selector [sqlCount] hands to the driver. *)
Definition sqlCount_selector (iq : t) : sql.Selector :=
  let selector := sqlQuery iq in
  let unique := if unique iq is [] then [item.FieldID] else unique iq in
  sql.Count [sql.DistinctOf (sql.Columns selector unique)] selector.

Definition sqlCount (iq : t) : Go.result Z * t :=
  let selector := sqlCount_selector iq in
  (rows ← Go.lift (dialect.Query (driver (config_ iq)) selector);
   match rows with
   | [] => Go.Err (Go.ErrNew "ent: no rows found")
   | r :: _ =>
       Go.map_err (Go.ErrWrap "ent: failed reading count") (sql.ScanInt r)
   end,
   aliased iq selector).

Definition sqlExist (iq : t) : Go.result bool * t :=
  let '(r, iq') := sqlCount iq in
  (match r with
   | Go.Err err => Go.Err (Go.ErrWrap "ent: check existence" err)
   | Go.Ok n => Go.Ok (0 <? n)%Z
   end, iq').

(** [gremlinQuery], in two parts: the traversal up to and including the
    switch on limit and offset, then the test on [iq.unique]. *)
Definition gremlinPaged (iq : t) : dsl.Traversal :=
  let v :=
    match gremlin_ iq with
    | Some t => t
    | None => [dsl.V; dsl.HasLabel item.Label]
    end in
  let v := foldl (fun v p => predicate.onGremlin p v) v (predicates iq) in
  let v :=
    if order iq is [] then v
    else foldl (fun v p => orderGremlin p v) (v ++ [dsl.Order]) (order iq) in
  let v :=
    match limit iq, offset iq with
    | Some limit, Some offset => v ++ [dsl.Range offset (Go.add offset limit)]
    | None, Some offset => v ++ [dsl.Range offset Go.MaxInt32]
    | Some limit, None => v ++ [dsl.Limit limit]
    | None, None => v
    end in
  v.

Definition gremlinQuery (iq : t) : dsl.Traversal :=
  let v := gremlinPaged iq in
  if unique iq is [] then v ++ [dsl.Dedup] else v.

(** The traversals the three terminal operations hand to the driver. *)
Definition gremlinAll_query (iq : t) : dsl.Traversal :=
  gremlinQuery iq ++ [dsl.ValueMap true].
Definition gremlinCount_query (iq : t) : dsl.Traversal :=
  gremlinQuery iq ++ [dsl.Count].
Definition gremlinExist_query (iq : t) : dsl.Traversal :=
  gremlinQuery iq ++ [dsl.HasNext].

Definition gremlinAll `{Decoder} (iq : t) : Go.result (list Item) * t :=
  (res ← Go.lift (dialect.Exec (driver (config_ iq)) (gremlinAll_query iq));
   its ← Items_FromResponse res;
   Go.Ok (Items_config (config_ iq) its),
   iq).

Definition gremlinCount (iq : t) : Go.result Z * t :=
  (res ← Go.lift (dialect.Exec (driver (config_ iq)) (gremlinCount_query iq));
   gremlin.ReadInt res,
   iq).

Definition gremlinExist (iq : t) : Go.result bool * t :=
  (res ← Go.lift (dialect.Exec (driver (config_ iq)) (gremlinExist_query iq));
   gremlin.ReadBool res,
   iq).

Definition unsupported : Go.error := Go.ErrNew "ent: unsupported dialect".

(** All executes the query and returns a list of Items. *)
Definition All `{Decoder} (iq : t) : Go.result (list Item) * t :=
  match dialect.Dialect_ (driver (config_ iq)) with
  | dialect.MySQL | dialect.SQLite => sqlAll iq
  | dialect.Gremlin => gremlinAll iq
  | _ => (Go.Err unsupported, iq)
  end.

(** Count returns the count of the given query. *)
Definition Count (iq : t) : Go.result Z * t :=
  match dialect.Dialect_ (driver (config_ iq)) with
  | dialect.MySQL | dialect.SQLite => sqlCount iq
  | dialect.Gremlin => gremlinCount iq
  | _ => (Go.Err unsupported, iq)
  end.

(** Exist returns true if the query has elements in the graph. *)
Definition Exist (iq : t) : Go.result bool * t :=
  match dialect.Dialect_ (driver (config_ iq)) with
  | dialect.MySQL | dialect.SQLite => sqlExist iq
  | dialect.Gremlin => gremlinExist iq
  | _ => (Go.Err unsupported, iq)
  end.

(** First returns the first Item entity in the query. *)
Definition First `{Decoder} (iq : t) : Go.result Item * t :=
  let '(r, iq') := All (Limit 1 iq) in
  (match r with
   | Go.Err err => Go.Err err
   | Go.Ok [] => Go.Err (Go.ErrNotFound item.Label)
   | Go.Ok (i :: _) => Go.Ok i
   end, iq').

(** Only returns the only Item entity in the query. *)
Definition Only `{Decoder} (iq : t) : Go.result Item * t :=
  let '(r, iq') := All (Limit 2 iq) in
  (match r with
   | Go.Err err => Go.Err err
   | Go.Ok [i] => Go.Ok i
   | Go.Ok [] => Go.Err (Go.ErrNotFound item.Label)
   | Go.Ok _ => Go.Err (Go.ErrNotSingular item.Label)
   end, iq').

(** *** What the statements below are about *)

(** The columns a distinct count ranges over: the configured unique
    columns, the identifier when there are none. *)
Definition count_columns (iq : t) : list string :=
  if unique iq is [] then [item.FieldID] else unique iq.

(** A selector that selects one COUNT(DISTINCT ...) over the given
    columns of its table. *)
Definition sql_distinct_count (cols : list string) (s : sql.Selector) : bool :=
  bool_decide
    (sql.columns s =
       ["COUNT(DISTINCT " +:+ sql.comma (sql.qualify (sql.from s) cols) +:+ ")"]).

(** A traversal that counts what is left after a deduplication step. *)
Definition gremlin_distinct_count (t : dsl.Traversal) : bool :=
  match reverse t with
  | dsl.Count :: dsl.Dedup :: _ => true
  | _ => false
  end.

(** The step that bounds a traversal to [n] results, after the switch
    of [gremlinQuery]. *)
Definition gremlin_bound (iq : t) (n : Z) : dsl.Step :=
  match offset iq with
  | Some offset => dsl.Range offset (Go.add offset n)
  | None => dsl.Limit n
  end.

(** An error that is not one of the package's own NotFound and
    NotSingular: it comes from the backend, or reports an unsupported
    dialect. *)
Definition foreign (e : Go.error) : Prop :=
  (∃ msg, e = Go.ErrBackend msg) ∨ e = unsupported.

(** The contract of a Gremlin server for the two terminal steps the
    builder uses: on a traversal [t] that yields the results [xs],
    [t.count()] answers with the number of results and [t.hasNext()]
    with whether there is one; when [t] fails, both fail. *)
Definition gremlin_server (exec : dsl.Traversal -> string + gremlin.Response)
  : Prop :=
  ∀ t, ∃ r : string + list gremlin.Result,
    exec (t ++ [dsl.Count]) =
      sum_map id (fun xs => [gremlin.RInt (Z.of_nat (length xs))]) r ∧
    exec (t ++ [dsl.HasNext]) =
      sum_map id (fun xs => [gremlin.RBool (bool_decide (xs ≠ []))]) r.

End ItemQuery.

End ent.

(** ** Go slices
    A slice value is a header (backing array, length, capacity); the arrays
    live in a store.  [append] writes into the backing array when the
    capacity allows it, and moves the elements to a new array otherwise:
    two headers over one array see each other's writes.  The builder only
    builds slices by [append] and by the empty literal, so every header
    starts at the beginning of its array. *)

Module slice.

Record t : Type := mk {
  ptr : nat;
  len : nat;
  cap : nat;
}.

(** The empty literal [[]T{}], and also [nil]: no elements, no capacity. *)
Definition empty : t := mk 0 0 0.

Section store.
Context {A : Type}.

(** The capacity the runtime chooses for a new backing array, from the
    old capacity and the length needed. *)
Variable grow : nat -> nat -> nat.

(** The elements of a slice: [s[0], ..., s[len-1]]. *)
Definition elems (h : gmap nat (list A)) (s : t) : list A :=
  take (len s) (default [] (h !! ptr s)).

(** [append(s, xs...)]. *)
Definition append (s : t) (xs : list A) (h : gmap nat (list A))
  : t * gmap nat (list A) :=
  let n := len s + length xs in
  match xs with
  | [] => (s, h)
  | _ =>
      if decide (n ≤ cap s) then
        let arr := default [] (h !! ptr s) in
        (mk (ptr s) n (cap s),
         <[ptr s := take (len s) arr ++ xs ++ drop n arr]> h)
      else
        let p := fresh (dom h) in
        (mk p n (grow (cap s) n), <[p := elems h s ++ xs]> h)
  end.

(** A header is well formed in a store when its length is within its
    capacity and, if it has capacity, its array is allocated and holds
    its elements. *)
Definition wf (h : gmap nat (list A)) (s : t) : Prop :=
  len s ≤ cap s ∧
  (0 < cap s → ∃ arr, h !! ptr s = Some arr ∧ len s ≤ length arr).

(** Two headers are separated when they do not share a backing array. *)
Definition sep (s1 s2 : t) : Prop :=
  0 < cap s1 → 0 < cap s2 → ptr s1 ≠ ptr s2.

End store.

End slice.

(** ** The builder in memory
    The three slice fields of [ItemQuery] as headers into a store of
    backing arrays, one store per element type.  [limit] and [offset] are
    pointers to integers that are never written through ([Limit] and
    [Offset] store the address of a new variable); [sql] and [gremlin] are
    duplicated by the [Clone] methods of their packages. *)

Module mem.

Record heap : Type := mkHeap {
  orders : gmap nat (list ent.Order);
  uniques : gmap nat (list string);
  preds : gmap nat (list predicate.Item);
}.

Record ItemQuery : Type := mk {
  config_ : ent.config;
  limit : option Z;
  offset : option Z;
  order : slice.t;
  unique : slice.t;
  predicates : slice.t;
  sql_ : option sql.Selector;
  gremlin_ : option dsl.Traversal;
}.

(** The contents of a builder in memory. *)
Definition view (h : heap) (q : ItemQuery) : ent.ItemQuery.t :=
  ent.ItemQuery.mk (config_ q) (limit q) (offset q)
    (slice.elems (orders h) (order q))
    (slice.elems (uniques h) (unique q))
    (slice.elems (preds h) (predicates q))
    (sql_ q) (gremlin_ q).

Definition wf (h : heap) (q : ItemQuery) : Prop :=
  slice.wf (orders h) (order q) ∧
  slice.wf (uniques h) (unique q) ∧
  slice.wf (preds h) (predicates q).

Definition sep (q c : ItemQuery) : Prop :=
  slice.sep (order q) (order c) ∧
  slice.sep (unique q) (unique c) ∧
  slice.sep (predicates q) (predicates c).

Section methods.
Variable grow : nat -> nat -> nat.

(** [iq.predicates = append(iq.predicates, ps...)]. *)
Definition Where (ps : list predicate.Item) (q : ItemQuery) (h : heap)
  : ItemQuery * heap :=
  let '(s, hp) := slice.append grow (predicates q) ps (preds h) in
  (mk (config_ q) (limit q) (offset q) (order q) (unique q) s
      (sql_ q) (gremlin_ q),
   mkHeap (orders h) (uniques h) hp).

(** [iq.order = append(iq.order, o...)]. *)
Definition Order (o : list ent.Order) (q : ItemQuery) (h : heap)
  : ItemQuery * heap :=
  let '(s, ho) := slice.append grow (order q) o (orders h) in
  (mk (config_ q) (limit q) (offset q) s (unique q) (predicates q)
      (sql_ q) (gremlin_ q),
   mkHeap ho (uniques h) (preds h)).

(** [iq.unique = append(iq.unique, cols...)]: no method of the builder
    does it, code of the package can. *)
Definition Unique (cols : list string) (q : ItemQuery) (h : heap)
  : ItemQuery * heap :=
  let '(s, hu) := slice.append grow (unique q) cols (uniques h) in
  (mk (config_ q) (limit q) (offset q) (order q) s (predicates q)
      (sql_ q) (gremlin_ q),
   mkHeap (orders h) hu (preds h)).

(** [Clone]: each slice is [append([]T{}, iq.field...)]. *)
Definition Clone (q : ItemQuery) (h : heap) : ItemQuery * heap :=
  let '(o, ho) :=
    slice.append grow slice.empty (slice.elems (orders h) (order q)) (orders h) in
  let '(u, hu) :=
    slice.append grow slice.empty (slice.elems (uniques h) (unique q)) (uniques h) in
  let '(p, hp) :=
    slice.append grow slice.empty (slice.elems (preds h) (predicates q)) (preds h) in
  (mk (config_ q) (limit q) (offset q) o u p (sql_ q) (gremlin_ q),
   mkHeap ho hu hp).

(** A copy of the struct alone, sharing the three backing arrays; what
    [Clone] is compared with. *)
Definition shallow (q : ItemQuery) : ItemQuery := q.

(** Appends issued by a caller, to the original builder or to its
    clone. *)
Inductive op : Type :=
| OpWhere (ps : list predicate.Item)
| OpOrder (o : list ent.Order)
| OpUnique (cols : list string).

Definition apply (o : op) (q : ItemQuery) (h : heap) : ItemQuery * heap :=
  match o with
  | OpWhere ps => Where ps q h
  | OpOrder os => Order os q h
  | OpUnique cols => Unique cols q h
  end.

(** The same append on contents. *)
Definition apply_view (o : op) (iq : ent.ItemQuery.t) : ent.ItemQuery.t :=
  match o with
  | OpWhere ps => ent.ItemQuery.Where ps iq
  | OpOrder os => ent.ItemQuery.Order os iq
  | OpUnique cols =>
      ent.ItemQuery.mk (ent.ItemQuery.config_ iq) (ent.ItemQuery.limit iq)
        (ent.ItemQuery.offset iq) (ent.ItemQuery.order iq)
        (ent.ItemQuery.unique iq ++ cols) (ent.ItemQuery.predicates iq)
        (ent.ItemQuery.sql_ iq) (ent.ItemQuery.gremlin_ iq)
  end.

(** Which builder an append goes to. *)
Inductive target : Type := Original | TheClone.

(** A sequence of appends on two builders [q] (the original) and [c]
    (the clone) living in one heap. *)
Fixpoint run (ops : list (target * op)) (q c : ItemQuery) (h : heap)
  : ItemQuery * ItemQuery * heap :=
  match ops with
  | [] => (q, c, h)
  | (Original, o) :: ops' =>
      let '(q', h') := apply o q h in run ops' q' c h'
  | (TheClone, o) :: ops' =>
      let '(c', h') := apply o c h in run ops' q c' h'
  end.

(** What the appends sent to one of the two builders do to contents. *)
Fixpoint replay (who : target) (ops : list (target * op))
  (iq : ent.ItemQuery.t) : ent.ItemQuery.t :=
  match ops with
  | [] => iq
  | (w, o) :: ops' =>
      match who, w with
      | Original, Original | TheClone, TheClone => replay who ops' (apply_view o iq)
      | _, _ => replay who ops' iq
      end
  end.

End methods.

End mem.

(** ** Sample backends and builders
    Small backends the statements are run on: a Gremlin server that
    interprets the steps over three traversers, two of them the same vertex,
    and a relational engine over a table of three rows. *)

Module sample.

#[global] Instance Result_eq_dec : EqDecision gremlin.Result.
Proof. solve_decision. Defined.

Definition step (xs : list gremlin.Result) (s : dsl.Step) : list gremlin.Result :=
  match s with
  | dsl.V => [gremlin.RVertex "1"; gremlin.RVertex "2"; gremlin.RVertex "2"]
  | dsl.Range lo hi => take (Z.to_nat (hi - lo)) (drop (Z.to_nat lo) xs)
  | dsl.Limit n => take (Z.to_nat n) xs
  | dsl.Dedup => remove_dups xs
  | dsl.Count => [gremlin.RInt (Z.of_nat (length xs))]
  | dsl.HasNext => [gremlin.RBool (bool_decide (xs ≠ []))]
  | _ => xs
  end.

Definition exec (t : dsl.Traversal) : string + gremlin.Response :=
  inr (foldl step [] t).

Definition query (s : sql.Selector) : string + sql.Rows :=
  let rows := [[sql.VString "1"]; [sql.VString "2"]; [sql.VString "3"]] in
  let rows := drop (Z.to_nat (default 0%Z (sql.offset s))) rows in
  let rows := if sql.limit s is Some n then take (Z.to_nat n) rows else rows in
  inr (if sql.columns s is [c]
       then if String.prefix "COUNT(" c
            then [[sql.VInt (Z.of_nat (length rows))]] else rows
       else rows).

Definition mysql : dialect.Driver := dialect.mkDriver dialect.MySQL query exec.
Definition tinkerpop : dialect.Driver := dialect.mkDriver dialect.Gremlin query exec.

#[global] Instance decoder : ent.Decoder :=
  ent.mkDecoder
    (fun r => if r is [sql.VString s] then inr s else inl "scan")
    (fun res => inr (omap (fun x => if x is gremlin.RVertex v then Some v else None) res)).

(** [client.Item.Query()] on each backend. *)
Definition items (d : dialect.Driver) : ent.ItemQuery.t :=
  ent.ItemQuery.mk (ent.mkConfig d) None None [] [] [] None None.

(** The same builder with a unique-column override. *)
Definition items_unique (d : dialect.Driver) : ent.ItemQuery.t :=
  ent.ItemQuery.mk (ent.mkConfig d) None None [] ["name"] [] None None.

(** A predicate on the identifier. *)
Definition IDEQ (id : string) : predicate.Item :=
  predicate.mkItem
    (fun s => sql.mkSelector (sql.columns s) (sql.from s)
                (sql.where_ s ++ ["id = " +:+ id]) (sql.order s)
                (sql.limit s) (sql.offset s) (sql.distinct s))
    (fun t => t ++ [dsl.Custom "hasID" [id]]).

End sample.

Module sample_mem.

(** A growth policy: at least what is needed, at least twice the old
    capacity. *)
Definition grow (old need : nat) : nat := need `max` (2 * old).

(** A heap with one array of predicates of capacity 2 holding one
    predicate, and the builder over it. *)
Definition heap0 : mem.heap :=
  mem.mkHeap ∅ ∅ {[ 0 := [sample.IDEQ "1"] ]}.

Definition builder0 : mem.ItemQuery :=
  mem.mk (ent.mkConfig sample.tinkerpop) None None
    slice.empty slice.empty (slice.mk 0 1 2) None None.

(** The identifiers the predicates of a builder test, for display. *)
Definition ids (iq : ent.ItemQuery.t) : list dsl.Traversal :=
  (fun p => predicate.onGremlin p []) <$> ent.ItemQuery.predicates iq.

End sample_mem.

(** ** schema/field and dialect/sql/schema: tables
    The types of the migration schema, with the fields the generated file
    entc/integration/ent/migrate/schema.go sets.  A pointer to a column is
    modelled by the column, a pointer to a table by the name of the
    table. *)

Module field.

Inductive Type_ : Type :=
| TypeBool | TypeTime | TypeString | TypeEnum
| TypeInt | TypeInt8 | TypeInt16 | TypeInt32 | TypeInt64
| TypeFloat64.

#[global] Instance Type_eq_dec : EqDecision Type_.
Proof. solve_decision. Defined.

End field.

Module schema.

Inductive ReferenceOption : Type := NoAction | Restrict | Cascade | SetNull | SetDefault.

#[global] Instance ReferenceOption_eq_dec : EqDecision ReferenceOption.
Proof. solve_decision. Defined.

Record Column : Type := mkColumn {
  Name : string;
  Type_ : field.Type_;
  Unique : bool;
  Increment : bool;
  Nullable : bool;
  Default : option string;
  Enums : list string;
}.

#[global] Instance Column_eq_dec : EqDecision Column.
Proof. solve_decision. Defined.

(** A column with the zero value in every field that is not given. *)
Definition column (name : string) (ty : field.Type_) : Column :=
  mkColumn name ty false false false None [].
Definition unique (c : Column) : Column :=
  mkColumn (Name c) (Type_ c) true (Increment c) (Nullable c) (Default c) (Enums c).
Definition increment (c : Column) : Column :=
  mkColumn (Name c) (Type_ c) (Unique c) true (Nullable c) (Default c) (Enums c).
Definition nullable (c : Column) : Column :=
  mkColumn (Name c) (Type_ c) (Unique c) (Increment c) true (Default c) (Enums c).
Definition default_ (d : string) (c : Column) : Column :=
  mkColumn (Name c) (Type_ c) (Unique c) (Increment c) (Nullable c) (Some d) (Enums c).
Definition enums (es : list string) (c : Column) : Column :=
  mkColumn (Name c) (Type_ c) (Unique c) (Increment c) (Nullable c) (Default c) es.

Record ForeignKey : Type := mkForeignKey {
  Symbol : string;
  Columns : list Column;
  RefTable : string;
  RefColumns : list Column;
  OnDelete : ReferenceOption;
}.

Record Index : Type := mkIndex {
  IndexName : string;
  IndexUnique : bool;
  IndexColumns : list Column;
}.

Record Table : Type := mkTable {
  TableName : string;
  TableColumns : list Column;
  PrimaryKey : list Column;
  ForeignKeys : list ForeignKey;
  Indexes : list Index;
}.

(** Modelled from the spec: the methods of [schema.Table] are not part of
    the sources at hand.  [NewTable] is the empty table of a name,
    [AddPrimary] adds a column and makes it the primary key, [AddColumn],
    [AddForeignKey] and [AddIndex] append; an index refers to the columns
    of the table by name. *)
Definition NewTable (name : string) : Table := mkTable name [] [] [] [].

Definition AddPrimary (c : Column) (t : Table) : Table :=
  mkTable (TableName t) (TableColumns t ++ [c]) (PrimaryKey t ++ [c])
    (ForeignKeys t) (Indexes t).

Definition AddColumn (c : Column) (t : Table) : Table :=
  mkTable (TableName t) (TableColumns t ++ [c]) (PrimaryKey t)
    (ForeignKeys t) (Indexes t).

Definition AddForeignKey (fk : ForeignKey) (t : Table) : Table :=
  mkTable (TableName t) (TableColumns t) (PrimaryKey t)
    (ForeignKeys t ++ [fk]) (Indexes t).

Definition AddIndex (name : string) (uniq : bool) (cols : list string) (t : Table)
  : Table :=
  let found :=
    omap (fun n => list_find (fun c => Name c = n) (TableColumns t) ≫= fun p => Some p.2)
         cols in
  mkTable (TableName t) (TableColumns t) (PrimaryKey t) (ForeignKeys t)
    (Indexes t ++ [mkIndex name uniq found]).

End schema.

(** ** entc/load: the loaded schemas
    The fields of [load.Schema] and [load.Edge] that entc/gen reads.  A
    field descriptor is given by the column it stands for, an index by its
    name, its uniqueness and its columns. *)

Module load.

(** [Ref] points to an edge of the same type; no induction principle is
    needed for it. *)
#[local] Unset Elimination Schemes.
Inductive Edge : Type := mkEdge {
  Name : string;
  Type_ : string;
  Tag : string;
  RefName : string;
  Ref : option Edge;
  Unique : bool;
  Inverse : bool;
  Required : bool;
}.
#[local] Set Elimination Schemes.

Record Index : Type := mkIndex {
  IndexName : string;
  IndexUnique : bool;
  IndexColumns : list string;
}.

Record Schema : Type := mkSchema {
  SchemaName : string;
  Fields : list schema.Column;
  Edges : list Edge;
  Indexes : list Index;
}.

(** [edge.To(name, type)]. *)
Definition To (name type : string) : Edge :=
  mkEdge name type "" "" None false false false.

(** [edge.From(name, type).Ref(ref)]. *)
Definition From (name type ref : string) : Edge :=
  mkEdge name type "" ref None false true false.

(** [edge.To(assoc, type).From(name)], with the uniqueness of the two
    sides. *)
Definition ToFrom (assoc type name : string) (assoc_unique unique_ : bool) : Edge :=
  mkEdge name type "" ""
    (Some (mkEdge assoc type "" "" None assoc_unique false false)) unique_ true false.

Definition unique (e : Edge) : Edge :=
  mkEdge (Name e) (Type_ e) (Tag e) (RefName e) (Ref e) true (Inverse e) (Required e).

End load.

(** ** entc/gen: the graph *)

Module gen.

(** The naming helpers of the generator: [snake], the inflection rule
    [rules.Singularize], and the methods [Type.Label] and [Type.Table],
    which derive the label and the table of a type from its name.  None of
    them is part of the sources at hand: they are parameters. *)
Class Naming : Type := mkNaming {
  snake : string -> string;
  Singularize : string -> string;
  Label : string -> string;
  Table : string -> string;
}.

(** The failures of graph construction.  [expect], [check] and the errors
    of [resolve] end the construction with a [graphError]; an index out of
    range or a nil table is a run-time panic. *)
Inductive graphError : Type :=
| TypeDoesNotExist (type : string)
| MissingReferenceName (type edge : string)
| ReferenceNameIsDerived (type edge : string)
| AssocInverseNotSameType
| EdgeMissingForInverse (type edge : string)
| RequiredInBothDirections (type edge : string)
| MismatchTypeForBackRef (type edge : string)
| Panic (what : string).

Inductive result (A : Type) : Type :=
| Ok (a : A)
| Err (e : graphError).
Arguments Ok {A} a.
Arguments Err {A} e.

#[global] Instance result_bind : MBind result :=
  fun A B k r => match r with Ok a => k a | Err e => Err e end.

(** [expect cond err]. *)
Definition expect (cond : bool) (e : graphError) : result unit :=
  if cond then Ok tt else Err e.

Definition deref {A} (what : string) (o : option A) : result A :=
  match o with
  | Some a => Ok a
  | None => Err (Panic what)
  end.

(** The relation kinds. *)
Inductive Rel : Type := Unk | O2O | O2M | M2O | M2M.

#[global] Instance Rel_eq_dec : EqDecision Rel.
Proof. solve_decision. Defined.

Record Relation : Type := mkRelation {
  RelType : Rel;
  RelTable : string;
  Columns : list string;
}.

(** An edge.  [Type] and [Owner] point to nodes of the graph: a pointer
    to a node is its position in [Graph.Nodes]. *)
Record Edge : Type := mkEdge {
  Name : string;
  Type_ : nat;
  Owner : nat;
  Inverse : string;
  Unique : bool;
  Optional : bool;
  StructTag : string;
  SelfRef : bool;
  Rel_ : Relation;
}.

Definition set_Rel (r : Relation) (e : Edge) : Edge :=
  mkEdge (Name e) (Type_ e) (Owner e) (Inverse e) (Unique e) (Optional e)
    (StructTag e) (SelfRef e) r.
Definition set_SelfRef (b : bool) (e : Edge) : Edge :=
  mkEdge (Name e) (Type_ e) (Owner e) (Inverse e) (Unique e) (Optional e)
    (StructTag e) b (Rel_ e).

Record Index : Type := mkIndex {
  IndexName : string;
  IndexUnique : bool;
  IndexColumns : list string;
}.

(** A node. *)
Record Type__ : Type := mkType {
  TypeName : string;
  Fields : list schema.Column;
  Edges : list Edge;
  Indexes : list Index;
}.

Definition set_Edges (es : list Edge) (t : Type__) : Type__ :=
  mkType (TypeName t) (Fields t) es (Indexes t).
Definition set_Indexes (ix : list Index) (t : Type__) : Type__ :=
  mkType (TypeName t) (Fields t) (Edges t) ix.

(** The graph: its nodes; the configuration plays no part in
    resolution. *)
Record Graph : Type := mkGraph {
  Nodes : list Type__;
}.

(** Modelled from the spec: the methods of [Edge], [Relation] and [Type]
    are not part of the sources at hand.  An inverse edge is one that
    names its forward counterpart; [HasAssoc] finds the forward edge of a
    name on a type; [Relation.Column] is the first column; the identifier
    column is the one of the generated tables. *)
Definition IsInverse (e : Edge) : bool := negb (bool_decide (Inverse e = "")).
Definition IsM2M (e : Edge) : bool := bool_decide (RelType (Rel_ e) = M2M).
Definition HasAssoc (t : Type__) (name : string) : option (nat * Edge) :=
  list_find (fun e => Name e = name ∧ IsInverse e = false) (Edges t).
Definition Column (r : Relation) : result string :=
  deref "missing column for Relation" (head (Columns r)).
Definition IDColumn : schema.Column :=
  schema.increment (schema.column "id" field.TypeInt).

(** Modelled from the spec: [NewType] is not part of the sources at hand;
    a node starts with the name and the fields of its schema, and without
    edges and indexes. *)
Definition NewType (s : load.Schema) : result Type__ :=
  Ok (mkType (load.SchemaName s) (load.Fields s) [] []).

(** Modelled from the spec: [Type.AddIndex] is not part of the sources at
    hand; it appends the index. *)
Definition AddIndex (idx : load.Index) (t : Type__) : result Type__ :=
  Ok (set_Indexes
        (Indexes t ++ [mkIndex (load.IndexName idx) (load.IndexUnique idx)
                         (load.IndexColumns idx)]) t).

(** [g.typ]. *)
Definition typ (g : Graph) (name : string) : option (nat * Type__) :=
  list_find (fun n => name = TypeName n) (Nodes g).

Definition node (g : Graph) (i : nat) : result Type__ :=
  deref "nil type" (Nodes g !! i).

Definition set_node (i : nat) (t : Type__) (g : Graph) : Graph :=
  mkGraph (<[i := t]> (Nodes g)).

Definition set_edge (ti ei : nat) (e : Edge) (g : Graph) : Graph :=
  match Nodes g !! ti with
  | Some t => set_node ti (set_Edges (<[ei := e]> (Edges t)) t) g
  | None => g
  end.

(** [addNode]. *)
Definition addNode (g : Graph) (s : load.Schema) : result Graph :=
  t ← NewType s;
  Ok (mkGraph (Nodes g ++ [t])).

(** The edge that [addEdges] makes of a declaration. *)
Definition newEdge (name : string) (type owner : nat) (inverse : string)
  (uniq required : bool) (tag : string) : Edge :=
  mkEdge name type owner inverse uniq (negb required) tag false
    (mkRelation Unk "" []).

(** [addEdges], one declaration. *)
Definition addEdge (g : Graph) (ti : nat) (t : Type__) (e : load.Edge)
  : result (list Edge) :=
  match typ g (load.Type_ e) with
  | None => Err (TypeDoesNotExist (load.Type_ e))
  | Some (typ, _) =>
      if negb (load.Inverse e) then
        (* assoc only. *)
        Ok [newEdge (load.Name e) typ ti "" (load.Unique e) (load.Required e)
              (load.Tag e)]
      else
        match load.Ref e with
        | None =>
            (* inverse only. *)
            _ ← expect (negb (bool_decide (load.RefName e = "")))
                  (MissingReferenceName (TypeName t) (load.Name e));
            Ok [newEdge (load.Name e) typ typ (load.RefName e) (load.Unique e)
                  (load.Required e) (load.Tag e)]
        | Some ref =>
            (* inverse and assoc. *)
            _ ← expect (bool_decide (load.RefName e = ""))
                  (ReferenceNameIsDerived (TypeName t) (load.Name e));
            _ ← expect (bool_decide (load.Type_ ref = TypeName t))
                  AssocInverseNotSameType;
            Ok [newEdge (load.Name e) typ ti (load.Name ref) (load.Unique e)
                  (load.Required e) (load.Tag e);
                newEdge (load.Name ref) typ ti "" (load.Unique ref)
                  (load.Required ref) (load.Tag e)]
        end
  end.

(** [addEdges]. *)
Definition addEdges (g : Graph) (s : load.Schema) : result Graph :=
  '(ti, _) ← deref "nil type" (typ g (load.SchemaName s));
  foldl (fun (r : result Graph) e =>
           g ← r;
           t ← node g ti;
           es ← addEdge g ti t e;
           Ok (set_node ti (set_Edges (Edges t ++ es) t) g))
        (Ok g) (load.Edges s).

(** [addIndexes]. *)
Definition addIndexes (g : Graph) (s : load.Schema) : result Graph :=
  '(ti, _) ← deref "nil type" (typ g (load.SchemaName s));
  foldl (fun (r : result Graph) idx =>
           g ← r;
           t ← node g ti;
           t' ← AddIndex idx t;
           Ok (set_node ti t' g))
        (Ok g) (load.Indexes s).

(** [resolve], one edge: the body of the loop over [t.Edges], for the
    edge at position [ei] of the node at position [ti]. *)
Definition resolveEdge `{Naming} (g : Graph) (ti ei : nat) : result Graph :=
  t ← node g ti;
  e ← deref "nil edge" (Edges t !! ei);
  if IsInverse e then
    etype ← node g (Type_ e);
    match HasAssoc etype (Inverse e) with
    | None => Err (EdgeMissingForInverse (TypeName etype) (Name e))
    | Some (ri, ref) =>
        if negb (Optional e) && negb (Optional ref) then
          Err (RequiredInBothDirections (TypeName t) (Name e))
        else if negb (bool_decide (Type_ ref = ti)) then
          Err (MismatchTypeForBackRef (TypeName t) (Name e))
        else
          let table := Table (TypeName t) in
          let column := snake (Name e) +:+ "_id" in
          '(ekind, refkind, table, column, m2m) ←
            match Unique ref, Unique e with
            | true, true => Ok (O2O, O2O, table, column, None)
            | false, true => Ok (M2O, O2M, table, column, None)
            | true, false =>
                Ok (O2M, M2O, Table (TypeName etype),
                    snake (Name ref) +:+ "_id", None)
            | false, false =>
                rowner ← node g (Owner ref);
                rtype ← node g (Type_ ref);
                let table := Label (TypeName etype) +:+ "_" +:+ Name ref in
                let c1 := Label (TypeName rowner) +:+ "_id" in
                let c2 := Label (TypeName rtype) +:+ "_id" in
                (* if the relation is from the same type: User has Friends
                   ([]User). give the second column a different name (the
                   relation name). *)
                let c2 :=
                  if bool_decide (c1 = c2)
                  then Singularize (Name e) +:+ "_id" else c2 in
                Ok (M2M, M2M, table, column, Some [c1; c2])
            end;
          let ecols := if m2m is Some cs then cs else [column] in
          let e' := set_Rel (mkRelation ekind table ecols) e in
          let ref' := set_Rel (mkRelation refkind table ecols) ref in
          Ok (set_edge (Type_ e) ri ref' (set_edge ti ei e' g))
    end
  else if bool_decide (RelType (Rel_ e) = Unk) then
    (* assoc with uninitialized relation. *)
    e1 ←
      (if negb (Unique e) && bool_decide (Type_ e = ti) then
         eowner ← node g (Owner e);
         Ok (set_Rel (mkRelation M2M (Label (TypeName t) +:+ "_" +:+ Name e)
                        (Columns (Rel_ e) ++
                           [Label (TypeName eowner) +:+ "_id";
                            Singularize (Name e) +:+ "_id"]))
                     (set_SelfRef true e))
       else if Unique e && bool_decide (Type_ e = ti) then
         Ok (set_Rel (mkRelation O2O (Table (TypeName t)) (Columns (Rel_ e)))
                     (set_SelfRef true e))
       else if Unique e then
         Ok (set_Rel (mkRelation M2O (Table (TypeName t)) (Columns (Rel_ e))) e)
       else
         etype ← node g (Type_ e);
         Ok (set_Rel (mkRelation O2M (Table (TypeName etype)) (Columns (Rel_ e))) e));
    let e2 :=
      if negb (IsM2M e1) then
        (* Unlike assoc edges with inverse, we need to choose a unique name
           for the column in order to no conflict with other types that
           point to this type. *)
        set_Rel (mkRelation (RelType (Rel_ e1)) (RelTable (Rel_ e1))
                   [Label (TypeName t) +:+ "_" +:+
                      snake (Singularize (Name e)) +:+ "_id"]) e1
      else e1 in
    Ok (set_edge ti ei e2 g)
  else Ok g.

(** [resolve]: the loop over the edges of the node at position [ti]. *)
Definition resolve `{Naming} (g : Graph) (ti : nat) : result Graph :=
  t ← node g ti;
  foldl (fun (r : result Graph) ei => g ← r; resolveEdge g ti ei)
        (Ok g) (seq 0 (length (Edges t))).

(** [NewGraph]: nodes, then edges, then relations, then indexes. *)
Definition NewGraph `{Naming} (schemas : list load.Schema) : result Graph :=
  g ← foldl (fun (r : result Graph) s => g ← r; addNode g s)
            (Ok (mkGraph [])) schemas;
  g ← foldl (fun (r : result Graph) s => g ← r; addEdges g s) (Ok g) schemas;
  g ← foldl (fun (r : result Graph) ti => g ← r; resolve g ti)
            (Ok g) (seq 0 (length (Nodes g)));
  foldl (fun (r : result Graph) s => g ← r; addIndexes g s) (Ok g) schemas.

(** [Tables], first loop: one table per node, with the identifier and
    the fields.  The map [tables] of the source holds pointers into the
    slice [all]; here it holds positions in [all]. *)
Definition nodeTable `{Naming} (n : Type__) : schema.Table :=
  foldl (fun t f => schema.AddColumn f t)
        (schema.AddPrimary IDColumn (schema.NewTable (Table (TypeName n))))
        (Fields n).

Definition nodeTables `{Naming} (g : Graph)
  : gmap string nat * list schema.Table :=
  foldl (fun '(tables, all) n =>
           let table := nodeTable n in
           (<[schema.TableName table := length all]> tables, all ++ [table]))
        (∅, []) (Nodes g).

(** A foreign key with its relation column, added to the table at
    position [oi] that refers to the table at position [ri]. *)
Definition addRelationColumn (e : Edge) (uniq : bool) (oi ri : nat)
  (all : list schema.Table) : result (list schema.Table) :=
  name ← Column (Rel_ e);
  let column :=
    schema.mkColumn name field.TypeInt uniq false true None [] in
  owner ← deref "nil table" (all !! oi);
  ref ← deref "nil table" (all !! ri);
  pk ← deref "index out of range" (head (schema.PrimaryKey ref));
  let fk :=
    schema.mkForeignKey
      (schema.TableName owner +:+ "_" +:+ schema.TableName ref +:+ "_" +:+ Name e)
      [column] (schema.TableName ref) [pk] schema.SetNull in
  Ok (<[oi := schema.AddForeignKey fk (schema.AddColumn column owner)]> all).

(** [Tables], second loop, one edge of the node [n]: foreign key and
    reference, or join table. *)
Definition edgeTables `{Naming} (g : Graph) (tables : gmap string nat)
  (n : Type__) (all : list schema.Table) (e : Edge)
  : result (list schema.Table) :=
  if IsInverse e then Ok all
  else
    match RelType (Rel_ e) with
    | O2O | O2M =>
        oi ← deref "nil table" (tables !! RelTable (Rel_ e));
        ri ← deref "nil table" (tables !! Table (TypeName n));
        addRelationColumn e (bool_decide (RelType (Rel_ e) = O2O)) oi ri all
    | M2O =>
        etype ← node g (Type_ e);
        ri ← deref "nil table" (tables !! Table (TypeName etype));
        oi ← deref "nil table" (tables !! RelTable (Rel_ e));
        addRelationColumn e false oi ri all
    | M2M =>
        etype ← node g (Type_ e);
        i1 ← deref "nil table" (tables !! Table (TypeName n));
        i2 ← deref "nil table" (tables !! Table (TypeName etype));
        t1 ← deref "nil table" (all !! i1);
        t2 ← deref "nil table" (all !! i2);
        n1 ← deref "index out of range" (Columns (Rel_ e) !! 0);
        n2 ← deref "index out of range" (Columns (Rel_ e) !! 1);
        let c1 := schema.column n1 field.TypeInt in
        let c2 := schema.column n2 field.TypeInt in
        pk1 ← deref "index out of range" (head (schema.PrimaryKey t1));
        pk2 ← deref "index out of range" (head (schema.PrimaryKey t2));
        Ok (all ++
              [schema.mkTable (RelTable (Rel_ e)) [c1; c2] [c1; c2]
                 [schema.mkForeignKey
                    (RelTable (Rel_ e) +:+ "_" +:+ schema.Name c1)
                    [c1] (schema.TableName t1) [pk1] schema.Cascade;
                  schema.mkForeignKey
                    (RelTable (Rel_ e) +:+ "_" +:+ schema.Name c2)
                    [c2] (schema.TableName t2) [pk2] schema.Cascade]
                 []])
    | Unk => Ok all
    end.

(** [Tables], third loop: the indexes of a node, on its table. *)
Definition indexTables `{Naming} (tables : gmap string nat)
  (all : list schema.Table) (n : Type__) : result (list schema.Table) :=
  foldl (fun (r : result (list schema.Table)) idx =>
           all ← r;
           i ← deref "nil table" (tables !! Table (TypeName n));
           table ← deref "nil table" (all !! i);
           Ok (<[i := schema.AddIndex (IndexName idx) (IndexUnique idx)
                        (IndexColumns idx) table]> all))
        (Ok all) (Indexes n).

(** [Tables] returns the schema definitions of SQL tables for the
    graph. *)
Definition Tables `{Naming} (g : Graph) : result (list schema.Table) :=
  let '(tables, all) := nodeTables g in
  all ← foldl (fun (r : result (list schema.Table)) n =>
                 foldl (fun (r : result (list schema.Table)) e =>
                          all ← r; edgeTables g tables n all e)
                       r (Edges n))
              (Ok all) (Nodes g);
  foldl (fun (r : result (list schema.Table)) n =>
           all ← r; indexTables tables all n)
        (Ok all) (Nodes g).

(** *** What the statements below are about *)

(** The edge of a name on the type of a name, with the position of the
    type. *)
Definition edgeOf (g : Graph) (type edge : string) : option (nat * Edge) :=
  '(ti, t) ← typ g type;
  '(_, e) ← list_find (fun e => Name e = edge) (Edges t);
  Some (ti, e).

(** The shape of a join table: two columns that are the primary key, one
    foreign key on each, both deleting in cascade. *)
Definition joinTable (t : schema.Table) : bool :=
  match schema.TableColumns t, schema.PrimaryKey t, schema.ForeignKeys t with
  | [c1; c2], [p1; p2], [f1; f2] =>
      bool_decide (p1 = c1) && bool_decide (p2 = c2) &&
      bool_decide (schema.Columns f1 = [c1]) &&
      bool_decide (schema.Columns f2 = [c2]) &&
      bool_decide (schema.OnDelete f1 = schema.Cascade) &&
      bool_decide (schema.OnDelete f2 = schema.Cascade)
  | _, _, _ => false
  end.

(** Every foreign key of the table is on nullable columns and sets them
    to null on deletion. *)
Definition setNullKeys (t : schema.Table) : bool :=
  forallb (fun fk =>
             bool_decide (schema.OnDelete fk = schema.SetNull) &&
             forallb schema.Nullable (schema.Columns fk))
          (schema.ForeignKeys t).

(** The edges that [Tables] makes a join table of: the many-to-many
    edges that are not inverse edges. *)
Definition isJoinEdge (e : Edge) : Prop :=
  IsInverse e = false ∧ RelType (Rel_ e) = M2M.

#[global] Instance isJoinEdge_dec (e : Edge) : Decision (isJoinEdge e).
Proof. unfold isJoinEdge. apply _. Defined.

Definition joinEdges (g : Graph) : list Edge :=
  filter isJoinEdge (Nodes g ≫= Edges).

(** The derived tables: [n] tables of nodes, whose foreign keys set null,
    followed by one join table for each of the edges [es]. *)
Definition derived (n : nat) (es : list Edge) (all : list schema.Table) : Prop :=
  length all = n + length (filter isJoinEdge es) ∧
  Forall (fun t => setNullKeys t = true) (take n all) ∧
  Forall (fun t => joinTable t = true) (drop n all).

End gen.

(** ** A naming instance
    Modelled from the spec: the snake-case and inflection helpers of the
    generator are not part of the sources at hand.  This instance is for
    running the resolver: [snake] puts an underscore before every upper-case
    letter that follows a lower-case one and lowers the letters; a plural is
    the word with an "s", a singular is the word without its last "s".  The
    labels and tables it yields are those of the generated schema
    ("users", "user_groups", "friend_id"). *)

Module naming.

Definition is_upper (a : ascii) : bool :=
  let n := nat_of_ascii a in (65 <=? n)%nat && (n <=? 90)%nat.
Definition is_lower (a : ascii) : bool :=
  let n := nat_of_ascii a in (97 <=? n)%nat && (n <=? 122)%nat.
Definition to_lower (a : ascii) : ascii :=
  if is_upper a then ascii_of_nat (nat_of_ascii a + 32) else a.

Fixpoint snake_from (prev : option ascii) (s : string) : string :=
  match s with
  | EmptyString => EmptyString
  | String a s' =>
      let rest := String (to_lower a) (snake_from (Some a) s') in
      if is_upper a && (if prev is Some p then is_lower p else false)
      then String "_" rest else rest
  end.

Definition snake (s : string) : string := snake_from None s.

Definition pluralize (s : string) : string := s +:+ "s".

Fixpoint singularize (s : string) : string :=
  match s with
  | EmptyString => EmptyString
  | String a EmptyString => if Ascii.eqb a "s" then EmptyString else s
  | String a s' => String a (singularize s')
  end.

#[global] Instance english : gen.Naming :=
  gen.mkNaming snake singularize snake (fun name => snake (pluralize name)).

End naming.

(** ** entc/integration/ent/migrate: the generated schema
    The column and table values of schema.go, in the order of the file.
    [XColumns !!! i] is the element [XColumns[i]]; the field [RefTable] of a
    foreign key, which [init] sets to a table, holds the name of that
    table. *)

Module migrate.

#[local] Instance Column_inhabited : Inhabited schema.Column :=
  populate (schema.column "" field.TypeBool).

(** CardsColumns holds the columns for the "cards" table. *)
Definition CardsColumns : list schema.Column :=
  [ schema.increment (schema.column "id" field.TypeInt);
    schema.column "created_at" field.TypeTime;
    schema.column "updated_at" field.TypeTime;
    schema.column "number" field.TypeString;
    schema.nullable (schema.unique (schema.column "owner_id" field.TypeInt)) ].

(** CommentsColumns holds the columns for the "comments" table. *)
Definition CommentsColumns : list schema.Column :=
  [ schema.increment (schema.column "id" field.TypeInt);
    schema.unique (schema.column "unique_int" field.TypeInt);
    schema.unique (schema.column "unique_float" field.TypeFloat64);
    schema.nullable (schema.column "nillable_int" field.TypeInt) ].

(** FieldTypesColumns holds the columns for the "field_types" table. *)
Definition FieldTypesColumns : list schema.Column :=
  [ schema.increment (schema.column "id" field.TypeInt);
    schema.column "int" field.TypeInt;
    schema.column "int8" field.TypeInt8;
    schema.column "int16" field.TypeInt16;
    schema.column "int32" field.TypeInt32;
    schema.column "int64" field.TypeInt64;
    schema.nullable (schema.column "optional_int" field.TypeInt);
    schema.nullable (schema.column "optional_int8" field.TypeInt8);
    schema.nullable (schema.column "optional_int16" field.TypeInt16);
    schema.nullable (schema.column "optional_int32" field.TypeInt32);
    schema.nullable (schema.column "optional_int64" field.TypeInt64);
    schema.nullable (schema.column "nillable_int" field.TypeInt);
    schema.nullable (schema.column "nillable_int8" field.TypeInt8);
    schema.nullable (schema.column "nillable_int16" field.TypeInt16);
    schema.nullable (schema.column "nillable_int32" field.TypeInt32);
    schema.nullable (schema.column "nillable_int64" field.TypeInt64);
    schema.nullable (schema.column "validate_optional_int32" field.TypeInt32);
    schema.enums ["on"; "off"] (schema.nullable (schema.column "state" field.TypeEnum)) ].

(** FilesColumns holds the columns for the "files" table. *)
Definition FilesColumns : list schema.Column :=
  [ schema.increment (schema.column "id" field.TypeInt);
    schema.default_ "file.DefaultSize" (schema.column "size" field.TypeInt);
    schema.column "name" field.TypeString;
    schema.nullable (schema.column "user" field.TypeString);
    schema.nullable (schema.column "group" field.TypeString);
    schema.nullable (schema.column "type_id" field.TypeInt);
    schema.nullable (schema.column "group_file_id" field.TypeInt);
    schema.nullable (schema.column "owner_id" field.TypeInt) ].

(** FileTypesColumns holds the columns for the "file_types" table. *)
Definition FileTypesColumns : list schema.Column :=
  [ schema.increment (schema.column "id" field.TypeInt);
    schema.unique (schema.column "name" field.TypeString) ].

(** GroupsColumns holds the columns for the "groups" table. *)
Definition GroupsColumns : list schema.Column :=
  [ schema.increment (schema.column "id" field.TypeInt);
    schema.default_ "group.DefaultActive" (schema.column "active" field.TypeBool);
    schema.column "expire" field.TypeTime;
    schema.nullable (schema.column "type" field.TypeString);
    schema.default_ "group.DefaultMaxUsers" (schema.nullable (schema.column "max_users" field.TypeInt));
    schema.column "name" field.TypeString;
    schema.nullable (schema.column "info_id" field.TypeInt) ].

(** GroupInfosColumns holds the columns for the "group_infos" table. *)
Definition GroupInfosColumns : list schema.Column :=
  [ schema.increment (schema.column "id" field.TypeInt);
    schema.column "desc" field.TypeString;
    schema.default_ "groupinfo.DefaultMaxUsers" (schema.column "max_users" field.TypeInt) ].

(** ItemsColumns holds the columns for the "items" table. *)
Definition ItemsColumns : list schema.Column :=
  [ schema.increment (schema.column "id" field.TypeInt) ].

(** NodesColumns holds the columns for the "nodes" table. *)
Definition NodesColumns : list schema.Column :=
  [ schema.increment (schema.column "id" field.TypeInt);
    schema.nullable (schema.column "value" field.TypeInt);
    schema.nullable (schema.unique (schema.column "prev_id" field.TypeInt)) ].

(** PetsColumns holds the columns for the "pets" table. *)
Definition PetsColumns : list schema.Column :=
  [ schema.increment (schema.column "id" field.TypeInt);
    schema.column "name" field.TypeString;
    schema.nullable (schema.column "owner_id" field.TypeInt);
    schema.nullable (schema.unique (schema.column "team_id" field.TypeInt)) ].

(** UsersColumns holds the columns for the "users" table. *)
Definition UsersColumns : list schema.Column :=
  [ schema.increment (schema.column "id" field.TypeInt);
    schema.column "age" field.TypeInt;
    schema.column "name" field.TypeString;
    schema.default_ "user.DefaultLast" (schema.column "last" field.TypeString);
    schema.nullable (schema.unique (schema.column "nickname" field.TypeString));
    schema.nullable (schema.unique (schema.column "phone" field.TypeString));
    schema.nullable (schema.column "group_blocked_id" field.TypeInt);
    schema.nullable (schema.unique (schema.column "user_spouse_id" field.TypeInt));
    schema.nullable (schema.column "parent_id" field.TypeInt) ].

(** UserGroupsColumns holds the columns for the "user_groups" table. *)
Definition UserGroupsColumns : list schema.Column :=
  [ schema.column "user_id" field.TypeInt;
    schema.column "group_id" field.TypeInt ].

(** UserFriendsColumns holds the columns for the "user_friends" table. *)
Definition UserFriendsColumns : list schema.Column :=
  [ schema.column "user_id" field.TypeInt;
    schema.column "friend_id" field.TypeInt ].

(** UserFollowingColumns holds the columns for the "user_following" table. *)
Definition UserFollowingColumns : list schema.Column :=
  [ schema.column "user_id" field.TypeInt;
    schema.column "follower_id" field.TypeInt ].

(** CardsTable holds the schema information for the "cards" table. *)
Definition CardsTable : schema.Table :=
  schema.mkTable "cards" CardsColumns
    [CardsColumns !!! 0]
    [ schema.mkForeignKey "cards_users_card" [CardsColumns !!! 4]
        "users" [UsersColumns !!! 0] schema.SetNull ]
    [].

(** CommentsTable holds the schema information for the "comments" table. *)
Definition CommentsTable : schema.Table :=
  schema.mkTable "comments" CommentsColumns
    [CommentsColumns !!! 0]
    []
    [].

(** FieldTypesTable holds the schema information for the "field_types" table. *)
Definition FieldTypesTable : schema.Table :=
  schema.mkTable "field_types" FieldTypesColumns
    [FieldTypesColumns !!! 0]
    []
    [].

(** FilesTable holds the schema information for the "files" table. *)
Definition FilesTable : schema.Table :=
  schema.mkTable "files" FilesColumns
    [FilesColumns !!! 0]
    [ schema.mkForeignKey "files_file_types_files" [FilesColumns !!! 5]
        "file_types" [FileTypesColumns !!! 0] schema.SetNull;
      schema.mkForeignKey "files_groups_files" [FilesColumns !!! 6]
        "groups" [GroupsColumns !!! 0] schema.SetNull;
      schema.mkForeignKey "files_users_files" [FilesColumns !!! 7]
        "users" [UsersColumns !!! 0] schema.SetNull ]
    [ schema.mkIndex "name_size" false [FilesColumns !!! 2; FilesColumns !!! 1];
      schema.mkIndex "name_user" true [FilesColumns !!! 2; FilesColumns !!! 3];
      schema.mkIndex "name_owner_id_type_id" true [FilesColumns !!! 2; FilesColumns !!! 7; FilesColumns !!! 5] ].

(** FileTypesTable holds the schema information for the "file_types" table. *)
Definition FileTypesTable : schema.Table :=
  schema.mkTable "file_types" FileTypesColumns
    [FileTypesColumns !!! 0]
    []
    [].

(** GroupsTable holds the schema information for the "groups" table. *)
Definition GroupsTable : schema.Table :=
  schema.mkTable "groups" GroupsColumns
    [GroupsColumns !!! 0]
    [ schema.mkForeignKey "groups_group_infos_info" [GroupsColumns !!! 6]
        "group_infos" [GroupInfosColumns !!! 0] schema.SetNull ]
    [].

(** GroupInfosTable holds the schema information for the "group_infos" table. *)
Definition GroupInfosTable : schema.Table :=
  schema.mkTable "group_infos" GroupInfosColumns
    [GroupInfosColumns !!! 0]
    []
    [].

(** ItemsTable holds the schema information for the "items" table. *)
Definition ItemsTable : schema.Table :=
  schema.mkTable "items" ItemsColumns
    [ItemsColumns !!! 0]
    []
    [].

(** NodesTable holds the schema information for the "nodes" table. *)
Definition NodesTable : schema.Table :=
  schema.mkTable "nodes" NodesColumns
    [NodesColumns !!! 0]
    [ schema.mkForeignKey "nodes_nodes_next" [NodesColumns !!! 2]
        "nodes" [NodesColumns !!! 0] schema.SetNull ]
    [].

(** PetsTable holds the schema information for the "pets" table. *)
Definition PetsTable : schema.Table :=
  schema.mkTable "pets" PetsColumns
    [PetsColumns !!! 0]
    [ schema.mkForeignKey "pets_users_pets" [PetsColumns !!! 2]
        "users" [UsersColumns !!! 0] schema.SetNull;
      schema.mkForeignKey "pets_users_team" [PetsColumns !!! 3]
        "users" [UsersColumns !!! 0] schema.SetNull ]
    [].

(** UsersTable holds the schema information for the "users" table. *)
Definition UsersTable : schema.Table :=
  schema.mkTable "users" UsersColumns
    [UsersColumns !!! 0]
    [ schema.mkForeignKey "users_groups_blocked" [UsersColumns !!! 6]
        "groups" [GroupsColumns !!! 0] schema.SetNull;
      schema.mkForeignKey "users_users_spouse" [UsersColumns !!! 7]
        "users" [UsersColumns !!! 0] schema.SetNull;
      schema.mkForeignKey "users_users_parent" [UsersColumns !!! 8]
        "users" [UsersColumns !!! 0] schema.SetNull ]
    [].

(** UserGroupsTable holds the schema information for the "user_groups" table. *)
Definition UserGroupsTable : schema.Table :=
  schema.mkTable "user_groups" UserGroupsColumns
    [UserGroupsColumns !!! 0; UserGroupsColumns !!! 1]
    [ schema.mkForeignKey "user_groups_user_id" [UserGroupsColumns !!! 0]
        "users" [UsersColumns !!! 0] schema.Cascade;
      schema.mkForeignKey "user_groups_group_id" [UserGroupsColumns !!! 1]
        "groups" [GroupsColumns !!! 0] schema.Cascade ]
    [].

(** UserFriendsTable holds the schema information for the "user_friends" table. *)
Definition UserFriendsTable : schema.Table :=
  schema.mkTable "user_friends" UserFriendsColumns
    [UserFriendsColumns !!! 0; UserFriendsColumns !!! 1]
    [ schema.mkForeignKey "user_friends_user_id" [UserFriendsColumns !!! 0]
        "users" [UsersColumns !!! 0] schema.Cascade;
      schema.mkForeignKey "user_friends_friend_id" [UserFriendsColumns !!! 1]
        "users" [UsersColumns !!! 0] schema.Cascade ]
    [].

(** UserFollowingTable holds the schema information for the "user_following" table. *)
Definition UserFollowingTable : schema.Table :=
  schema.mkTable "user_following" UserFollowingColumns
    [UserFollowingColumns !!! 0; UserFollowingColumns !!! 1]
    [ schema.mkForeignKey "user_following_user_id" [UserFollowingColumns !!! 0]
        "users" [UsersColumns !!! 0] schema.Cascade;
      schema.mkForeignKey "user_following_follower_id" [UserFollowingColumns !!! 1]
        "users" [UsersColumns !!! 0] schema.Cascade ]
    [].

(** Tables holds all the tables in the schema. *)
Definition Tables : list schema.Table :=
  [ CardsTable;
    CommentsTable;
    FieldTypesTable;
    FilesTable;
    FileTypesTable;
    GroupsTable;
    GroupInfosTable;
    ItemsTable;
    NodesTable;
    PetsTable;
    UsersTable;
    UserGroupsTable;
    UserFriendsTable;
    UserFollowingTable ].

End migrate.

(** ** Sample schemas *)

Module schemas.

Import load.

(** The schema of the integration suite, as far as the generated
    migration schema shows it: the fields of a type are the columns of its
    table between the identifier and the relation columns; the edges are
    the declarations from which the resolver and [Tables] give back the
    generated tables (see [integration_tables] below). *)
Definition fields (cols : list schema.Column) (n : nat) : list schema.Column :=
  take n (drop 1 cols).

Definition Card : Schema :=
  mkSchema "Card" (fields migrate.CardsColumns 3)
    [unique (From "owner" "User" "card")] [].
Definition Comment : Schema :=
  mkSchema "Comment" (fields migrate.CommentsColumns 3) [] [].
Definition FieldType : Schema :=
  mkSchema "FieldType" (fields migrate.FieldTypesColumns 17) [] [].
Definition File : Schema :=
  mkSchema "File" (fields migrate.FilesColumns 4)
    [unique (From "owner" "User" "files"); unique (From "type" "FileType" "files")]
    [mkIndex "name_size" false ["name"; "size"];
     mkIndex "name_user" true ["name"; "user"];
     mkIndex "name_owner_id_type_id" true ["name"; "owner_id"; "type_id"]].
Definition FileType : Schema :=
  mkSchema "FileType" (fields migrate.FileTypesColumns 1) [To "files" "File"] [].
Definition Group : Schema :=
  mkSchema "Group" (fields migrate.GroupsColumns 5)
    [To "files" "File"; To "blocked" "User"; From "users" "User" "groups";
     unique (To "info" "GroupInfo")] [].
Definition GroupInfo : Schema :=
  mkSchema "GroupInfo" (fields migrate.GroupInfosColumns 2)
    [From "groups" "Group" "info"] [].
Definition Item : Schema := mkSchema "Item" [] [] [].
Definition Node : Schema :=
  mkSchema "Node" (fields migrate.NodesColumns 1)
    [ToFrom "next" "Node" "prev" true true] [].
Definition Pet : Schema :=
  mkSchema "Pet" (fields migrate.PetsColumns 1)
    [unique (From "team" "User" "team"); unique (From "owner" "User" "pets")] [].
Definition User : Schema :=
  mkSchema "User" (fields migrate.UsersColumns 5)
    [unique (To "card" "Card"); To "pets" "Pet"; To "files" "File";
     To "groups" "Group"; To "friends" "User";
     ToFrom "following" "User" "followers" false false;
     unique (To "team" "Pet"); unique (To "spouse" "User");
     ToFrom "parent" "User" "children" true false] [].

Definition integration : list Schema :=
  [Card; Comment; FieldType; File; FileType; Group; GroupInfo; Item; Node;
   Pet; User].

(** A type with a many-to-many edge to itself, named by the plural of
    the type. *)
Definition Friend : Schema :=
  mkSchema "Friend" [] [To "friends" "Friend"] [].

(** The same with a declared inverse; the rename of the second column is
    the one of the inverse branch of [resolve]. *)
Definition Follower : Schema :=
  mkSchema "Follower" []
    [ToFrom "following" "Follower" "followers" false false] [].

(** The scenario of users, spouses and pets.  [spouse] is a unique edge
    of User to User declared with its own inverse.  [owner] is the edge of
    Pet to User and [pets] the edge of User to Pet, one of them the
    inverse of the other: [owner_inverse] says which, [owner_unique] and
    [pets_unique] are the uniqueness of the two. *)
Definition spouse : Edge := ToFrom "spouse" "User" "spouse" true true.

Definition household (owner_inverse owner_unique pets_unique : bool)
  : list Schema :=
  let set_unique (b : bool) (e : Edge) := if b then unique e else e in
  if owner_inverse then
    [mkSchema "User" [] [spouse; set_unique pets_unique (To "pets" "Pet")] [];
     mkSchema "Pet" [] [set_unique owner_unique (From "owner" "User" "pets")] []]
  else
    [mkSchema "User" []
       [spouse; set_unique pets_unique (From "pets" "Pet" "owner")] [];
     mkSchema "Pet" [] [set_unique owner_unique (To "owner" "User")] []].

End schemas.

(** ** Graphs as [NewGraph] leaves them
    Predicates on graphs and on results of graph construction, for the
    statements about [NewGraph] and [Tables]. *)

Module graph.

(** A result that, when it is a value, satisfies [P] and, when it is a
    failure, is one of the failures [E]. *)
Definition holds {A} (E : gen.graphError -> Prop) (P : A -> Prop)
  (r : gen.result A) : Prop :=
  match r with
  | gen.Ok a => P a
  | gen.Err e => E e
  end.

(** A failure that [expect], [check] or [resolve] reports, as opposed to a
    run-time panic on a nil pointer or an index out of range. *)
Definition reported (e : gen.graphError) : Prop :=
  match e with
  | gen.Panic _ => False
  | _ => True
  end.

(** The edge at a position of the graph. *)
Definition edgeAt (g : gen.Graph) (ti ei : nat) : option gen.Edge :=
  t ← gen.Nodes g !! ti; gen.Edges t !! ei.

(** A property of every edge of every node. *)
Definition allEdges (P : gen.Edge -> Prop) (g : gen.Graph) : Prop :=
  Forall (fun t => Forall P (gen.Edges t)) (gen.Nodes g).

(** An edge as [addEdges] makes it, before resolution, and a graph of such
    edges. *)
Definition skeleton (e : gen.Edge) : gen.Edge :=
  gen.mkEdge (gen.Name e) (gen.Type_ e) (gen.Owner e) (gen.Inverse e)
    (gen.Unique e) (gen.Optional e) (gen.StructTag e) false
    (gen.mkRelation gen.Unk "" []).

Definition skeletonType (t : gen.Type__) : gen.Type__ :=
  gen.mkType (gen.TypeName t) (gen.Fields t) (skeleton <$> gen.Edges t) [].

Definition skeletonGraph (g : gen.Graph) : gen.Graph :=
  gen.mkGraph (skeletonType <$> gen.Nodes g).

(** The pointers of an edge are nodes of a graph of [n] nodes. *)
Definition pointsInto (n : nat) (e : gen.Edge) : Prop :=
  gen.Type_ e < n ∧ gen.Owner e < n.

(** The relation of an edge is complete: a join table has two columns,
    any other resolved relation one column on the table of a node; an
    unresolved one has no column. *)
Definition relationOk `{gen.Naming} (names : list string) (e : gen.Edge) : Prop :=
  match gen.RelType (gen.Rel_ e) with
  | gen.Unk => gen.Columns (gen.Rel_ e) = []
  | gen.M2M => length (gen.Columns (gen.Rel_ e)) = 2
  | _ => length (gen.Columns (gen.Rel_ e)) = 1 ∧
         gen.RelTable (gen.Rel_ e) ∈ gen.Table <$> names
  end.

Definition resolvedEdge (e : gen.Edge) : Prop :=
  gen.RelType (gen.Rel_ e) ≠ gen.Unk.

(** An inverse edge of the node at position [ti] has a forward edge of the
    name it refers to on its target, that edge points back to the node, and
    the two are not both required. *)
Definition inverseOk (g : gen.Graph) (ti : nat) (e : gen.Edge) : Prop :=
  gen.IsInverse e = true →
  ∃ etype ri ref,
    gen.Nodes g !! gen.Type_ e = Some etype ∧
    gen.HasAssoc etype (gen.Inverse e) = Some (ri, ref) ∧
    gen.Type_ ref = ti ∧
    (gen.Optional e = true ∨ gen.Optional ref = true).

Definition resolvedAt (g : gen.Graph) (ti ei : nat) : Prop :=
  ∃ e, edgeAt g ti ei = Some e ∧ resolvedEdge e.

(** A graph [g'] that differs from [g] by relations only: the structure is
    the same, the relations are complete, and what was resolved in [g] is
    resolved in [g']. *)
Definition refines `{gen.Naming} (names : list string) (g g' : gen.Graph) : Prop :=
  skeletonGraph g' = skeletonGraph g ∧
  allEdges (relationOk names) g' ∧
  (∀ tj ej, resolvedAt g tj ej → resolvedAt g' tj ej).

(** The edges of the node at position [ti] of [g] are resolved in [g'],
    and those that are inverse edges have their counterpart. *)
Definition nodeResolved (g g' : gen.Graph) (ti : nat) : Prop :=
  ∀ ei e, edgeAt g ti ei = Some e →
    resolvedAt g' ti ei ∧ inverseOk (skeletonGraph g) ti (skeleton e).

(** The graph after [addEdges]: the nodes of the schemas, by name and
    fields, with edges that point to nodes and are not resolved yet, and
    without indexes. *)
Definition attached (names : list string) (fieldss : list (list schema.Column))
  (g : gen.Graph) : Prop :=
  gen.TypeName <$> gen.Nodes g = names ∧
  gen.Fields <$> gen.Nodes g = fieldss ∧
  allEdges (fun e => pointsInto (length names) e ∧ skeleton e = e) g ∧
  Forall (fun t => gen.Indexes t = []) (gen.Nodes g).

(** The node [addNode] makes of a schema. *)
Definition newNode (s : load.Schema) : gen.Type__ :=
  gen.mkType (load.SchemaName s) (load.Fields s) [] [].

(** A graph whose edges point to nodes and have complete relations. *)
Definition wellFormed `{gen.Naming} (g : gen.Graph) : Prop :=
  allEdges (fun e => pointsInto (length (gen.Nodes g)) e ∧
                     relationOk (gen.TypeName <$> gen.Nodes g) e) g.

(** The table of a node: named after the node, with the identifier as its
    primary key, and with the identifier and the fields of the node as its
    first columns. *)
Definition nodeTableOf `{gen.Naming} (nd : gen.Type__) (t : schema.Table) : Prop :=
  schema.TableName t = gen.Table (gen.TypeName nd) ∧
  schema.PrimaryKey t = [gen.IDColumn] ∧
  (gen.IDColumn :: gen.Fields nd) `prefix_of` schema.TableColumns t.

(** A foreign key of the table [t] that is sound: on columns of [t], to
    the identifier of the table of a node. *)
Definition keyOk `{gen.Naming} (g : gen.Graph) (t : schema.Table)
  (fk : schema.ForeignKey) : Prop :=
  schema.Columns fk ⊆ schema.TableColumns t ∧
  schema.RefTable fk ∈ gen.Table <$> (gen.TypeName <$> gen.Nodes g) ∧
  schema.RefColumns fk = [gen.IDColumn].

Definition keysOk `{gen.Naming} (g : gen.Graph) (all : list schema.Table) : Prop :=
  Forall (fun t => Forall (keyOk g t) (schema.ForeignKeys t)) all.

Definition nodeTablesOk `{gen.Naming} (g : gen.Graph) (all : list schema.Table)
  : Prop :=
  ∀ i nd, gen.Nodes g !! i = Some nd → ∃ t, all !! i = Some t ∧ nodeTableOf nd t.

Definition tablesOk `{gen.Naming} (g : gen.Graph) (all : list schema.Table) : Prop :=
  nodeTablesOk g all ∧ keysOk g all.

(** The map [tables] of [Tables]: it has the table of every node, and
    what it has are positions of nodes, by the name of their table. *)
Definition mapOn `{gen.Naming} (nodes : list gen.Type__) (tables : gmap string nat)
  : Prop :=
  (∀ nd, nd ∈ nodes → is_Some (tables !! gen.Table (gen.TypeName nd))) ∧
  (∀ name i, tables !! name = Some i →
     ∃ nd, nodes !! i = Some nd ∧ gen.Table (gen.TypeName nd) = name).

End graph.

(** ** Package ent: the rest of the builder *)

(** Calls that panic.  A call returns, or panics with the error value it
    was given ([panic(err)]), or with a nil pointer dereference. *)

Module panics.

Inductive cause : Type :=
| Error (e : Go.error)
| NilPointer.

Inductive outcome (A : Type) : Type :=
| Returns (a : A)
| Panics (c : cause).
Arguments Returns {A} a.
Arguments Panics {A} c.

End panics.

#[global] Instance outcome_bind : MBind panics.outcome :=
  fun A B k r =>
    match r with
    | panics.Returns a => k a
    | panics.Panics c => panics.Panics c
    end.

(** ** dialect/sql: a selection from a subquery
    Modelled from the spec: [sql.Select(fields...).From(s.As(name))] is not
    part of the sources at hand.  The query is the record of its parts: the
    selected columns, the subquery and the name it is given. *)

Module view.

Record Query : Type := mk {
  columns : list string;
  inner : sql.Selector;
  name : string;
}.

End view.

Module select.

(** Scanning into a slice of strings rests on the driver's answer to a
    query on a subquery and on [sql.ScanSlice], [Response.ReadVal],
    [Response.ReadValueMap] and [ValueMap.Decode], none of which is part of
    the sources at hand: they are parameters, and fail with a message of
    their own.  [ReadValueMap] stands for reading the value map and
    decoding it. *)
Class Scanner : Type := mkScanner {
  QueryView : dialect.Driver -> view.Query -> string + sql.Rows;
  ScanSlice : sql.Rows -> string + list string;
  ReadVal : gremlin.Response -> string + list string;
  ReadValueMap : gremlin.Response -> string + list string;
}.

End select.

(** [ItemSelect], for a destination that is a slice of strings. *)

Module ItemSelect.
Import panics select.

Record t : Type := mk {
  config_ : ent.config;
  fields : list string;
  sql_ : option sql.Selector;
  gremlin_ : option dsl.Traversal;
}.

Definition unsupported : Go.error := Go.ErrNew "ItemSelect: unsupported dialect".

(** [sqlQuery]: [is.sql.As(view)] is a method call on the pointer
    [is.sql]. *)
Definition sqlQuery (its : t) : outcome view.Query :=
  match sql_ its with
  | Some s => Returns (view.mk (fields its) s "item_view")
  | None => Panics NilPointer
  end.

Definition sqlScan `{Scanner} (its : t) : outcome (Go.result (list string)) :=
  q ← sqlQuery its;
  Returns (rows ← Go.lift (QueryView (ent.driver (config_ its)) q);
           Go.lift (ScanSlice rows)).

(** The traversal [gremlinScan] sends: the identifier, the values of
    one field, or the value map of the fields. *)
Definition gremlinScan_query (its : t) : outcome dsl.Traversal :=
  match gremlin_ its with
  | None => Panics NilPointer
  | Some v =>
      Returns
        (match fields its with
         | [f] =>
             if negb (bool_decide (f = item.FieldID))
             then v ++ [dsl.Custom "values" [f]]
             else v ++ [dsl.Custom "id" []]
         | fs => v ++ [dsl.Custom "valueMap" fs]
         end)
  end.

Definition gremlinScan `{Scanner} (its : t) : outcome (Go.result (list string)) :=
  traversal ← gremlinScan_query its;
  Returns (res ← Go.lift (dialect.Exec (ent.driver (config_ its)) traversal);
           if bool_decide (length (fields its) = 1)
           then Go.lift (ReadVal res)
           else Go.lift (ReadValueMap res)).

(** Scan applies the selector query and scans the result into the given
    value. *)
Definition Scan `{Scanner} (its : t) : outcome (Go.result (list string)) :=
  match dialect.Dialect_ (ent.driver (config_ its)) with
  | dialect.MySQL | dialect.SQLite => sqlScan its
  | dialect.Gremlin => gremlinScan its
  | _ => Returns (Go.Err unsupported)
  end.

(** Strings returns list of strings from selector.  It is only allowed
    when selecting one field. *)
Definition Strings `{Scanner} (its : t) : outcome (Go.result (list string)) :=
  if bool_decide (1 < length (fields its))
  then Returns
         (Go.Err (Go.ErrNew
            "ent: ItemSelect.Strings is not achievable when selecting more than 1 field"))
  else Scan its.

End ItemSelect.

(** The methods of [ItemQuery] that go through [ItemSelect], and the
    panicking variants. *)

Module ItemQueryX.
Import panics select ent ent.ItemQuery.

(** Select one or more fields from the given query.  The selector
    [sqlQuery] returns is the one [iq.sql] points to when that is set. *)
Definition Select (field : string) (fields : list string) (iq : ItemQuery.t)
  : ItemSelect.t * ItemQuery.t :=
  let fields := [field] ++ fields in
  match dialect.Dialect_ (driver (config_ iq)) with
  | dialect.MySQL | dialect.SQLite =>
      let selector := sqlQuery iq in
      (ItemSelect.mk (config_ iq) fields (Some selector) None, aliased iq selector)
  | dialect.Gremlin =>
      (ItemSelect.mk (config_ iq) fields None (Some (gremlinQuery iq)), iq)
  | _ => (ItemSelect.mk (config_ iq) fields None None, iq)
  end.

(** IDs executes the query and returns a list of Item ids. *)
Definition IDs `{Scanner} (iq : ItemQuery.t)
  : outcome (Go.result (list string)) * ItemQuery.t :=
  let '(its, iq') := Select item.FieldID [] iq in
  (ItemSelect.Scan its, iq').

(** FirstID returns the first Item id in the query. *)
Definition FirstID `{Scanner} (iq : ItemQuery.t)
  : outcome (Go.result string) * ItemQuery.t :=
  let '(r, iq') := IDs (Limit 1 iq) in
  (ids ← r;
   Returns (match ids with
            | Go.Err err => Go.Err err
            | Go.Ok [] => Go.Err (Go.ErrNotFound item.Label)
            | Go.Ok (id :: _) => Go.Ok id
            end),
   iq').

(** OnlyID returns the only Item id in the query. *)
Definition OnlyID `{Scanner} (iq : ItemQuery.t)
  : outcome (Go.result string) * ItemQuery.t :=
  let '(r, iq') := IDs (Limit 2 iq) in
  (ids ← r;
   Returns (match ids with
            | Go.Err err => Go.Err err
            | Go.Ok [id] => Go.Ok id
            | Go.Ok [] => Go.Err (Go.ErrNotFound item.Label)
            | Go.Ok _ => Go.Err (Go.ErrNotSingular item.Label)
            end),
   iq').

(** Modelled from the spec: [IsNotFound] is not part of the sources at
    hand; it tells whether an error is an [*ErrNotFound]. *)
Definition IsNotFound (e : Go.error) : bool :=
  match e with
  | Go.ErrNotFound _ => true
  | _ => false
  end.

(** FirstX is like First, but panics if an error occurs.  The entity is
    a pointer: [None] is nil. *)
Definition FirstX `{Decoder} (iq : ItemQuery.t) : outcome (option Item) * ItemQuery.t :=
  let '(r, iq') := First iq in
  (match r with
   | Go.Err err =>
       if negb (IsNotFound err) then Panics (Error err) else Returns None
   | Go.Ok i => Returns (Some i)
   end, iq').

(** OnlyX is like Only, but panics if an error occurs. *)
Definition OnlyX `{Decoder} (iq : ItemQuery.t) : outcome Item * ItemQuery.t :=
  let '(r, iq') := Only iq in
  (match r with
   | Go.Err err => Panics (Error err)
   | Go.Ok i => Returns i
   end, iq').

(** AllX, CountX and ExistX are like All, Count and Exist, but panic if
    an error occurs. *)
Definition AllX `{Decoder} (iq : ItemQuery.t) : outcome (list Item) * ItemQuery.t :=
  let '(r, iq') := All iq in
  (match r with
   | Go.Err err => Panics (Error err)
   | Go.Ok its => Returns its
   end, iq').

Definition CountX (iq : ItemQuery.t) : outcome Z * ItemQuery.t :=
  let '(r, iq') := Count iq in
  (match r with
   | Go.Err err => Panics (Error err)
   | Go.Ok n => Returns n
   end, iq').

Definition ExistX (iq : ItemQuery.t) : outcome bool * ItemQuery.t :=
  let '(r, iq') := Exist iq in
  (match r with
   | Go.Err err => Panics (Error err)
   | Go.Ok b => Returns b
   end, iq').

(** *** What the statements below are about *)

(** Two builders that differ at most in the selector [iq.sql] points
    to. *)
Definition sameButSql (iq iq' : ItemQuery.t) : Prop :=
  config_ iq' = config_ iq ∧ limit iq' = limit iq ∧ offset iq' = offset iq ∧
  order iq' = order iq ∧ unique iq' = unique iq ∧
  predicates iq' = predicates iq ∧ gremlin_ iq' = gremlin_ iq.

(** The relational dialects. *)
Definition relational (d : dialect.Dialect) : bool :=
  match d with
  | dialect.MySQL | dialect.SQLite => true
  | _ => false
  end.

(** An error of the package's own: not found, not singular. *)
Definition own (e : Go.error) : bool :=
  match e with
  | Go.ErrNotFound _ | Go.ErrNotSingular _ => true
  | _ => false
  end.

End ItemQueryX.

Module sample_select.

(** A scanner for the sample drivers: a query on a subquery is answered
    like the subquery, rows and results are read as strings. *)
#[global] Instance scanner : select.Scanner :=
  select.mkScanner
    (fun d q => dialect.Query d (view.inner q))
    (fun rows => inr (omap (fun r => if r is [sql.VString s] then Some s else None) rows))
    (fun res => inr (omap (fun x => if x is gremlin.RVertex v then Some v else None) res))
    (fun _ => inl "gremlin: read value map").

End sample_select.

(** ** What the schemas declare
    An edge by its name, the name of the edge it is the inverse of (empty
    for a forward edge) and the name of the type it points to: as a
    declaration stands for it, and as the graph has it. *)

Module decl.

Definition edges (d : load.Edge) : list (string * string * option string) :=
  if negb (load.Inverse d) then [(load.Name d, "", Some (load.Type_ d))]
  else
    match load.Ref d with
    | None => [(load.Name d, load.RefName d, Some (load.Type_ d))]
    | Some ref =>
        [(load.Name d, load.Name ref, Some (load.Type_ d));
         (load.Name ref, "", Some (load.Type_ d))]
    end.

Definition ofSchema (s : load.Schema) : list (string * string * option string) :=
  load.Edges s ≫= edges.

Definition ofEdge (names : list string) (e : gen.Edge)
  : string * string * option string :=
  (gen.Name e, gen.Inverse e, names !! gen.Type_ e).

Definition ofType (names : list string) (t : gen.Type__)
  : list (string * string * option string) :=
  ofEdge names <$> gen.Edges t.

End decl.

(** ** The two sides of a relation *)

Module pairing.

(** The kind of a relation seen from the other side. *)
Definition mirror (k : gen.Rel) : gen.Rel :=
  match k with
  | gen.O2M => gen.M2O
  | gen.M2O => gen.O2M
  | k => k
  end.

(** The relation of the forward edge [ref] is the relation of the inverse
    edge [e] seen from the other side: same table, same columns, mirrored
    kind. *)
Definition agree (e ref : gen.Edge) : Prop :=
  gen.RelTable (gen.Rel_ ref) = gen.RelTable (gen.Rel_ e) ∧
  gen.Columns (gen.Rel_ ref) = gen.Columns (gen.Rel_ e) ∧
  gen.RelType (gen.Rel_ ref) = mirror (gen.RelType (gen.Rel_ e)).

(** The position of the forward edge an inverse edge refers to: the edge
    [HasAssoc] finds on the type the inverse edge points to. *)
Definition partner (g : gen.Graph) (e : gen.Edge) : option (nat * nat) :=
  etype ← gen.Nodes g !! gen.Type_ e;
  '(ri, _) ← gen.HasAssoc etype (gen.Inverse e);
  Some (gen.Type_ e, ri).

(** No two inverse edges of the graph refer to the same forward edge. *)
Definition unshared (g : gen.Graph) : Prop :=
  ∀ ti ei e tj ej e' q,
    graph.edgeAt g ti ei = Some e → graph.edgeAt g tj ej = Some e' →
    gen.IsInverse e = true → gen.IsInverse e' = true →
    partner g e = Some q → partner g e' = Some q →
    (ti, ei) = (tj, ej).

(** The inverse edges at the positions [D] are resolved and agree with
    their forward edges. *)
Definition paired (D : nat -> nat -> Prop) (g : gen.Graph) : Prop :=
  ∀ ti ei e,
    D ti ei → graph.edgeAt g ti ei = Some e → gen.IsInverse e = true →
    gen.RelType (gen.Rel_ e) ≠ gen.Unk ∧
    ∀ tq rq, partner g e = Some (tq, rq) →
      ∃ ref, graph.edgeAt g tq rq = Some ref ∧ agree e ref.

End pairing.

(** ** The rows a query selects
    First and Only are stated on the rows the backend returns, and, for a
    relational engine, on the rows the query selects. *)

#[global] Instance Value_eq_dec : EqDecision sql.Value.
Proof. solve_decision. Defined.

Module selection.
Import ent ent.ItemQuery.


(** The rows a selector selects among the rows that match: without
    repetitions under DISTINCT, from the offset on. *)
Definition selected (s : sql.Selector) (rows : sql.Rows) : sql.Rows :=
  drop (Z.to_nat (default 0%Z (sql.offset s)))
       (if sql.distinct s then remove_dups rows else rows).

(** The rows it returns: the selected rows, up to the limit. *)
Definition page (s : sql.Selector) (rows : sql.Rows) : sql.Rows :=
  let rows := selected s rows in
  if sql.limit s is Some n then take (Z.to_nat n) rows else rows.






End selection.

(** A relational engine over three rows that match, two of them equal,
    and a traversal server on which the items of the users are reached
    through three edges, two of them to the same item. *)

Module sample_dup.

Definition rows : sql.Rows :=
  [[sql.VString "1"]; [sql.VString "1"]; [sql.VString "2"]].

Definition query (s : sql.Selector) : string + sql.Rows :=
  inr (selection.page s rows).

Definition step (xs : list gremlin.Result) (s : dsl.Step) : list gremlin.Result :=
  match s with
  | dsl.Custom name _ =>
      if bool_decide (name = "out")
      then [gremlin.RVertex "1"; gremlin.RVertex "1"; gremlin.RVertex "2"]
      else xs
  | _ => sample.step xs s
  end.

Definition exec (t : dsl.Traversal) : string + gremlin.Response :=
  inr (foldl step [] t).

Definition mysql : dialect.Driver := dialect.mkDriver dialect.MySQL query exec.
Definition tinkerpop : dialect.Driver := dialect.mkDriver dialect.Gremlin query exec.

(** [client.Item.Query()] on the relational engine. *)
Definition items : ent.ItemQuery.t :=
  ent.ItemQuery.mk (ent.mkConfig mysql) None None [] [] [] None None.


End sample_dup.

(** ** [FromRows], with its receiver
    [Cars.FromRows] appends to the slice it is called on, one entity for
    each row, and returns at the first row that does not scan: the entities
    of the rows before it stay in the slice.  The result is the error, if
    any, and the slice after the call. *)

Module Items.
Import ent.

Fixpoint FromRows `{Decoder} (c : list Item) (rows : sql.Rows)
  : option Go.error * list Item :=
  match rows with
  | [] => (None, c)
  | r :: rows' =>
      match ScanID r with
      | inl msg => (Some (Go.ErrBackend msg), c)
      | inr id => FromRows (c ++ [mkItem None id]) rows'
      end
  end.

(** [var is Items; if err := is.FromRows(rows); err != nil { return nil,
    err }]: the call of [sqlAll], on a nil slice that is dropped on an
    error. *)
Definition called `{Decoder} (rows : sql.Rows) : Go.result (list Item) :=
  match FromRows [] rows with
  | (Some err, _) => Go.Err err
  | (None, its) => Go.Ok its
  end.

End Items.

(* ===================================================================== *)
(** * Part II. Properties *)
(* ===================================================================== *)

(** ** Results of Go calls *)

Lemma lift_not_own {A} (r : string + A) (e : Go.error) :
  Go.lift r = Go.Err e → ∃ msg, e = Go.ErrBackend msg.
Proof. destruct r; simpl; intros [= <-]; eauto. Qed.

(** ** The compiled queries *)

Section compiled.
Import ent ent.ItemQuery.
Implicit Types (iq : ItemQuery.t).

Lemma sqlQuery_limit_set iq n :
  limit iq = Some n → sql.limit (sqlQuery iq) = Some n.
Proof. unfold sqlQuery. intros ->. reflexivity. Qed.

Lemma sqlQuery_offset_only iq off :
  offset iq = Some off → limit iq = None →
  sql.limit (sqlQuery iq) = Some Go.MaxInt32 ∧
  sql.offset (sqlQuery iq) = Some off.
Proof. unfold sqlQuery. intros -> ->. split; reflexivity. Qed.

End compiled.

Section examples.
Import ent ent.ItemQuery sample.

Example count_sql : fst (Count (items mysql)) = Go.Ok 3%Z.
Proof. reflexivity. Qed.

Example count_sql_query :
  sql.columns (sqlCount_selector (items mysql)) = ["COUNT(DISTINCT items.id)"].
Proof. reflexivity. Qed.

Example count_gremlin : fst (Count (items tinkerpop)) = Go.Ok 2%Z.
Proof. reflexivity. Qed.

Example count_gremlin_unique : fst (Count (items_unique tinkerpop)) = Go.Ok 3%Z.
Proof. reflexivity. Qed.

Example first_sql : fst (First (items mysql)) = Go.Ok (mkItem (Some (mkConfig mysql)) "1").
Proof. reflexivity. Qed.

Example only_sql : fst (Only (items mysql)) = Go.Err (Go.ErrNotSingular "item").
Proof. reflexivity. Qed.

Example only_sql_offset :
  fst (Only (Offset 2 (items mysql))) = Go.Ok (mkItem (Some (mkConfig mysql)) "3").
Proof. reflexivity. Qed.

Example first_none :
  fst (First (Offset 3 (items mysql))) = Go.Err (Go.ErrNotFound "item").
Proof. reflexivity. Qed.

Example offset_gremlin :
  gremlinQuery (Offset 5 (items tinkerpop)) =
    [dsl.V; dsl.HasLabel "item"; dsl.Range 5 2147483647; dsl.Dedup].
Proof. reflexivity. Qed.

End examples.

(** ** Count, Exist *)

Section counting.
Import ent ent.ItemQuery.
Implicit Types (iq : ItemQuery.t).

Lemma sqlCount_selector_from iq :
  sql.from (sqlCount_selector iq) = sql.from (sqlQuery iq).
Proof. reflexivity. Qed.

Lemma count_columns_nonempty iq : count_columns iq ≠ [].
Proof.
  unfold count_columns. destruct (unique iq) eqn:E; [discriminate | ].
  rewrite <- E. congruence.
Qed.

Lemma DistinctOf_nonempty (cs : list string) :
  cs ≠ [] → sql.DistinctOf cs = "DISTINCT " +:+ sql.comma cs.
Proof. destruct cs; [congruence | reflexivity]. Qed.

(** On the relational backend the count is always a COUNT(DISTINCT ...)
    over the identifier or over the configured unique columns. *)
Lemma sqlCount_distinct iq :
  sql_distinct_count (count_columns iq) (sqlCount_selector iq) = true.
Proof.
  unfold sql_distinct_count. apply bool_decide_eq_true.
  rewrite sqlCount_selector_from.
  unfold sqlCount_selector, sql.Count, sql.Select, sql.CountExpr, sql.Columns.
  cbn [sql.columns]. fold (count_columns iq).
  pose proof (count_columns_nonempty iq) as Hne.
  assert (Hq : sql.qualify (sql.from (sqlQuery iq)) (count_columns iq) ≠ []).
  { unfold sql.qualify. destruct (count_columns iq); [congruence | discriminate]. }
  rewrite (DistinctOf_nonempty _ Hq). reflexivity.
Qed.

Lemma gremlin_distinct_count_snoc (t : dsl.Traversal) :
  gremlin_distinct_count (t ++ [dsl.Dedup; dsl.Count]) = true.
Proof.
  unfold gremlin_distinct_count. rewrite reverse_app. reflexivity.
Qed.

Lemma gremlinCount_no_override iq :
  unique iq = [] → gremlin_distinct_count (gremlinCount_query iq) = true.
Proof.
  intros Hu. unfold gremlinCount_query, gremlinQuery. rewrite Hu.
  rewrite <- app_assoc. apply gremlin_distinct_count_snoc.
Qed.

Lemma gremlinQuery_override iq :
  unique iq ≠ [] → gremlinQuery iq = gremlinPaged iq.
Proof. unfold gremlinQuery. destruct (unique iq); congruence. Qed.

End counting.

(** C1, as stated: on every builder state the count is a distinct count on
    both backends.  It fails on the traversal backend for a builder with a
    unique-column override: the traversal sent is
    [g.V().hasLabel("item").count()], with no deduplication step. *)
Lemma count_distinct_both_backends_fails :
  ¬ (∀ iq : ent.ItemQuery.t,
       ent.ItemQuery.sql_distinct_count (ent.ItemQuery.count_columns iq)
         (ent.ItemQuery.sqlCount_selector iq) = true ∧
       ent.ItemQuery.gremlin_distinct_count (ent.ItemQuery.gremlinCount_query iq) = true).
Proof.
  intros H. destruct (H (sample.items_unique sample.tinkerpop)) as [_ Hg].
  vm_compute in Hg. discriminate.
Qed.

(** C1, amended: on the relational backend the count is, for every builder
    state, COUNT(DISTINCT ...) over the identifier column or over the
    configured unique columns; on the traversal backend the count follows a
    deduplication step when no unique columns are configured, and is taken
    on the traversal as compiled, with no deduplication step added, when
    some are. *)
Theorem count_distinct (iq : ent.ItemQuery.t) :
  ent.ItemQuery.sql_distinct_count (ent.ItemQuery.count_columns iq)
    (ent.ItemQuery.sqlCount_selector iq) = true ∧
  (ent.ItemQuery.unique iq = [] →
     ent.ItemQuery.gremlin_distinct_count (ent.ItemQuery.gremlinCount_query iq) = true) ∧
  (ent.ItemQuery.unique iq ≠ [] →
     ent.ItemQuery.gremlinCount_query iq =
       ent.ItemQuery.gremlinPaged iq ++ [dsl.Count]).
Proof.
  split; [apply sqlCount_distinct | split].
  - apply gremlinCount_no_override.
  - intros Hu. unfold ent.ItemQuery.gremlinCount_query.
    by rewrite gremlinQuery_override.
Qed.

Lemma count_distinct_witness :
  ent.ItemQuery.gremlin_distinct_count
    (ent.ItemQuery.gremlinCount_query (sample.items sample.tinkerpop)) = true ∧
  ent.ItemQuery.gremlinCount_query (sample.items_unique sample.tinkerpop) =
    [dsl.V; dsl.HasLabel "item"; dsl.Count].
Proof.
  split.
  - apply (count_distinct (sample.items sample.tinkerpop)). reflexivity.
  - apply (count_distinct (sample.items_unique sample.tinkerpop)). discriminate.
Defined.

Section existence.
Import ent ent.ItemQuery.
Implicit Types (iq : ItemQuery.t).

Lemma sqlExist_sqlCount iq :
  fst (sqlExist iq) =
    match fst (sqlCount iq) with
    | Go.Ok n => Go.Ok (0 <? n)%Z
    | Go.Err e => Go.Err (Go.ErrWrap "ent: check existence" e)
    end.
Proof. unfold sqlExist. destruct (sqlCount iq) as [[n | e] iq']; reflexivity. Qed.

Lemma gremlinExist_gremlinCount iq :
  gremlin_server (dialect.Exec (driver (config_ iq))) →
  match fst (gremlinCount iq) with
  | Go.Ok n => fst (gremlinExist iq) = Go.Ok (0 <? n)%Z
  | Go.Err _ => ∃ e, fst (gremlinExist iq) = Go.Err e
  end.
Proof.
  intros Hsrv. destruct (Hsrv (gremlinQuery iq)) as [r [Hc He]].
  unfold gremlinCount, gremlinExist, gremlinCount_query, gremlinExist_query.
  cbn [fst]. rewrite Hc, He. destruct r as [msg | xs]; cbn.
  - eauto.
  - f_equal. destruct xs; reflexivity.
Qed.

(** Exist against Count on one builder state, result by result. *)
Lemma Exist_Count iq :
  (dialect.Dialect_ (driver (config_ iq)) = dialect.Gremlin →
   gremlin_server (dialect.Exec (driver (config_ iq)))) →
  match fst (Count iq) with
  | Go.Ok n => fst (Exist iq) = Go.Ok (0 <? n)%Z
  | Go.Err _ => ∃ e, fst (Exist iq) = Go.Err e
  end.
Proof.
  intros Hsrv. unfold Count, Exist.
  destruct (dialect.Dialect_ (driver (config_ iq))) eqn:Hd.
  1,2: rewrite sqlExist_sqlCount; destruct (fst (sqlCount iq)); eauto.
  - apply gremlinExist_gremlinCount; auto.
  - cbn. eauto.
Qed.

End existence.

(** C2: on every builder state, on the relational dialects and on a
    Gremlin server that answers count() and hasNext() by their meaning,
    Exist returns true exactly when Count on the same builder state returns
    a number greater than 0; there is no case apart for builders without
    predicates. *)
Theorem exist_iff_count_positive (iq : ent.ItemQuery.t) :
  (dialect.Dialect_ (ent.driver (ent.ItemQuery.config_ iq)) = dialect.Gremlin →
   ent.ItemQuery.gremlin_server (dialect.Exec (ent.driver (ent.ItemQuery.config_ iq)))) →
  fst (ent.ItemQuery.Exist iq) = Go.Ok true ↔
  ∃ n, fst (ent.ItemQuery.Count iq) = Go.Ok n ∧ (0 < n)%Z.
Proof.
  intros Hsrv. pose proof (Exist_Count iq Hsrv) as H.
  destruct (fst (ent.ItemQuery.Count iq)) as [n | e].
  - rewrite H. split.
    + intros [= Hn]. exists n. split; [reflexivity | lia].
    + intros (m & [= <-] & Hm). f_equal. lia.
  - destruct H as [e' ->]. split; [discriminate | ].
    intros (m & Hm & _). discriminate.
Qed.

Lemma sample_exec_server : ent.ItemQuery.gremlin_server sample.exec.
Proof.
  intros t. exists (inr (foldl sample.step [] t)).
  unfold sample.exec. rewrite !foldl_app. split; reflexivity.
Qed.

Lemma exist_iff_count_positive_witness :
  fst (ent.ItemQuery.Exist (sample.items sample.tinkerpop)) = Go.Ok true ↔
  ∃ n, fst (ent.ItemQuery.Count (sample.items sample.tinkerpop)) = Go.Ok n ∧ (0 < n)%Z.
Proof.
  apply (exist_iff_count_positive (sample.items sample.tinkerpop)).
  intros _. apply sample_exec_server.
Defined.

(** ** First, Only *)

Section fetching.
Import ent ent.ItemQuery.
Context `{Decoder}.
Implicit Types (iq : ItemQuery.t).

(** The errors of [All] are never the package's own NotFound or
    NotSingular. *)
Lemma Items_FromRows_err rows e :
  Items_FromRows rows = Go.Err e → ∃ msg, e = Go.ErrBackend msg.
Proof.
  revert e. induction rows as [| r rows IH]; intros e; cbn; [discriminate | ].
  destruct (ScanID r) as [msg | id]; cbn.
  - intros [= <-]. eauto.
  - destruct (Items_FromRows rows) as [its | e']; cbn; [discriminate | ].
    intros [= <-]. eauto.
Qed.

Lemma sqlAll_err iq e : fst (sqlAll iq) = Go.Err e → foreign e.
Proof.
  unfold sqlAll. cbn [fst].
  destruct (dialect.Query _ _) as [msg | rows]; cbn.
  - intros [= <-]. left. eauto.
  - destruct (Items_FromRows rows) as [its | e'] eqn:E; cbn; [discriminate | ].
    intros [= <-]. left. eapply Items_FromRows_err, E.
Qed.

Lemma gremlinAll_err iq e : fst (gremlinAll iq) = Go.Err e → foreign e.
Proof.
  unfold gremlinAll, Items_FromResponse. cbn [fst].
  destruct (dialect.Exec _ _) as [msg | res]; cbn.
  - intros [= <-]. left. eauto.
  - destruct (DecodeIDs res) as [msg | ids]; cbn; [ | discriminate].
    intros [= <-]. left. eauto.
Qed.

Lemma All_err iq e : fst (All iq) = Go.Err e → foreign e.
Proof.
  unfold All. destruct (dialect.Dialect_ _).
  1,2: apply sqlAll_err.
  - apply gremlinAll_err.
  - cbn. intros [= <-]. by right.
Qed.

Lemma foreign_not_found e label : foreign e → e ≠ Go.ErrNotFound label.
Proof. intros [[msg ->] | ->]; discriminate. Qed.

Lemma foreign_not_singular e label : foreign e → e ≠ Go.ErrNotSingular label.
Proof. intros [[msg ->] | ->]; discriminate. Qed.

(** [First] in terms of the rows [All] returns under limit 1. *)
Lemma First_All iq :
  fst (First iq) =
    match fst (All (Limit 1 iq)) with
    | Go.Err err => Go.Err err
    | Go.Ok [] => Go.Err (Go.ErrNotFound item.Label)
    | Go.Ok (i :: _) => Go.Ok i
    end.
Proof. unfold First. destruct (All (Limit 1 iq)) as [r iq']. reflexivity. Qed.

Lemma Only_All iq :
  fst (Only iq) =
    match fst (All (Limit 2 iq)) with
    | Go.Err err => Go.Err err
    | Go.Ok [i] => Go.Ok i
    | Go.Ok [] => Go.Err (Go.ErrNotFound item.Label)
    | Go.Ok _ => Go.Err (Go.ErrNotSingular item.Label)
    end.
Proof. unfold Only. destruct (All (Limit 2 iq)) as [r iq']. reflexivity. Qed.

(** The state of the builder after [All]: only [iq.sql] can differ. *)
Lemma All_limit iq : limit (snd (All iq)) = limit iq.
Proof.
  unfold All, sqlAll, gremlinAll, aliased.
  destruct (dialect.Dialect_ _); cbn [snd]; try reflexivity;
    destruct (sql_ iq); reflexivity.
Qed.

Lemma All_offset iq : offset (snd (All iq)) = offset iq.
Proof.
  unfold All, sqlAll, gremlinAll, aliased.
  destruct (dialect.Dialect_ _); cbn [snd]; try reflexivity;
    destruct (sql_ iq); reflexivity.
Qed.

Lemma First_state iq : snd (First iq) = snd (All (Limit 1 iq)).
Proof. unfold First. destruct (All (Limit 1 iq)). reflexivity. Qed.

Lemma Only_state iq : snd (Only iq) = snd (All (Limit 2 iq)).
Proof. unfold Only. destruct (All (Limit 2 iq)). reflexivity. Qed.

(** The bound in the compiled queries of a builder with a limit. *)
Lemma sqlAll_selector_limit iq n :
  limit iq = Some n → sql.limit (sqlAll_selector iq) = Some n.
Proof.
  intros Hl. unfold sqlAll_selector.
  destruct (unique iq); cbn; by apply sqlQuery_limit_set.
Qed.

Lemma gremlinPaged_limit iq n :
  limit iq = Some n → ∃ pre, gremlinPaged iq = pre ++ [gremlin_bound iq n].
Proof.
  intros Hl. unfold gremlinPaged, gremlin_bound. rewrite Hl.
  destruct (offset iq); eauto.
Qed.

Lemma gremlinQuery_limit iq n :
  limit iq = Some n → gremlin_bound iq n ∈ gremlinQuery iq.
Proof.
  intros Hl. destruct (gremlinPaged_limit iq n Hl) as [pre Hp].
  unfold gremlinQuery. rewrite Hp.
  destruct (unique iq); rewrite ?elem_of_app, ?list_elem_of_singleton; auto.
Qed.

End fetching.

(** *** The rows behind First and Only *)

Section selecting.
Import ent ent.ItemQuery selection.
Context `{Decoder}.
Implicit Types (iq : ItemQuery.t).









End selecting.





(** ** Offset without limit, deduplication *)

Section paging.
Import ent ent.ItemQuery.
Implicit Types (iq : ItemQuery.t).

Lemma sqlAll_selector_paging iq :
  sql.limit (sqlAll_selector iq) = sql.limit (sqlQuery iq) ∧
  sql.offset (sqlAll_selector iq) = sql.offset (sqlQuery iq).
Proof. unfold sqlAll_selector. destruct (unique iq); split; reflexivity. Qed.

Lemma sqlCount_selector_paging iq :
  sql.limit (sqlCount_selector iq) = sql.limit (sqlQuery iq) ∧
  sql.offset (sqlCount_selector iq) = sql.offset (sqlQuery iq).
Proof. split; reflexivity. Qed.

Lemma gremlinPaged_offset_only iq off :
  offset iq = Some off → limit iq = None →
  ∃ pre, gremlinPaged iq = pre ++ [dsl.Range off Go.MaxInt32].
Proof. unfold gremlinPaged. intros -> ->. eauto. Qed.

Lemma dedups_app (t1 t2 : dsl.Traversal) :
  dsl.dedups (t1 ++ t2) = dsl.dedups t1 + dsl.dedups t2.
Proof. unfold dsl.dedups. by rewrite filter_app, length_app. Qed.

End paging.

(** C4: a builder with an offset and no limit compiles, on the relational
    backend, to a selector whose limit clause is the largest limit,
    [math.MaxInt32], next to the offset, in every query handed to the driver;
    on the traversal backend to a range from the offset up to the same
    number. *)
Theorem offset_without_limit (iq : ent.ItemQuery.t) (off : Z) :
  ent.ItemQuery.offset iq = Some off →
  ent.ItemQuery.limit iq = None →
  (sql.limit (ent.ItemQuery.sqlQuery iq) = Some Go.MaxInt32 ∧
   sql.offset (ent.ItemQuery.sqlQuery iq) = Some off) ∧
  (sql.limit (ent.ItemQuery.sqlAll_selector iq) = Some Go.MaxInt32 ∧
   sql.limit (ent.ItemQuery.sqlCount_selector iq) = Some Go.MaxInt32) ∧
  (∃ pre, ent.ItemQuery.gremlinPaged iq = pre ++ [dsl.Range off Go.MaxInt32]) ∧
  dsl.Range off Go.MaxInt32 ∈ ent.ItemQuery.gremlinQuery iq.
Proof.
  intros Ho Hl.
  destruct (sqlQuery_offset_only iq off Ho Hl) as [H1 H2].
  destruct (gremlinPaged_offset_only iq off Ho Hl) as [pre Hp].
  repeat split; try done.
  - by rewrite (proj1 (sqlAll_selector_paging iq)).
  - eauto.
  - unfold ent.ItemQuery.gremlinQuery. rewrite Hp.
    destruct (ent.ItemQuery.unique iq);
      rewrite ?elem_of_app, ?list_elem_of_singleton; auto.
Qed.

Lemma offset_without_limit_witness :
  sql.limit (ent.ItemQuery.sqlQuery (ent.ItemQuery.Offset 5 (sample.items sample.mysql)))
    = Some 2147483647%Z ∧
  dsl.Range 5 2147483647
    ∈ ent.ItemQuery.gremlinQuery (ent.ItemQuery.Offset 5 (sample.items sample.tinkerpop)).
Proof.
  split.
  - apply (offset_without_limit (ent.ItemQuery.Offset 5 (sample.items sample.mysql)) 5);
      reflexivity.
  - apply (offset_without_limit (ent.ItemQuery.Offset 5 (sample.items sample.tinkerpop)) 5);
      reflexivity.
Defined.

(** C5: a builder without unique columns compiles to a deduplicating
    query on both backends, SELECT DISTINCT in [sqlAll] and a final dedup
    step in [gremlinQuery]; with unique columns configured the selector is
    the one [sqlQuery] built, with no DISTINCT added, and the traversal gets
    no dedup step added. *)
Theorem dedup_by_default (iq : ent.ItemQuery.t) :
  (ent.ItemQuery.unique iq = [] →
     sql.distinct (ent.ItemQuery.sqlAll_selector iq) = true ∧
     ent.ItemQuery.gremlinQuery iq = ent.ItemQuery.gremlinPaged iq ++ [dsl.Dedup] ∧
     dsl.dedups (ent.ItemQuery.gremlinQuery iq) =
       S (dsl.dedups (ent.ItemQuery.gremlinPaged iq))) ∧
  (ent.ItemQuery.unique iq ≠ [] →
     ent.ItemQuery.sqlAll_selector iq = ent.ItemQuery.sqlQuery iq ∧
     ent.ItemQuery.gremlinQuery iq = ent.ItemQuery.gremlinPaged iq ∧
     dsl.dedups (ent.ItemQuery.gremlinQuery iq) =
       dsl.dedups (ent.ItemQuery.gremlinPaged iq)).
Proof.
  unfold ent.ItemQuery.sqlAll_selector, ent.ItemQuery.gremlinQuery.
  split; intros Hu.
  - rewrite Hu. repeat split. rewrite dedups_app.
    change (dsl.dedups [dsl.Dedup]) with 1. lia.
  - destruct (ent.ItemQuery.unique iq); [congruence | done].
Qed.

Lemma dedup_by_default_witness :
  sql.distinct (ent.ItemQuery.sqlAll_selector (sample.items sample.mysql)) = true ∧
  sql.distinct (ent.ItemQuery.sqlAll_selector (sample.items_unique sample.mysql)) = false ∧
  dsl.dedups (ent.ItemQuery.gremlinQuery (sample.items sample.tinkerpop)) = 1 ∧
  dsl.dedups (ent.ItemQuery.gremlinQuery (sample.items_unique sample.tinkerpop)) = 0.
Proof.
  pose proof (dedup_by_default (sample.items sample.mysql)) as [H1 _].
  pose proof (dedup_by_default (sample.items_unique sample.mysql)) as [_ H2].
  pose proof (dedup_by_default (sample.items sample.tinkerpop)) as [H3 _].
  pose proof (dedup_by_default (sample.items_unique sample.tinkerpop)) as [_ H4].
  split; [apply H1; reflexivity | ].
  split; [destruct H2 as [-> _]; [discriminate | reflexivity] | ].
  split; [destruct H3 as (_ & _ & ->); reflexivity | ].
  destruct H4 as (_ & _ & ->); [discriminate | reflexivity].
Defined.

(** C10: First and Only change the builder they are called on: after the
    call its limit is 1 (2 for Only), whatever it was before, so the queries
    compiled from it afterwards carry that bound on both backends. *)
Theorem first_only_set_limit `{ent.Decoder} (iq : ent.ItemQuery.t) :
  let after_first := snd (ent.ItemQuery.First iq) in
  let after_only := snd (ent.ItemQuery.Only iq) in
  (ent.ItemQuery.limit after_first = Some 1%Z ∧
   sql.limit (ent.ItemQuery.sqlQuery after_first) = Some 1%Z ∧
   sql.limit (ent.ItemQuery.sqlAll_selector after_first) = Some 1%Z ∧
   ent.ItemQuery.gremlin_bound iq 1 ∈ ent.ItemQuery.gremlinQuery after_first) ∧
  (ent.ItemQuery.limit after_only = Some 2%Z ∧
   sql.limit (ent.ItemQuery.sqlQuery after_only) = Some 2%Z ∧
   sql.limit (ent.ItemQuery.sqlAll_selector after_only) = Some 2%Z ∧
   ent.ItemQuery.gremlin_bound iq 2 ∈ ent.ItemQuery.gremlinQuery after_only).
Proof.
  intros after_first after_only.
  assert (Hf : ent.ItemQuery.limit after_first = Some 1%Z).
  { unfold after_first. by rewrite First_state, All_limit. }
  assert (Ho : ent.ItemQuery.limit after_only = Some 2%Z).
  { unfold after_only. by rewrite Only_state, All_limit. }
  assert (Hof : ent.ItemQuery.offset after_first = ent.ItemQuery.offset iq).
  { unfold after_first. by rewrite First_state, All_offset. }
  assert (Hoo : ent.ItemQuery.offset after_only = ent.ItemQuery.offset iq).
  { unfold after_only. by rewrite Only_state, All_offset. }
  split; (split; [done | split; [by apply sqlQuery_limit_set | split;
    [by apply sqlAll_selector_limit | ]]]).
  - replace (ent.ItemQuery.gremlin_bound iq 1)
      with (ent.ItemQuery.gremlin_bound after_first 1)
      by (unfold ent.ItemQuery.gremlin_bound; by rewrite Hof).
    by apply gremlinQuery_limit.
  - replace (ent.ItemQuery.gremlin_bound iq 2)
      with (ent.ItemQuery.gremlin_bound after_only 2)
      by (unfold ent.ItemQuery.gremlin_bound; by rewrite Hoo).
    by apply gremlinQuery_limit.
Qed.

Example first_changes_builder :
  fst (ent.ItemQuery.All (sample.items sample.mysql)) =
    Go.Ok (ent.Items_config (ent.mkConfig sample.mysql)
             [ent.mkItem None "1"; ent.mkItem None "2"; ent.mkItem None "3"]) ∧
  fst (ent.ItemQuery.All (snd (ent.ItemQuery.First (sample.items sample.mysql)))) =
    Go.Ok (ent.Items_config (ent.mkConfig sample.mysql) [ent.mkItem None "1"]).
Proof. split; reflexivity. Qed.

(** ** Slices *)

Section slices.
Context {A : Type}.
Variable grow : nat → nat → nat.
Hypothesis grow_enough : ∀ old need, need ≤ grow old need.
Implicit Types (h : gmap nat (list A)) (s : slice.t) (xs : list A).

Lemma elems_length h s : slice.wf h s → length (slice.elems h s) = slice.len s.
Proof.
  intros [Hle Harr]. unfold slice.elems. rewrite length_take.
  destruct (decide (0 < slice.cap s)) as [Hc | Hc].
  - destruct (Harr Hc) as (arr & -> & Hlen). cbn. lia.
  - lia.
Qed.

Lemma sep_sym s1 s2 : slice.sep s1 s2 → slice.sep s2 s1.
Proof. unfold slice.sep. intros Hs H2 H1. specialize (Hs H1 H2). congruence. Qed.

Lemma wf_empty h : slice.wf h slice.empty.
Proof. split; cbn; lia. Qed.

Lemma sep_empty s : slice.sep slice.empty s.
Proof. intros Hc. cbn in Hc. lia. Qed.

Lemma elems_empty h : slice.elems h slice.empty = [].
Proof. reflexivity. Qed.

(** Another well-formed header over another array is not touched by a
    write to the array of [s]. *)
Lemma frame_insert h s2 p arr :
  slice.wf h s2 → (0 < slice.cap s2 → slice.ptr s2 ≠ p) →
  slice.wf (<[p := arr]> h) s2 ∧
  slice.elems (<[p := arr]> h) s2 = slice.elems h s2.
Proof.
  intros [Hle Harr] Hne.
  destruct (decide (0 < slice.cap s2)) as [Hc | Hc].
  - specialize (Hne Hc). split.
    + split; [done | ]. intros _. rewrite lookup_insert_ne by done. auto.
    + unfold slice.elems. by rewrite lookup_insert_ne.
  - split.
    + split; [done | ]. intros ?. lia.
    + unfold slice.elems. replace (slice.len s2) with 0 by lia. reflexivity.
Qed.

(** [append]: the new header holds the old elements followed by the new
    ones, and every separated header keeps its elements. *)
Lemma append_spec h s xs s' h' :
  slice.wf h s → slice.append grow s xs h = (s', h') →
  slice.wf h' s' ∧
  slice.elems h' s' = slice.elems h s ++ xs ∧
  ∀ s2, slice.wf h s2 → slice.sep s s2 →
    slice.wf h' s2 ∧ slice.elems h' s2 = slice.elems h s2 ∧ slice.sep s' s2.
Proof.
  intros Hwf. pose proof (elems_length h s Hwf) as Hlen.
  destruct Hwf as [Hle Harr]. unfold slice.append.
  destruct xs as [| x xs].
  { intros [= <- <-]. rewrite app_nil_r. split; [by split | split; [done | auto]]. }
  assert (Hys : 0 < length (x :: xs)) by (cbn; lia).
  remember (x :: xs) as ys eqn:Eys. clear Eys x xs.
  set (n := slice.len s + length ys).
  destruct (decide (n ≤ slice.cap s)) as [Hfit | Hfit]; intros [= <- <-].
  - assert (Hc : 0 < slice.cap s) by lia.
    destruct (Harr Hc) as (arr & Hp & Hl).
    unfold slice.elems in *. rewrite Hp in *. cbn [default slice.ptr slice.len] in *.
    split; [ | split].
    + split; cbn; [lia | ]. intros _. rewrite lookup_insert_eq.
      eexists. split; [reflexivity | ]. rewrite !length_app, length_take. lia.
    + rewrite lookup_insert_eq. cbn. rewrite app_assoc, take_app_le.
      * rewrite take_ge; [done | ]. rewrite length_app, length_take. lia.
      * rewrite length_app, length_take. lia.
    + intros s2 Hwf2 Hsep.
      destruct (frame_insert h s2 (slice.ptr s)
                  (take (slice.len s) arr ++ ys ++ drop n arr) Hwf2) as [H1 H2].
      { intros Hc2. specialize (Hsep Hc Hc2). congruence. }
      split; [done | split; [done | ]].
      intros _ Hc2. cbn. apply (Hsep Hc Hc2).
  - set (p := fresh (dom h)).
    assert (Hfresh : ∀ q, is_Some (h !! q) → q ≠ p).
    { intros q Hq ->. apply (is_fresh (dom h)). by apply elem_of_dom. }
    split; [ | split].
    + split; cbn; [apply grow_enough | ]. intros _. rewrite lookup_insert_eq.
      eexists. split; [reflexivity | ]. rewrite length_app. fold n. lia.
    + unfold slice.elems at 1. cbn. rewrite lookup_insert_eq. cbn.
      rewrite take_ge; [done | ]. rewrite length_app. fold n. lia.
    + intros s2 Hwf2 Hsep.
      assert (Hne : 0 < slice.cap s2 → slice.ptr s2 ≠ p).
      { intros Hc2. destruct Hwf2 as [_ Harr2].
        destruct (Harr2 Hc2) as (arr2 & Hp2 & _). apply Hfresh. eauto. }
      destruct (frame_insert h s2 p (slice.elems h s ++ ys) Hwf2 Hne) as [H1 H2].
      split; [done | split; [done | ]].
      intros _ Hc2. cbn. specialize (Hne Hc2). congruence.
Qed.

End slices.

(** ** The builder in memory: Clone and the appends *)

Section memory.
Variable grow : nat → nat → nat.
Hypothesis grow_enough : ∀ old need, need ≤ grow old need.
Implicit Types (h : mem.heap) (q c : mem.ItemQuery).

Lemma mem_sep_sym q c : mem.sep q c → mem.sep c q.
Proof. intros (H1 & H2 & H3). repeat split; by apply sep_sym. Qed.

(** One append: the builder it is sent to gets the elements, every
    separated builder keeps its contents. *)
Lemma apply_spec o h q q' h' :
  mem.wf h q → mem.apply grow o q h = (q', h') →
  mem.wf h' q' ∧
  mem.view h' q' = mem.apply_view o (mem.view h q) ∧
  ∀ c, mem.wf h c → mem.sep q c →
    mem.wf h' c ∧ mem.view h' c = mem.view h c ∧ mem.sep q' c.
Proof.
  intros (Ho & Hu & Hp).
  destruct o as [ps | os | cols]; cbn [mem.apply];
    unfold mem.Where, mem.Order, mem.Unique.
  - destruct (slice.append grow (mem.predicates q) ps (mem.preds h))
      as [s hp] eqn:E. intros [= <- <-].
    destruct (append_spec grow grow_enough _ _ _ _ _ Hp E) as (W & El & Fr).
    split; [unfold mem.wf; cbn; auto | split].
    + unfold mem.view. cbn. by rewrite El.
    + intros c (Wo & Wu & Wp) (So & Su & Sp).
      destruct (Fr _ Wp Sp) as (W2 & E2 & S2).
      split; [unfold mem.wf; cbn; auto | split; [ | unfold mem.sep; cbn; auto]].
      unfold mem.view. cbn. by rewrite E2.
  - destruct (slice.append grow (mem.order q) os (mem.orders h))
      as [s ho] eqn:E. intros [= <- <-].
    destruct (append_spec grow grow_enough _ _ _ _ _ Ho E) as (W & El & Fr).
    split; [unfold mem.wf; cbn; auto | split].
    + unfold mem.view. cbn. by rewrite El.
    + intros c (Wo & Wu & Wp) (So & Su & Sp).
      destruct (Fr _ Wo So) as (W2 & E2 & S2).
      split; [unfold mem.wf; cbn; auto | split; [ | unfold mem.sep; cbn; auto]].
      unfold mem.view. cbn. by rewrite E2.
  - destruct (slice.append grow (mem.unique q) cols (mem.uniques h))
      as [s hu] eqn:E. intros [= <- <-].
    destruct (append_spec grow grow_enough _ _ _ _ _ Hu E) as (W & El & Fr).
    split; [unfold mem.wf; cbn; auto | split].
    + unfold mem.view. cbn. by rewrite El.
    + intros c (Wo & Wu & Wp) (So & Su & Sp).
      destruct (Fr _ Wu Su) as (W2 & E2 & S2).
      split; [unfold mem.wf; cbn; auto | split; [ | unfold mem.sep; cbn; auto]].
      unfold mem.view. cbn. by rewrite E2.
Qed.

(** [Clone] returns a well-formed builder with the contents of the
    original, separated from it; the original is as it was. *)
Lemma Clone_spec h q c h1 :
  mem.wf h q → mem.Clone grow q h = (c, h1) →
  mem.wf h1 q ∧ mem.wf h1 c ∧ mem.sep q c ∧
  mem.view h1 q = mem.view h q ∧
  mem.view h1 c = ent.ItemQuery.Clone (mem.view h q).
Proof.
  intros (Ho & Hu & Hp). unfold mem.Clone.
  destruct (slice.append grow slice.empty (slice.elems (mem.orders h) (mem.order q))
              (mem.orders h)) as [so ho] eqn:Eo.
  destruct (slice.append grow slice.empty (slice.elems (mem.uniques h) (mem.unique q))
              (mem.uniques h)) as [su hu] eqn:Eu.
  destruct (slice.append grow slice.empty (slice.elems (mem.preds h) (mem.predicates q))
              (mem.preds h)) as [sp hp] eqn:Ep.
  intros [= <- <-].
  destruct (append_spec grow grow_enough _ _ _ _ _ (wf_empty _) Eo) as (Wo & Eo' & Fo).
  destruct (append_spec grow grow_enough _ _ _ _ _ (wf_empty _) Eu) as (Wu & Eu' & Fu).
  destruct (append_spec grow grow_enough _ _ _ _ _ (wf_empty _) Ep) as (Wp & Ep' & Fp).
  destruct (Fo _ Ho (sep_empty _)) as (Wo2 & Eo2 & So).
  destruct (Fu _ Hu (sep_empty _)) as (Wu2 & Eu2 & Su).
  destruct (Fp _ Hp (sep_empty _)) as (Wp2 & Ep2 & Sp).
  split; [unfold mem.wf; cbn; auto | ].
  split; [unfold mem.wf; cbn; auto | ].
  split; [unfold mem.sep; cbn; auto using sep_sym | ].
  unfold mem.view, ent.ItemQuery.Clone. cbn.
  rewrite Eo2, Eu2, Ep2, Eo', Eu', Ep'. split; reflexivity.
Qed.

(** Appends sent to two separated builders in any order: each builder
    ends with its own elements followed by the appends sent to it. *)
Lemma run_spec ops : ∀ h q c q' c' h',
  mem.wf h q → mem.wf h c → mem.sep q c →
  mem.run grow ops q c h = (q', c', h') →
  mem.view h' q' = mem.replay mem.Original ops (mem.view h q) ∧
  mem.view h' c' = mem.replay mem.TheClone ops (mem.view h c).
Proof.
  induction ops as [| [[|] o] ops IH]; intros h q c q' c' h' Wq Wc S; cbn.
  - by intros [= <- <- <-].
  - destruct (mem.apply grow o q h) as [q1 h1] eqn:E. intros Hrun.
    destruct (apply_spec _ _ _ _ _ Wq E) as (Wq1 & Vq1 & Fr).
    destruct (Fr _ Wc S) as (Wc1 & Vc1 & S1).
    destruct (IH _ _ _ _ _ _ Wq1 Wc1 S1 Hrun) as [H1 H2].
    by rewrite H1, H2, Vq1, Vc1.
  - destruct (mem.apply grow o c h) as [c1 h1] eqn:E. intros Hrun.
    destruct (apply_spec _ _ _ _ _ Wc E) as (Wc1 & Vc1 & Fr).
    destruct (Fr _ Wq (mem_sep_sym _ _ S)) as (Wq1 & Vq1 & S1).
    destruct (IH _ _ _ _ _ _ Wq1 Wc1 (mem_sep_sym _ _ S1) Hrun) as [H1 H2].
    by rewrite H1, H2, Vq1, Vc1.
Qed.

Lemma replay_original_none ops iq :
  Forall (fun x => x.1 = mem.TheClone) ops → mem.replay mem.Original ops iq = iq.
Proof.
  induction 1 as [| [w o] ops Hw _ IH]; [done | ]. cbn in Hw. subst w. apply IH.
Qed.

Lemma Clone_contents (iq : ent.ItemQuery.t) : ent.ItemQuery.Clone iq = iq.
Proof. by destruct iq. Qed.

End memory.

(** C6: Clone copies the predicate list, the order list and the unique
    columns into arrays of its own.  After it, appends to the clone and to
    the original, in any order, never reach the other builder: each ends
    with the elements the original had at the time of the clone followed by
    what was appended to it.  Appends to the clone alone leave the lists of
    the original as they were, and a builder and its clone that are given
    the predicates P1 and P2 one after the other count the same. *)
Theorem clone_deep_copy (grow : nat → nat → nat) (h : mem.heap) (q : mem.ItemQuery) :
  (∀ old need, need ≤ grow old need) →
  mem.wf h q →
  let '(c, h1) := mem.Clone grow q h in
  mem.view h1 c = mem.view h q ∧
  mem.view h1 q = mem.view h q ∧
  (∀ ops,
     let '(q', c', h') := mem.run grow ops q c h1 in
     mem.view h' q' = mem.replay mem.Original ops (mem.view h q) ∧
     mem.view h' c' = mem.replay mem.TheClone ops (mem.view h q)) ∧
  (∀ ops, Forall (fun x => x.1 = mem.TheClone) ops →
     let '(q', c', h') := mem.run grow ops q c h1 in
     mem.view h' q' = mem.view h q) ∧
  (∀ P1 P2,
     let '(q', c', h') :=
       mem.run grow
         [(mem.Original, mem.OpWhere [P1]); (mem.TheClone, mem.OpWhere [P1]);
          (mem.Original, mem.OpWhere [P2]); (mem.TheClone, mem.OpWhere [P2])]
         q c h1 in
     fst (ent.ItemQuery.Count (mem.view h' q')) =
     fst (ent.ItemQuery.Count (mem.view h' c'))).
Proof.
  intros Hgrow Hwf.
  destruct (mem.Clone grow q h) as [c h1] eqn:E.
  destruct (Clone_spec grow Hgrow _ _ _ _ Hwf E) as (Wq & Wc & S & Vq & Vc).
  rewrite Clone_contents in Vc.
  assert (Hrun : ∀ ops,
     let '(q', c', h') := mem.run grow ops q c h1 in
     mem.view h' q' = mem.replay mem.Original ops (mem.view h q) ∧
     mem.view h' c' = mem.replay mem.TheClone ops (mem.view h q)).
  { intros ops. destruct (mem.run grow ops q c h1) as [[q' c'] h'] eqn:R.
    destruct (run_spec grow Hgrow ops _ _ _ _ _ _ Wq Wc S R) as [H1 H2].
    by rewrite H1, H2, Vq, Vc. }
  split; [done | split; [done | split; [done | split]]].
  - intros ops Hops. specialize (Hrun ops).
    destruct (mem.run grow ops q c h1) as [[q' c'] h'].
    destruct Hrun as [-> _]. by apply replay_original_none.
  - intros P1 P2.
    match goal with |- context [mem.run grow ?o q c h1] => specialize (Hrun o) end.
    destruct (mem.run grow _ q c h1) as [[q' c'] h'].
    destruct Hrun as [-> ->]. reflexivity.
Qed.

Lemma sample_grow_enough : ∀ old need, need ≤ sample_mem.grow old need.
Proof. intros old need. unfold sample_mem.grow. lia. Qed.

Lemma sample_builder_wf : mem.wf sample_mem.heap0 sample_mem.builder0.
Proof.
  repeat split; cbn; try lia.
  intros _. exists [sample.IDEQ "1"]. split; [reflexivity | cbn; lia].
Qed.

Lemma clone_deep_copy_witness :
  let '(c, h1) := mem.Clone sample_mem.grow sample_mem.builder0 sample_mem.heap0 in
  let '(q', c', h') :=
    mem.run sample_mem.grow
      [(mem.TheClone, mem.OpWhere [sample.IDEQ "2"]);
       (mem.Original, mem.OpWhere [sample.IDEQ "3"])]
      sample_mem.builder0 c h1 in
  sample_mem.ids (mem.view h' q') =
    [[dsl.Custom "hasID" ["1"]]; [dsl.Custom "hasID" ["3"]]] ∧
  sample_mem.ids (mem.view h' c') =
    [[dsl.Custom "hasID" ["1"]]; [dsl.Custom "hasID" ["2"]]].
Proof.
  pose proof (clone_deep_copy sample_mem.grow sample_mem.heap0 sample_mem.builder0
                sample_grow_enough sample_builder_wf) as H.
  destruct (mem.Clone sample_mem.grow sample_mem.builder0 sample_mem.heap0) as [c h1].
  destruct H as (_ & _ & H & _).
  specialize (H [(mem.TheClone, mem.OpWhere [sample.IDEQ "2"]);
                 (mem.Original, mem.OpWhere [sample.IDEQ "3"])]).
  destruct (mem.run sample_mem.grow _ sample_mem.builder0 c h1) as [[q' c'] h'].
  destruct H as [-> ->]. split; reflexivity.
Defined.

(** What the copies are for: with a copy of the struct alone the two
    builders share the array of predicates, and an append to the original
    overwrites what was appended to the copy. *)
Example shallow_copy_is_overwritten :
  let c := mem.shallow sample_mem.builder0 in
  let '(q', c', h') :=
    mem.run sample_mem.grow
      [(mem.TheClone, mem.OpWhere [sample.IDEQ "2"]);
       (mem.Original, mem.OpWhere [sample.IDEQ "3"])]
      sample_mem.builder0 c sample_mem.heap0 in
  sample_mem.ids (mem.view h' c') =
    [[dsl.Custom "hasID" ["1"]]; [dsl.Custom "hasID" ["3"]]].
Proof. vm_compute. reflexivity. Qed.

(** ** The resolver and the deriver on the integration schema *)

(** From the schema of the integration suite the model gives back the
    generated migration schema, table by table. *)
Example integration_tables :
  (gen.NewGraph schemas.integration ≫= gen.Tables) = gen.Ok migrate.Tables.
Proof. vm_compute. reflexivity. Qed.

(** ** Many-to-many edges of a type to itself *)

(** C7, at the failing input: a type Friend with a many-to-many edge
    "friends" to itself.  Whenever the singular of the edge name is the
    label of the type, as it is here, the second column gets the name of the
    first: the join table friend_friends has two columns "friend_id". *)
Theorem self_m2m_collision `{gen.Naming} :
  gen.Label "Friend" = "friend" →
  gen.Singularize "friends" = "friend" →
  ∃ g e,
    gen.NewGraph [schemas.Friend] = gen.Ok g ∧
    gen.edgeOf g "Friend" "friends" = Some (0, e) ∧
    gen.Type_ e = 0 ∧ gen.Owner e = 0 ∧ gen.Unique e = false ∧
    gen.RelType (gen.Rel_ e) = gen.M2M ∧
    gen.Columns (gen.Rel_ e) = ["friend_id"; "friend_id"].
Proof.
  destruct H as [snake singularize label table]. cbn.
  intros HL HS. eexists. eexists.
  split; [vm_compute; reflexivity | ].
  split; [vm_compute; reflexivity | ].
  cbn. rewrite HL, HS. repeat split.
Qed.

Lemma self_m2m_collision_witness :
  ∃ g e,
    gen.NewGraph [schemas.Friend] = gen.Ok g ∧
    gen.edgeOf g "Friend" "friends" = Some (0, e) ∧
    gen.Type_ e = 0 ∧ gen.Owner e = 0 ∧ gen.Unique e = false ∧
    gen.RelType (gen.Rel_ e) = gen.M2M ∧
    gen.Columns (gen.Rel_ e) = ["friend_id"; "friend_id"].
Proof. apply (@self_m2m_collision naming.english); reflexivity. Defined.

(** In general: for an edge of a type to itself that is not unique and has
    no inverse, [resolve] names the two columns after the label of the type
    and after the singular of the edge name, whatever they are; the two
    names are equal exactly when that singular is the label. *)
Lemma append_length (a b : string) :
  String.length (a +:+ b) = String.length a + String.length b.
Proof. induction a as [| x a IH]; simpl; [done | by f_equal]. Qed.

Lemma append_suffix_inj (a b s : string) : a +:+ s = b +:+ s → a = b.
Proof.
  revert b. induction a as [| x a IH]; intros [| y b]; cbn; intros Heq; try done.
  - exfalso. apply (f_equal String.length) in Heq.
    rewrite !append_length in Heq. cbn in Heq. lia.
  - exfalso. apply (f_equal String.length) in Heq.
    rewrite !append_length in Heq. cbn in Heq. lia.
  - injection Heq as -> Heq. f_equal. by apply IH.
Qed.

Lemma self_m2m_columns `{gen.Naming} (g : gen.Graph) (ti ei : nat)
  (t : gen.Type__) (e : gen.Edge) :
  gen.Nodes g !! ti = Some t → gen.Edges t !! ei = Some e →
  gen.Inverse e = "" → gen.Rel_ e = gen.mkRelation gen.Unk "" [] →
  gen.Unique e = false → gen.Type_ e = ti → gen.Owner e = ti →
  let c1 := gen.Label (gen.TypeName t) +:+ "_id" in
  let c2 := gen.Singularize (gen.Name e) +:+ "_id" in
  gen.resolveEdge g ti ei =
    gen.Ok (gen.set_edge ti ei
              (gen.set_Rel
                 (gen.mkRelation gen.M2M
                    (gen.Label (gen.TypeName t) +:+ "_" +:+ gen.Name e) [c1; c2])
                 (gen.set_SelfRef true e)) g) ∧
  (c1 = c2 ↔ gen.Singularize (gen.Name e) = gen.Label (gen.TypeName t)).
Proof.
  intros Ht He Hinv Hrel Hu Hty Hown c1 c2. split.
  - unfold gen.resolveEdge, gen.node, gen.IsInverse.
    rewrite Ht. cbn. rewrite He. cbn. rewrite Hinv. cbn.
    rewrite Hrel. cbn. rewrite Hu, Hty, Hown. cbn.
    rewrite !bool_decide_eq_true_2 by done. cbn. rewrite Ht. cbn.
    unfold gen.IsM2M. cbn. reflexivity.
  - unfold c1, c2. split; [ | by intros ->].
    intros Heq. symmetry. by eapply append_suffix_inj.
Qed.

(** The join table [Tables] derives from it. *)
Example friend_tables :
  (gen.NewGraph [schemas.Friend] ≫= gen.Tables) =
  gen.Ok
    [schema.mkTable "friends" [gen.IDColumn] [gen.IDColumn] [] [];
     schema.mkTable "friend_friends"
       [schema.column "friend_id" field.TypeInt; schema.column "friend_id" field.TypeInt]
       [schema.column "friend_id" field.TypeInt; schema.column "friend_id" field.TypeInt]
       [schema.mkForeignKey "friend_friends_friend_id"
          [schema.column "friend_id" field.TypeInt] "friends" [gen.IDColumn] schema.Cascade;
        schema.mkForeignKey "friend_friends_friend_id"
          [schema.column "friend_id" field.TypeInt] "friends" [gen.IDColumn] schema.Cascade]
       []].
Proof. vm_compute. reflexivity. Qed.

(** With a declared inverse the rename of [resolve] is taken, and gives
    the second column the name of the first again. *)
Example follower_graph :
  (gen.NewGraph [schemas.Follower] ≫= fun g => gen.Ok (gen.edgeOf g "Follower" "following")) =
  gen.Ok (Some (0, gen.mkEdge "following" 0 0 "" false true "" false
                     (gen.mkRelation gen.M2M "follower_following"
                        ["follower_id"; "follower_id"]))).
Proof. vm_compute. reflexivity. Qed.

(** The two join tables of User to User in the generated schema have
    columns of different names, the second from the singular of the edge
    name. *)
Example generated_self_join_tables :
  schema.Name <$> migrate.UserFriendsColumns = ["user_id"; "friend_id"] ∧
  schema.Name <$> migrate.UserFollowingColumns = ["user_id"; "follower_id"] ∧
  (gen.NewGraph schemas.integration ≫= fun g =>
     gen.Ok (gen.Columns ∘ gen.Rel_ <$> gen.joinEdges g)) =
  gen.Ok [["user_id"; "group_id"]; ["user_id"; "friend_id"]; ["user_id"; "follower_id"]].
Proof. repeat split; vm_compute; reflexivity. Qed.

(** ** Users, spouses and pets *)

(** C9, as stated: with a non-unique edge "owner" the resolver never makes
    Pet.owner a many-to-one relation, whichever of "owner" and "pets" is
    declared as the inverse of the other and whether "pets" is unique or
    not: Pet.owner comes out one-to-many or many-to-many. *)
Lemma household_owner_not_unique :
  ¬ (∃ owner_inverse pets_unique g ti e,
       gen.NewGraph (schemas.household owner_inverse false pets_unique) = gen.Ok g ∧
       gen.edgeOf g "Pet" "owner" = Some (ti, e) ∧
       gen.RelType (gen.Rel_ e) = gen.M2O).
Proof.
  intros (oi & pu & g & ti & e & Hg & He & Hr).
  destruct oi, pu; vm_compute in Hg; injection Hg as <-;
    vm_compute in He; injection He as <- <-; discriminate.
Qed.

(** C9, amended: in the schema where User declares a unique edge "spouse"
    to User together with its inverse, and where the edge "owner" of Pet to
    User is unique and the edge "pets" of User to Pet is not, one of the two
    being declared as the inverse of the other, the resolver gives
    User.spouse a one-to-one relation of User to itself with its column in
    the table users, Pet.owner a many-to-one relation with the column
    owner_id in the table pets, and User.pets the mirror of it, one-to-many
    on the same table and column. *)
Theorem household_relations `{gen.Naming} (owner_inverse : bool) :
  gen.Table "User" = "users" → gen.Table "Pet" = "pets" →
  gen.snake "owner" = "owner" → gen.snake "spouse" = "spouse" →
  ∃ g spouse owner pets,
    gen.NewGraph (schemas.household owner_inverse true false) = gen.Ok g ∧
    gen.edgeOf g "User" "spouse" = Some (0, spouse) ∧
    gen.Type_ spouse = 0 ∧
    gen.Rel_ spouse = gen.mkRelation gen.O2O "users" ["spouse_id"] ∧
    gen.edgeOf g "Pet" "owner" = Some (1, owner) ∧
    gen.Type_ owner = 0 ∧
    gen.Rel_ owner = gen.mkRelation gen.M2O "pets" ["owner_id"] ∧
    gen.edgeOf g "User" "pets" = Some (0, pets) ∧
    gen.Type_ pets = 1 ∧
    gen.Rel_ pets = gen.mkRelation gen.O2M "pets" ["owner_id"].
Proof.
  destruct H as [snake singularize label table]. cbn.
  intros HU HP Ho Hs. destruct owner_inverse.
  - do 4 eexists. split; [vm_compute; reflexivity | ].
    split; [vm_compute; reflexivity | ].
    split; [reflexivity | ].
    split; [cbn; by rewrite HU, Hs | ].
    split; [vm_compute; reflexivity | ].
    split; [reflexivity | ].
    split; [cbn; by rewrite HP, Ho | ].
    split; [vm_compute; reflexivity | ].
    split; [reflexivity | ].
    cbn. by rewrite HP, Ho.
  - do 4 eexists. split; [vm_compute; reflexivity | ].
    split; [vm_compute; reflexivity | ].
    split; [reflexivity | ].
    split; [cbn; by rewrite HU, Hs | ].
    split; [vm_compute; reflexivity | ].
    split; [reflexivity | ].
    split; [cbn; by rewrite HP, Ho | ].
    split; [vm_compute; reflexivity | ].
    split; [reflexivity | ].
    cbn. by rewrite HP, Ho.
Qed.

Lemma household_relations_witness :
  ∃ g spouse owner pets,
    gen.NewGraph (schemas.household true true false) = gen.Ok g ∧
    gen.edgeOf g "User" "spouse" = Some (0, spouse) ∧
    gen.Type_ spouse = 0 ∧
    gen.Rel_ spouse = gen.mkRelation gen.O2O "users" ["spouse_id"] ∧
    gen.edgeOf g "Pet" "owner" = Some (1, owner) ∧
    gen.Type_ owner = 0 ∧
    gen.Rel_ owner = gen.mkRelation gen.M2O "pets" ["owner_id"] ∧
    gen.edgeOf g "User" "pets" = Some (0, pets) ∧
    gen.Type_ pets = 1 ∧
    gen.Rel_ pets = gen.mkRelation gen.O2M "pets" ["owner_id"].
Proof. apply (@household_relations naming.english true); reflexivity. Defined.

(** The tables of that schema: the relation columns are spouse_id on
    users and owner_id on pets. *)
Example household_tables :
  (gen.NewGraph (schemas.household true true false) ≫= gen.Tables) =
  gen.Ok
    [schema.mkTable "users"
       [gen.IDColumn; schema.mkColumn "spouse_id" field.TypeInt true false true None []]
       [gen.IDColumn]
       [schema.mkForeignKey "users_users_spouse"
          [schema.mkColumn "spouse_id" field.TypeInt true false true None []]
          "users" [gen.IDColumn] schema.SetNull]
       [];
     schema.mkTable "pets"
       [gen.IDColumn; schema.mkColumn "owner_id" field.TypeInt false false true None []]
       [gen.IDColumn]
       [schema.mkForeignKey "pets_users_pets"
          [schema.mkColumn "owner_id" field.TypeInt false false true None []]
          "users" [gen.IDColumn] schema.SetNull]
       []].
Proof. vm_compute. reflexivity. Qed.

(** ** The derived tables *)

Section deriver.
Context `{gen.Naming}.

Lemma bind_Ok {A B} (r : gen.result A) (k : A → gen.result B) (b : B) :
  r ≫= k = gen.Ok b → ∃ a, r = gen.Ok a ∧ k a = gen.Ok b.
Proof. destruct r as [a | e]; cbn; [eauto | discriminate]. Qed.

Lemma deref_Ok {A} what (o : option A) (a : A) :
  gen.deref what o = gen.Ok a → o = Some a.
Proof. destruct o; cbn; congruence. Qed.

(** A loop over a list that threads a result: an invariant of the
    elements gone through so far. *)
Lemma foldl_result {A B} (P : list B → A → Prop)
  (F : gen.result A → B → gen.result A) :
  (∀ pre r x b, (∀ a, r = gen.Ok a → P pre a) → F r x = gen.Ok b → P (pre ++ [x]) b) →
  ∀ xs pre r b, (∀ a, r = gen.Ok a → P pre a) →
    foldl F r xs = gen.Ok b → P (pre ++ xs) b.
Proof.
  intros Hstep xs. induction xs as [| x xs IH]; intros pre r b Hr; cbn.
  - intros ->. rewrite app_nil_r. by apply Hr.
  - intros Hfold. change (x :: xs) with ([x] ++ xs). rewrite (assoc_L (++) pre [x] xs).
    apply (IH (pre ++ [x]) (F r x)); [ | done].
    intros a Ha. by apply (Hstep pre r x).
Qed.

(** The same for a body that returns at once on an error. *)
Lemma foldl_bind {A B} (P : list B → A → Prop) (f : A → B → gen.result A) :
  (∀ pre a x b, P pre a → f a x = gen.Ok b → P (pre ++ [x]) b) →
  ∀ xs pre r b, (∀ a, r = gen.Ok a → P pre a) →
    foldl (fun r x => r ≫= fun a => f a x) r xs = gen.Ok b → P (pre ++ xs) b.
Proof.
  intros Hstep. apply foldl_result.
  intros pre r x b Hr Hb. apply bind_Ok in Hb as (a & -> & Hb).
  apply (Hstep pre a); auto.
Qed.

(** The tables of the nodes have no foreign key, and the map holds
    positions among them. *)
Lemma AddColumns_keys (fs : list schema.Column) (t0 : schema.Table) :
  schema.ForeignKeys (foldl (fun t f => schema.AddColumn f t) t0 fs) =
  schema.ForeignKeys t0.
Proof.
  revert t0. induction fs as [| f fs IH]; intros t0; cbn; [done | ].
  by rewrite IH.
Qed.

Lemma nodeTable_keys (n : gen.Type__) : gen.setNullKeys (gen.nodeTable n) = true.
Proof.
  unfold gen.setNullKeys, gen.nodeTable. by rewrite AddColumns_keys.
Qed.

Lemma nodeTables_spec (g : gen.Graph) tables all :
  gen.nodeTables g = (tables, all) →
  length all = length (gen.Nodes g) ∧
  (∀ k i, tables !! k = Some i → i < length all) ∧
  Forall (fun t => gen.setNullKeys t = true) all.
Proof.
  unfold gen.nodeTables.
  assert (Hgen : ∀ ns (tables0 : gmap string nat) all0,
    (∀ k i, tables0 !! k = Some i → i < length all0) →
    Forall (fun t => gen.setNullKeys t = true) all0 →
    ∀ tables all,
    foldl (fun '(tables, all) n =>
             let table := gen.nodeTable n in
             (<[schema.TableName table := length all]> tables, all ++ [table]))
          (tables0, all0) ns = (tables, all) →
    length all = length all0 + length ns ∧
    (∀ k i, tables !! k = Some i → i < length all) ∧
    Forall (fun t => gen.setNullKeys t = true) all).
  { induction ns as [| n ns IH]; intros tables0 all0 Hm Hf tables1 all1; cbn.
    - intros [= <- <-]. split; [lia | done].
    - intros Hfold. apply IH in Hfold as (Hl & Hm' & Hf').
      + rewrite length_app in Hl. cbn in Hl. split; [lia | done].
      + intros k i. rewrite length_app. cbn.
        destruct (decide (schema.TableName (gen.nodeTable n) = k)) as [-> | Hne].
        * rewrite lookup_insert_eq. intros [= <-]. lia.
        * rewrite lookup_insert_ne by done. intros Hk. apply Hm in Hk. lia.
      + apply Forall_app. split; [done | ].
        constructor; [apply nodeTable_keys | constructor]. }
  intros Hfold. apply Hgen in Hfold as (Hl & Hm & Hf); [ | | constructor].
  - cbn in Hl. done.
  - intros k i. rewrite lookup_empty. discriminate.
Qed.

(** A relation column with its foreign key on a table of a node. *)
Lemma addRelationColumn_derived e uniq oi ri n es all all' :
  oi < n → ¬ gen.isJoinEdge e →
  gen.derived n es all →
  gen.addRelationColumn e uniq oi ri all = gen.Ok all' →
  gen.derived n (es ++ [e]) all'.
Proof.
  intros Hoi He (Hlen & Hnull & Hjoin). unfold gen.addRelationColumn.
  intros Hb.
  apply bind_Ok in Hb as (name & _ & Hb).
  apply bind_Ok in Hb as (owner & Ho%deref_Ok & Hb).
  apply bind_Ok in Hb as (ref & _ & Hb).
  apply bind_Ok in Hb as (pk & _ & Hb).
  injection Hb as <-.
  split; [ | split].
  - rewrite length_insert, filter_app, length_app, filter_cons_False by done.
    rewrite filter_nil. cbn. lia.
  - rewrite take_insert_lt by done. apply Forall_insert; [done | ].
    assert (Hin : take n all !! oi = Some owner).
    { rewrite lookup_take_lt by done. done. }
    pose proof (Forall_lookup_1 _ _ _ _ Hnull Hin) as Hown.
    unfold gen.setNullKeys in *. cbn. rewrite forallb_app, Hown. reflexivity.
  - by rewrite drop_insert_lt.
Qed.

(** The body of the second loop of [Tables]. *)
Lemma edgeTables_derived (g : gen.Graph) (tables : gmap string nat) n0 node es all e all' :
  (∀ k i, tables !! k = Some i → i < n0) →
  gen.derived n0 es all →
  gen.edgeTables g tables node all e = gen.Ok all' →
  gen.derived n0 (es ++ [e]) all'.
Proof.
  intros Hm Hd. unfold gen.edgeTables.
  destruct (gen.IsInverse e) eqn:Hinv.
  { intros [= <-]. destruct Hd as (Hlen & Hnull & Hjoin).
    split; [ | done].
    rewrite filter_app, filter_cons_False, filter_nil, app_nil_r; [done | ].
    intros [Hi _]. congruence. }
  destruct (gen.RelType (gen.Rel_ e)) eqn:Hrel.
  - intros [= <-]. destruct Hd as (Hlen & Hnull & Hjoin).
    split; [ | done].
    rewrite filter_app, filter_cons_False, filter_nil, app_nil_r; [done | ].
    intros [_ Hr]. congruence.
  - intros Hb. apply bind_Ok in Hb as (oi & Ho%deref_Ok & Hb).
    apply bind_Ok in Hb as (ri & _ & Hb).
    eapply addRelationColumn_derived; [ | | done | done]; [by eapply Hm | ].
    intros [_ Hr]. congruence.
  - intros Hb. apply bind_Ok in Hb as (oi & Ho%deref_Ok & Hb).
    apply bind_Ok in Hb as (ri & _ & Hb).
    eapply addRelationColumn_derived; [ | | done | done]; [by eapply Hm | ].
    intros [_ Hr]. congruence.
  - intros Hb. apply bind_Ok in Hb as (etype & _ & Hb).
    apply bind_Ok in Hb as (ri & _ & Hb).
    apply bind_Ok in Hb as (oi & Ho%deref_Ok & Hb).
    eapply addRelationColumn_derived; [ | | done | done]; [by eapply Hm | ].
    intros [_ Hr]. congruence.
  - intros Hb. apply bind_Ok in Hb as (etype & _ & Hb).
    apply bind_Ok in Hb as (i1 & _ & Hb).
    apply bind_Ok in Hb as (i2 & _ & Hb).
    apply bind_Ok in Hb as (t1 & _ & Hb).
    apply bind_Ok in Hb as (t2 & _ & Hb).
    apply bind_Ok in Hb as (n1 & _ & Hb).
    apply bind_Ok in Hb as (n2 & _ & Hb).
    apply bind_Ok in Hb as (pk1 & _ & Hb).
    apply bind_Ok in Hb as (pk2 & _ & Hb).
    injection Hb as <-. destruct Hd as (Hlen & Hnull & Hjoin).
    split; [ | split].
    + rewrite length_app, filter_app, length_app, filter_cons_True by done.
      rewrite filter_nil. cbn. lia.
    + rewrite take_app_le by lia. done.
    + rewrite drop_app_le by lia. apply Forall_app. split; [done | ].
      constructor; [ | constructor].
      unfold gen.joinTable. cbn. rewrite !bool_decide_eq_true_2 by done. reflexivity.
Qed.

(** The third loop of [Tables]: an index changes no foreign key. *)
Lemma indexTables_derived (tables : gmap string nat) n0 es all node all' :
  (∀ k i, tables !! k = Some i → i < n0) →
  gen.derived n0 es all →
  gen.indexTables tables all node = gen.Ok all' →
  gen.derived n0 es all'.
Proof.
  intros Hm Hd Hfold. unfold gen.indexTables in Hfold.
  apply (foldl_bind (fun _ all => gen.derived n0 es all)
           (fun all idx =>
              i ← gen.deref "nil table" (tables !! gen.Table (gen.TypeName node));
              table ← gen.deref "nil table" (all !! i);
              gen.Ok (<[i := schema.AddIndex (gen.IndexName idx) (gen.IndexUnique idx)
                              (gen.IndexColumns idx) table]> all))
           ) with (pre := []) in Hfold; [done | | by intros ? [= <-]].
  clear Hd. intros _ all0 idx all1 (Hlen & Hnull & Hjoin) Hb.
  apply bind_Ok in Hb as (i & Hi%deref_Ok & Hb).
  apply bind_Ok in Hb as (table & Ht%deref_Ok & Hb).
  injection Hb as <-. apply Hm in Hi.
  split; [ | split].
  - by rewrite length_insert.
  - rewrite take_insert_lt by done. apply Forall_insert; [done | ].
    assert (Hin : take n0 all0 !! i = Some table).
    { rewrite lookup_take_lt by done. done. }
    apply (Forall_lookup_1 _ _ _ _ Hnull Hin).
  - by rewrite drop_insert_lt.
Qed.

(** [Tables]: the tables of the nodes, in the order of the nodes, then one
    join table for each many-to-many edge that is not an inverse edge. *)
Lemma Tables_derived (g : gen.Graph) (all : list schema.Table) :
  gen.Tables g = gen.Ok all →
  gen.derived (length (gen.Nodes g)) (gen.Nodes g ≫= gen.Edges) all.
Proof.
  unfold gen.Tables. destruct (gen.nodeTables g) as [tables all0] eqn:Hnt.
  apply nodeTables_spec in Hnt as (Hlen0 & Hm & Hnull0).
  rewrite Hlen0 in Hm. set (n0 := length (gen.Nodes g)) in *.
  intros Hb. apply bind_Ok in Hb as (all1 & Hloop2 & Hloop3).
  assert (H1 : gen.derived n0 (gen.Nodes g ≫= gen.Edges) all1).
  { apply (foldl_result (fun ns all => gen.derived n0 (ns ≫= gen.Edges) all))
      with (pre := []) in Hloop2; [done | | ].
    - intros pre r node all' Hr Hinner. rewrite bind_app. cbn. rewrite app_nil_r.
      apply (foldl_bind
               (fun es all => gen.derived n0 ((pre ≫= gen.Edges) ++ es) all)
               (fun all e => gen.edgeTables g tables node all e))
        with (pre := []) in Hinner; [done | | ].
      + intros es a e b Hd He. rewrite (assoc_L (++)).
        by eapply edgeTables_derived.
      + intros a Ha. rewrite app_nil_r. by apply Hr.
    - intros a [= <-]. split; [cbn; lia | split].
      + by rewrite take_ge by lia.
      + rewrite drop_ge by lia. constructor. }
  apply (foldl_bind (fun _ all => gen.derived n0 (gen.Nodes g ≫= gen.Edges) all)
           (fun all node => gen.indexTables tables all node))
    with (pre := []) in Hloop3; [done | | by intros ? [= <-]].
  intros _ a node b Hd Hi. by eapply indexTables_derived.
Qed.

End deriver.

(** C8: in the tables [Tables] derives from a graph, every join table of
    a many-to-many relation (there is one for each many-to-many edge that is
    not an inverse edge, after the tables of the nodes) has exactly two
    columns, which are its primary key, and a foreign key on each that
    deletes in cascade; and every foreign key on the table of a node is on
    nullable relation columns and sets them to null on deletion. *)
Theorem join_tables_cascade_entity_keys_set_null `{gen.Naming}
  (g : gen.Graph) (all : list schema.Table) :
  gen.Tables g = gen.Ok all →
  length (drop (length (gen.Nodes g)) all) = length (gen.joinEdges g) ∧
  Forall (fun t => gen.joinTable t = true) (drop (length (gen.Nodes g)) all) ∧
  Forall (fun t => gen.setNullKeys t = true) (take (length (gen.Nodes g)) all).
Proof.
  intros Ht. apply Tables_derived in Ht as (Hlen & Hnull & Hjoin).
  split; [ | done]. rewrite length_drop. unfold gen.joinEdges. lia.
Qed.

Lemma join_tables_cascade_entity_keys_set_null_witness :
  match gen.NewGraph schemas.integration with
  | gen.Ok g =>
      gen.Tables g = gen.Ok migrate.Tables ∧
      length (drop (length (gen.Nodes g)) migrate.Tables) = length (gen.joinEdges g) ∧
      Forall (fun t => gen.joinTable t = true) (drop (length (gen.Nodes g)) migrate.Tables) ∧
      Forall (fun t => gen.setNullKeys t = true) (take (length (gen.Nodes g)) migrate.Tables)
  | gen.Err _ => False
  end.
Proof.
  pose proof integration_tables as Hit.
  destruct (gen.NewGraph schemas.integration) as [g | e]; [ | discriminate].
  split; [exact Hit | ].
  apply (join_tables_cascade_entity_keys_set_null g migrate.Tables). exact Hit.
Defined.

(** The generated schema itself: its three join tables have the shape,
    the foreign keys of its eleven tables of nodes set null. *)
Example generated_tables_keys :
  forallb gen.joinTable
    [migrate.UserGroupsTable; migrate.UserFriendsTable; migrate.UserFollowingTable] = true ∧
  forallb gen.setNullKeys (take 11 migrate.Tables) = true ∧
  schema.OnDelete <$> schema.ForeignKeys migrate.CardsTable = [schema.SetNull] ∧
  schema.OnDelete <$> schema.ForeignKeys migrate.UserGroupsTable =
    [schema.Cascade; schema.Cascade].
Proof. repeat split; vm_compute; reflexivity. Qed.

(* ===================================================================== *)
(** * Part III. Further properties of the code *)
(* ===================================================================== *)

(** ** Loops that thread a result *)

Section holds.
Context {A B : Type}.
Implicit Types (E : gen.graphError → Prop) (r : gen.result A).

Lemma holds_bind {C} E (P : A → Prop) (Q : C → Prop) r (k : A → gen.result C) :
  graph.holds E P r → (∀ a, P a → graph.holds E Q (k a)) →
  graph.holds E Q (r ≫= k).
Proof. destruct r as [a | e]; cbn; auto. Qed.

Lemma holds_mono E (P Q : A → Prop) r :
  (∀ a, P a → Q a) → graph.holds E P r → graph.holds E Q r.
Proof. destruct r; cbn; auto. Qed.

Lemma holds_Ok E (P : A → Prop) r a :
  graph.holds E P r → r = gen.Ok a → P a.
Proof. by intros Hh ->. Qed.

(** An invariant of the elements a loop has gone through; the body may
    use that its element is one of the list. *)
Lemma foldl_holds E (P : list B → A → Prop) (f : A → B → gen.result A)
  (xs : list B) :
  ∀ pre all r,
    all = pre ++ xs →
    (∀ pre' x a, x ∈ xs → (∃ post, all = pre' ++ x :: post) →
       P pre' a → graph.holds E (P (pre' ++ [x])) (f a x)) →
    graph.holds E (P pre) r →
    graph.holds E (P all)
      (foldl (fun r x => r ≫= fun a => f a x) r xs).
Proof.
  induction xs as [| x xs IH]; intros pre all r Hall Hstep Hr; cbn.
  - rewrite app_nil_r in Hall. by subst.
  - apply (IH (pre ++ [x])).
    + by rewrite <- (assoc_L (++)).
    + intros pre' y a Hy Hpos. apply Hstep; [by right | done].
    + eapply holds_bind; [exact Hr | ]. intros a Ha.
      apply Hstep; [by left | eauto | done].
Qed.

End holds.

(** ** Graph construction: nodes and edges *)

Section construction.
Context `{gen.Naming}.
Implicit Types (g : gen.Graph) (t : gen.Type__) (e : gen.Edge).

Lemma addNodes (ss : list load.Schema) (ns : list gen.Type__) :
  foldl (fun (r : gen.result gen.Graph) s => r ≫= fun g => gen.addNode g s)
        (gen.Ok (gen.mkGraph ns)) ss =
  gen.Ok (gen.mkGraph (ns ++ (graph.newNode <$> ss))).
Proof.
  revert ns. induction ss as [| s ss IH]; intros ns; cbn.
  - by rewrite app_nil_r.
  - rewrite IH. by rewrite <- (assoc_L (++)).
Qed.

Lemma typ_Some g name i t :
  gen.typ g name = Some (i, t) →
  gen.Nodes g !! i = Some t ∧ gen.TypeName t = name ∧ i < length (gen.Nodes g).
Proof.
  unfold gen.typ. intros (Hi & Hn & _)%list_find_Some.
  split; [done | split; [done | by eapply lookup_lt_Some]].
Qed.

Lemma typ_declared g name :
  name ∈ gen.TypeName <$> gen.Nodes g → is_Some (gen.typ g name).
Proof.
  intros (t & -> & Ht)%list_elem_of_fmap. unfold gen.typ.
  by eapply list_find_elem_of.
Qed.

Lemma typ_None g name :
  gen.typ g name = None → name ∉ gen.TypeName <$> gen.Nodes g.
Proof.
  intros Hn Hin. apply typ_declared in Hin as [x Hx]. congruence.
Qed.

(** Nodes by position. *)
Lemma node_Ok g i t : gen.node g i = gen.Ok t ↔ gen.Nodes g !! i = Some t.
Proof.
  unfold gen.node, gen.deref. destruct (gen.Nodes g !! i); split; congruence.
Qed.

Lemma node_lt g i (E : gen.graphError → Prop) (P : gen.Type__ → Prop) :
  i < length (gen.Nodes g) →
  (∀ t, gen.Nodes g !! i = Some t → P t) →
  graph.holds E P (gen.node g i).
Proof.
  intros Hi HP. destruct (lookup_lt_is_Some_2 _ _ Hi) as [t Ht].
  unfold gen.node. rewrite Ht. cbn. auto.
Qed.

(** [set_node] and [set_edge] on the structure of the graph. *)
Lemma allEdges_set_node (P : gen.Edge → Prop) g i t :
  graph.allEdges P g → Forall P (gen.Edges t) →
  graph.allEdges P (gen.set_node i t g).
Proof. intros Hg Ht. unfold graph.allEdges, gen.set_node. cbn. by apply Forall_insert. Qed.

Lemma allEdges_lookup (P : gen.Edge → Prop) g i t :
  graph.allEdges P g → gen.Nodes g !! i = Some t → Forall P (gen.Edges t).
Proof. intros Hg Ht. by apply (Forall_lookup_1 _ _ _ _ Hg Ht). Qed.

Lemma allEdges_edgeAt (P : gen.Edge → Prop) g ti ei e :
  graph.allEdges P g → graph.edgeAt g ti ei = Some e → P e.
Proof.
  unfold graph.edgeAt. intros Hg He.
  destruct (gen.Nodes g !! ti) as [t | ] eqn:Ht; [ | done]. cbn in He.
  exact (Forall_lookup_1 _ _ _ _ (allEdges_lookup _ _ _ _ Hg Ht) He).
Qed.

Lemma allEdges_set_edge (P : gen.Edge → Prop) g ti ei e :
  graph.allEdges P g → P e → graph.allEdges P (gen.set_edge ti ei e g).
Proof.
  intros Hg He. unfold gen.set_edge.
  destruct (gen.Nodes g !! ti) as [t | ] eqn:Ht; [ | done].
  apply allEdges_set_node; [done | ]. cbn.
  apply Forall_insert; [ | done]. by eapply allEdges_lookup.
Qed.

Lemma allEdges_mono (P Q : gen.Edge → Prop) g :
  (∀ e, P e → Q e) → graph.allEdges P g → graph.allEdges Q g.
Proof.
  intros HPQ Hg. unfold graph.allEdges in *.
  eapply Forall_impl; [exact Hg | ]. intros t Ht. cbn in Ht.
  eapply Forall_impl; [exact Ht | exact HPQ].
Qed.

Lemma allEdges_and (P Q : gen.Edge → Prop) g :
  graph.allEdges P g → graph.allEdges Q g →
  graph.allEdges (fun e => P e ∧ Q e) g.
Proof.
  unfold graph.allEdges. intros HP HQ.
  apply Forall_lookup. intros i t Ht.
  apply Forall_lookup. intros j e He. split.
  - exact (Forall_lookup_1 _ _ _ _ (Forall_lookup_1 _ _ _ _ HP Ht) He).
  - exact (Forall_lookup_1 _ _ _ _ (Forall_lookup_1 _ _ _ _ HQ Ht) He).
Qed.

Lemma names_set_node g i t t' :
  gen.Nodes g !! i = Some t → gen.TypeName t' = gen.TypeName t →
  gen.TypeName <$> gen.Nodes (gen.set_node i t' g) = gen.TypeName <$> gen.Nodes g.
Proof.
  intros Ht Hn. unfold gen.set_node. cbn. rewrite list_fmap_insert, Hn.
  apply list_insert_id. by rewrite list_lookup_fmap, Ht.
Qed.

Lemma fields_set_node g i t t' :
  gen.Nodes g !! i = Some t → gen.Fields t' = gen.Fields t →
  gen.Fields <$> gen.Nodes (gen.set_node i t' g) = gen.Fields <$> gen.Nodes g.
Proof.
  intros Ht Hn. unfold gen.set_node. cbn. rewrite list_fmap_insert, Hn.
  apply list_insert_id. by rewrite list_lookup_fmap, Ht.
Qed.

Lemma length_set_node g i t :
  length (gen.Nodes (gen.set_node i t g)) = length (gen.Nodes g).
Proof. unfold gen.set_node. cbn. apply length_insert. Qed.

End construction.

Section attaching.
Context `{gen.Naming}.
Implicit Types (g : gen.Graph) (t : gen.Type__) (e : gen.Edge).

Lemma attached_length names fs g :
  graph.attached names fs g → length (gen.Nodes g) = length names.
Proof. intros (<- & _). by rewrite length_fmap. Qed.

(** The edges of one declaration point to nodes, or the declaration is
    reported as wrong. *)
Lemma addEdge_holds names fs g ti t (d : load.Edge) :
  graph.attached names fs g → ti < length names →
  graph.holds graph.reported
    (Forall (fun e => graph.pointsInto (length names) e ∧ graph.skeleton e = e))
    (gen.addEdge g ti t d).
Proof.
  intros Hg Hti. unfold gen.addEdge.
  destruct (gen.typ g (load.Type_ d)) as [[i t'] | ] eqn:Ht; [ | done].
  apply typ_Some in Ht as (_ & _ & Hi). rewrite (attached_length _ _ _ Hg) in Hi.
  destruct (load.Inverse d); cbn.
  - destruct (load.Ref d) as [ref | ].
    + eapply holds_bind with (P := fun _ => True).
      { unfold gen.expect. by destruct (bool_decide _). }
      intros _ _. eapply holds_bind with (P := fun _ => True).
      { unfold gen.expect. by destruct (bool_decide _). }
      intros _ _. cbn. repeat constructor; done.
    + eapply holds_bind with (P := fun _ => True).
      { unfold gen.expect. by destruct (negb _). }
      intros _ _. cbn. repeat constructor; done.
  - repeat constructor; done.
Qed.

(** [addEdges] keeps the nodes and attaches edges that point to nodes. *)
Lemma addEdges_holds names fs g (s : load.Schema) :
  graph.attached names fs g → load.SchemaName s ∈ names →
  graph.holds graph.reported (graph.attached names fs) (gen.addEdges g s).
Proof.
  intros Hg Hs. unfold gen.addEdges.
  destruct Hg as (Hn & Hf & He & Hi).
  assert (Hin : load.SchemaName s ∈ gen.TypeName <$> gen.Nodes g) by by rewrite Hn.
  apply typ_declared in Hin as [[ti t0] Ht]. rewrite Ht. cbn.
  apply typ_Some in Ht as (_ & _ & Hti).
  assert (Hlen : length (gen.Nodes g) = length names) by by rewrite <- Hn, length_fmap.
  rewrite Hlen in Hti.
  apply (foldl_holds graph.reported (fun _ g => graph.attached names fs g)
           (fun g d =>
              t ← gen.node g ti;
              es ← gen.addEdge g ti t d;
              gen.Ok (gen.set_node ti (gen.set_Edges (gen.Edges t ++ es) t) g))
           (load.Edges s) [] (load.Edges s)); [done | | by cbn].
  clear dependent g. intros _ d g _ _ Hg.
  pose proof (attached_length _ _ _ Hg) as Hlen.
  eapply (holds_bind _ (fun t => gen.Nodes g !! ti = Some t));
    [apply node_lt; [lia | auto] | ]. intros t Ht.
  eapply holds_bind; [by apply (addEdge_holds names fs) | ].
  intros es Hes. cbn. destruct Hg as (Hn & Hf & He & Hi).
  split; [ | split; [ | split]].
  - rewrite <- Hn. by eapply names_set_node.
  - rewrite <- Hf. by eapply fields_set_node.
  - apply allEdges_set_node; [done | ]. cbn. apply Forall_app. split; [ | done].
    by eapply allEdges_lookup.
  - unfold gen.set_node. cbn. apply Forall_insert; [done | ]. cbn.
    exact (Forall_lookup_1 _ _ _ _ Hi Ht).
Qed.

End attaching.

(** ** Resolution *)

Section resolution.
Context `{gen.Naming}.
Implicit Types (g : gen.Graph) (t : gen.Type__) (e : gen.Edge).

Lemma edgeAt_Some g ti ei e :
  graph.edgeAt g ti ei = Some e ↔
  ∃ t, gen.Nodes g !! ti = Some t ∧ gen.Edges t !! ei = Some e.
Proof.
  unfold graph.edgeAt. destruct (gen.Nodes g !! ti) as [t | ]; cbn.
  - split; [eauto | ]. by intros (t' & [= <-] & He).
  - split; [done | ]. by intros (t' & [=] & _).
Qed.

Lemma edgeAt_set_edge_eq g ti ei e e' :
  graph.edgeAt g ti ei = Some e →
  graph.edgeAt (gen.set_edge ti ei e' g) ti ei = Some e'.
Proof.
  intros (t & Ht & He)%edgeAt_Some. unfold gen.set_edge. rewrite Ht.
  apply edgeAt_Some. eexists. split.
  - unfold gen.set_node. cbn. apply list_lookup_insert_eq. by eapply lookup_lt_Some.
  - cbn. apply list_lookup_insert_eq. by eapply lookup_lt_Some.
Qed.

Lemma edgeAt_set_edge_ne g ti ei e' tj ej :
  (ti, ei) ≠ (tj, ej) →
  graph.edgeAt (gen.set_edge ti ei e' g) tj ej = graph.edgeAt g tj ej.
Proof.
  intros Hne. unfold gen.set_edge.
  destruct (gen.Nodes g !! ti) as [t | ] eqn:Ht; [ | done].
  unfold graph.edgeAt, gen.set_node. cbn.
  destruct (decide (ti = tj)) as [<- | Hij].
  - rewrite list_lookup_insert_eq by by eapply lookup_lt_Some.
    rewrite Ht. cbn. apply list_lookup_insert_ne. congruence.
  - by rewrite list_lookup_insert_ne.
Qed.

Lemma skeleton_set_Rel r e : graph.skeleton (gen.set_Rel r e) = graph.skeleton e.
Proof. reflexivity. Qed.

Lemma skeleton_set_SelfRef b e :
  graph.skeleton (gen.set_SelfRef b e) = graph.skeleton e.
Proof. reflexivity. Qed.

Lemma skeleton_set_edge g ti ei e e' :
  graph.edgeAt g ti ei = Some e → graph.skeleton e' = graph.skeleton e →
  graph.skeletonGraph (gen.set_edge ti ei e' g) = graph.skeletonGraph g.
Proof.
  intros (t & Ht & He)%edgeAt_Some Hsk. unfold gen.set_edge. rewrite Ht.
  unfold graph.skeletonGraph, gen.set_node. cbn. f_equal.
  rewrite list_fmap_insert. apply list_insert_id.
  rewrite list_lookup_fmap, Ht. cbn. f_equal.
  unfold graph.skeletonType. cbn. f_equal. symmetry.
  rewrite list_fmap_insert, Hsk. apply list_insert_id.
  by rewrite list_lookup_fmap, He.
Qed.

(** One edge gets a complete relation: the graph keeps its structure and
    its complete relations, and what was resolved stays resolved. *)
Lemma set_edge_resolved names g ti ei e e' :
  graph.edgeAt g ti ei = Some e →
  graph.skeleton e' = graph.skeleton e →
  graph.relationOk names e' → graph.resolvedEdge e' →
  graph.allEdges (graph.relationOk names) g →
  let g' := gen.set_edge ti ei e' g in
  graph.skeletonGraph g' = graph.skeletonGraph g ∧
  graph.allEdges (graph.relationOk names) g' ∧
  (∀ tj ej, graph.resolvedAt g tj ej → graph.resolvedAt g' tj ej) ∧
  graph.resolvedAt g' ti ei ∧
  (∀ tj ej, (ti, ei) ≠ (tj, ej) → graph.edgeAt g' tj ej = graph.edgeAt g tj ej).
Proof.
  intros He Hsk Hok Hres Hall g'.
  assert (Hat : graph.edgeAt g' ti ei = Some e') by by eapply edgeAt_set_edge_eq.
  split; [by eapply skeleton_set_edge | ].
  split; [by apply allEdges_set_edge | ].
  split; [ | split].
  - intros tj ej (e0 & He0 & Hr0).
    destruct (decide ((ti, ei) = (tj, ej))) as [[= <- <-] | Hne].
    + by exists e'.
    + exists e0. split; [ | done]. unfold g'. by rewrite edgeAt_set_edge_ne.
  - by exists e'.
  - intros tj ej Hne. by apply edgeAt_set_edge_ne.
Qed.

Lemma table_declared g i t :
  gen.Nodes g !! i = Some t →
  gen.Table (gen.TypeName t) ∈ gen.Table <$> (gen.TypeName <$> gen.Nodes g).
Proof.
  intros Ht. apply list_elem_of_fmap. exists (gen.TypeName t). split; [done | ].
  apply list_elem_of_fmap. exists t. split; [done | ]. by eapply list_elem_of_lookup_2.
Qed.

Lemma HasAssoc_Some t name ri ref :
  gen.HasAssoc t name = Some (ri, ref) →
  gen.Edges t !! ri = Some ref ∧ gen.Name ref = name ∧ gen.IsInverse ref = false.
Proof. unfold gen.HasAssoc. intros (Hi & [Hn Hinv] & _)%list_find_Some. done. Qed.

Lemma refines_refl names g :
  graph.allEdges (graph.relationOk names) g → graph.refines names g g.
Proof. intros Hg. split; [done | split; [done | auto]]. Qed.

Lemma refines_trans names g1 g2 g3 :
  graph.refines names g1 g2 → graph.refines names g2 g3 →
  graph.refines names g1 g3.
Proof.
  intros (S1 & A1 & M1) (S2 & A2 & M2).
  split; [congruence | split; [done | auto]].
Qed.

Lemma refines_set_edge names g ti ei e e' :
  graph.edgeAt g ti ei = Some e →
  graph.skeleton e' = graph.skeleton e →
  graph.relationOk names e' → graph.resolvedEdge e' →
  graph.allEdges (graph.relationOk names) g →
  graph.refines names g (gen.set_edge ti ei e' g) ∧
  graph.resolvedAt (gen.set_edge ti ei e' g) ti ei.
Proof.
  intros He Hsk Hok Hres Hall.
  destruct (set_edge_resolved names g ti ei e e' He Hsk Hok Hres Hall)
    as (S & A & M & R & _).
  by repeat split.
Qed.

(** The two edges of a pair get their relations. *)
Lemma refines_set_edges names g ti ei e e' tj ri ref ref' :
  graph.edgeAt g ti ei = Some e → graph.edgeAt g tj ri = Some ref →
  (ti, ei) ≠ (tj, ri) →
  graph.skeleton e' = graph.skeleton e → graph.skeleton ref' = graph.skeleton ref →
  graph.relationOk names e' → graph.relationOk names ref' →
  graph.resolvedEdge e' → graph.resolvedEdge ref' →
  graph.allEdges (graph.relationOk names) g →
  let g' := gen.set_edge tj ri ref' (gen.set_edge ti ei e' g) in
  graph.refines names g g' ∧ graph.resolvedAt g' ti ei.
Proof.
  intros He Href Hne Hsk Hskr Hok Hokr Hres Hresr Hall g'.
  destruct (set_edge_resolved names g ti ei e e' He Hsk Hok Hres Hall)
    as (S1 & A1 & M1 & R1 & F1).
  assert (Href1 : graph.edgeAt (gen.set_edge ti ei e' g) tj ri = Some ref)
    by by rewrite F1.
  destruct (refines_set_edge names _ tj ri ref ref' Href1 Hskr Hokr Hresr A1)
    as [(S2 & A2 & M2) R2].
  cbv zeta in *. unfold g'.
  split; [split; [by rewrite S2 | split; [done | auto]] | ].
  apply M2. exact R1.
Qed.

Lemma relationOk_one names (kind : gen.Rel) (table : string) (c : string) e :
  kind ≠ gen.Unk → kind ≠ gen.M2M → table ∈ gen.Table <$> names →
  graph.relationOk names (gen.set_Rel (gen.mkRelation kind table [c]) e).
Proof. intros H1 H2 Ht. unfold graph.relationOk. cbn. by destruct kind. Qed.

Lemma relationOk_two names (table : string) (c1 c2 : string) e :
  graph.relationOk names (gen.set_Rel (gen.mkRelation gen.M2M table [c1; c2]) e).
Proof. reflexivity. Qed.

(** The body of the loop of [resolve]: on a graph whose edges point to
    nodes, it either reports a failure or gives the edge a complete
    relation; it never panics. *)
Lemma resolveEdge_holds g ti ei e :
  let names := gen.TypeName <$> gen.Nodes g in
  graph.allEdges (graph.pointsInto (length (gen.Nodes g))) g →
  graph.allEdges (graph.relationOk names) g →
  graph.edgeAt g ti ei = Some e →
  graph.holds graph.reported
    (fun g' => graph.refines names g g' ∧ graph.resolvedAt g' ti ei ∧
               graph.inverseOk g ti e)
    (gen.resolveEdge g ti ei).
Proof.
  intros names Hp Hr He.
  pose proof (allEdges_edgeAt _ _ _ _ _ Hp He) as [Hpt Hpo].
  pose proof (allEdges_edgeAt _ _ _ _ _ Hr He) as Hre.
  pose proof He as (t & Ht & Het)%edgeAt_Some.
  pose proof (table_declared _ _ _ Ht) as Htab. fold names in Htab.
  unfold gen.resolveEdge, gen.node. rewrite Ht. cbn. rewrite Het. cbn.
  destruct (gen.IsInverse e) eqn:Hinv.
  - destruct (lookup_lt_is_Some_2 _ _ Hpt) as [etype Hetype]. rewrite Hetype. cbn.
    pose proof (table_declared _ _ _ Hetype) as Htabe. fold names in Htabe.
    destruct (gen.HasAssoc etype (gen.Inverse e)) as [[ri ref] | ] eqn:Hha; [ | done].
    pose proof (HasAssoc_Some _ _ _ _ Hha) as (Href & Hname & Hrinv).
    destruct (negb (gen.Optional e) && negb (gen.Optional ref)) eqn:Hopt; [done | ].
    destruct (bool_decide (gen.Type_ ref = ti)) eqn:Hty; cbn; [ | done].
    apply bool_decide_eq_true in Hty.
    assert (Hinvok : graph.inverseOk g ti e).
    { intros _. exists etype, ri, ref. repeat split; try done.
      destruct (gen.Optional e), (gen.Optional ref); cbn in Hopt; auto. }
    assert (Hrefat : graph.edgeAt g (gen.Type_ e) ri = Some ref).
    { apply edgeAt_Some. eauto. }
    assert (Hne : (ti, ei) ≠ (gen.Type_ e, ri)).
    { intros [= Hti Hei]. rewrite <- Hti, <- Hei in Hrefat. congruence. }
    pose proof (allEdges_edgeAt _ _ _ _ _ Hp Hrefat) as [Hrpt Hrpo].
    destruct (gen.Unique ref), (gen.Unique e); cbn.
    + apply and_assoc. split; [ | done].
      apply (refines_set_edges names g ti ei e _ _ ri ref _ He Hrefat Hne);
        try done; try (by apply relationOk_one).
    + apply and_assoc. split; [ | done].
      apply (refines_set_edges names g ti ei e _ _ ri ref _ He Hrefat Hne);
        try done; try (by apply relationOk_one).
    + apply and_assoc. split; [ | done].
      apply (refines_set_edges names g ti ei e _ _ ri ref _ He Hrefat Hne);
        try done; try (by apply relationOk_one).
    + destruct (lookup_lt_is_Some_2 _ _ Hrpo) as [rowner ->]. cbn.
      destruct (lookup_lt_is_Some_2 _ _ Hrpt) as [rtype ->]. cbn.
      apply and_assoc. split; [ | done].
      apply (refines_set_edges names g ti ei e _ _ ri ref _ He Hrefat Hne);
        try done; try apply relationOk_two.
  - assert (Hinvok : graph.inverseOk g ti e) by (intros ?; congruence).
    destruct (bool_decide (gen.RelType (gen.Rel_ e) = gen.Unk)) eqn:Hunk; cbn.
    + apply bool_decide_eq_true in Hunk.
      assert (Hcols : gen.Columns (gen.Rel_ e) = []).
      { unfold graph.relationOk in Hre. by rewrite Hunk in Hre. }
      unfold gen.IsM2M.
      destruct (gen.Unique e) eqn:Hu; cbn.
      * destruct (bool_decide (gen.Type_ e = ti)); cbn;
          rewrite bool_decide_eq_false_2 by done; cbn;
          (apply and_assoc; split; [ | done]);
          apply (refines_set_edge names g ti ei e); try done; try (by apply relationOk_one).
      * destruct (bool_decide (gen.Type_ e = ti)); cbn.
        -- destruct (lookup_lt_is_Some_2 _ _ Hpo) as [eowner ->]. cbn.
           rewrite bool_decide_eq_true_2 by done. cbn.
           apply and_assoc. split; [ | done].
           apply (refines_set_edge names g ti ei e); try done.
           all: try (unfold graph.relationOk; cbn; by rewrite Hcols).
        -- destruct (lookup_lt_is_Some_2 _ _ Hpt) as [etype Hetype].
           rewrite Hetype. cbn.
           pose proof (table_declared _ _ _ Hetype) as Htabe. fold names in Htabe.
           rewrite bool_decide_eq_false_2 by done. cbn.
           apply and_assoc. split; [ | done].
           apply (refines_set_edge names g ti ei e); try done; try (by apply relationOk_one).
    + apply bool_decide_eq_false in Hunk.
      split; [by apply refines_refl | split; [ | done]].
      by exists e.
Qed.

End resolution.

Section skeletons.
Context `{gen.Naming}.
Implicit Types (g : gen.Graph) (t : gen.Type__) (e : gen.Edge).

Lemma skeleton_names g g' :
  graph.skeletonGraph g' = graph.skeletonGraph g →
  gen.TypeName <$> gen.Nodes g' = gen.TypeName <$> gen.Nodes g.
Proof.
  intros [= Hs]. apply (f_equal (fmap gen.TypeName)) in Hs.
  by rewrite <- !list_fmap_compose in Hs.
Qed.

Lemma skeleton_fields g g' :
  graph.skeletonGraph g' = graph.skeletonGraph g →
  gen.Fields <$> gen.Nodes g' = gen.Fields <$> gen.Nodes g.
Proof.
  intros [= Hs]. apply (f_equal (fmap gen.Fields)) in Hs.
  by rewrite <- !list_fmap_compose in Hs.
Qed.

Lemma skeleton_length g g' :
  graph.skeletonGraph g' = graph.skeletonGraph g →
  length (gen.Nodes g') = length (gen.Nodes g).
Proof.
  intros Hs%skeleton_names. apply (f_equal length) in Hs.
  by rewrite !length_fmap in Hs.
Qed.

Lemma edgeAt_skeleton g ti ei :
  graph.edgeAt (graph.skeletonGraph g) ti ei = graph.skeleton <$> graph.edgeAt g ti ei.
Proof.
  unfold graph.edgeAt, graph.skeletonGraph. cbn. rewrite list_lookup_fmap.
  destruct (gen.Nodes g !! ti) as [t | ]; cbn; [ | done].
  by rewrite list_lookup_fmap.
Qed.

Lemma skeleton_edgeAt g g' ti ei e :
  graph.skeletonGraph g' = graph.skeletonGraph g →
  graph.edgeAt g ti ei = Some e →
  ∃ e', graph.edgeAt g' ti ei = Some e' ∧ graph.skeleton e' = graph.skeleton e.
Proof.
  intros Hs He. pose proof (edgeAt_skeleton g' ti ei) as H1.
  rewrite Hs, edgeAt_skeleton, He in H1. cbn in H1.
  destruct (graph.edgeAt g' ti ei) as [e' | ]; [ | done].
  exists e'. split; [done | ]. cbn in H1. congruence.
Qed.

Lemma allEdges_skeleton (P : gen.Edge → Prop) g :
  (∀ e, P (graph.skeleton e) ↔ P e) →
  graph.allEdges P (graph.skeletonGraph g) ↔ graph.allEdges P g.
Proof.
  intros HP. unfold graph.allEdges, graph.skeletonGraph. cbn.
  rewrite Forall_fmap. apply Forall_iff. intros t. cbn.
  rewrite Forall_fmap. apply Forall_iff. intros e. apply HP.
Qed.

Lemma skeleton_pointers n g g' :
  graph.skeletonGraph g' = graph.skeletonGraph g →
  graph.allEdges (graph.pointsInto n) g → graph.allEdges (graph.pointsInto n) g'.
Proof.
  intros Hs Hg. apply (allEdges_skeleton (graph.pointsInto n)); [done | ].
  rewrite Hs. by apply (allEdges_skeleton (graph.pointsInto n)).
Qed.

Lemma HasAssoc_skeleton t name :
  gen.HasAssoc (graph.skeletonType t) name =
  prod_map id graph.skeleton <$> gen.HasAssoc t name.
Proof.
  unfold gen.HasAssoc, graph.skeletonType. cbn.
  induction (gen.Edges t) as [| e es IH]; [done | ]. cbn.
  change (gen.Name (graph.skeleton e)) with (gen.Name e).
  change (gen.IsInverse (graph.skeleton e)) with (gen.IsInverse e).
  destruct (decide (gen.Name e = name ∧ gen.IsInverse e = false)); [done | ].
  rewrite IH. by destruct (list_find _ es) as [[i x] | ].
Qed.

(** Whether an inverse edge has its counterpart is a matter of the
    structure of the graph. *)
Lemma inverseOk_skeleton g ti e :
  graph.inverseOk (graph.skeletonGraph g) ti (graph.skeleton e) ↔
  graph.inverseOk g ti e.
Proof.
  unfold graph.inverseOk.
  change (gen.IsInverse (graph.skeleton e)) with (gen.IsInverse e).
  change (gen.Type_ (graph.skeleton e)) with (gen.Type_ e).
  change (gen.Inverse (graph.skeleton e)) with (gen.Inverse e).
  change (gen.Optional (graph.skeleton e)) with (gen.Optional e).
  split; intros Hok Hinv; destruct (Hok Hinv) as (etype & ri & ref & Hn & Hh & Ht & Ho).
  - unfold graph.skeletonGraph in Hn. cbn in Hn. rewrite list_lookup_fmap in Hn.
    destruct (gen.Nodes g !! gen.Type_ e) as [etype0 | ] eqn:Hn0; [ | done].
    injection Hn as <-. rewrite HasAssoc_skeleton in Hh.
    destruct (gen.HasAssoc etype0 (gen.Inverse e)) as [[ri0 ref0] | ] eqn:Hh0;
      [ | done].
    cbn in Hh. injection Hh as <- <-. exists etype0, ri0, ref0. by repeat split.
  - exists (graph.skeletonType etype), ri, (graph.skeleton ref).
    split; [ | split; [ | by split]].
    + unfold graph.skeletonGraph. cbn. by rewrite list_lookup_fmap, Hn.
    + by rewrite HasAssoc_skeleton, Hh.
Qed.

End skeletons.

Section resolving.
Context `{gen.Naming}.
Implicit Types (g : gen.Graph) (t : gen.Type__) (e : gen.Edge).

Lemma refines_resolvedAt names g g' ti ei :
  graph.refines names g g' → graph.resolvedAt g ti ei → graph.resolvedAt g' ti ei.
Proof. intros (_ & _ & M). apply M. Qed.

(** [resolve] on a node: every edge of the node gets a complete relation,
    or a failure is reported. *)
Lemma resolve_holds g ti :
  let names := gen.TypeName <$> gen.Nodes g in
  graph.allEdges (graph.pointsInto (length (gen.Nodes g))) g →
  graph.allEdges (graph.relationOk names) g →
  ti < length (gen.Nodes g) →
  graph.holds graph.reported
    (fun g' => graph.refines names g g' ∧ graph.nodeResolved g g' ti)
    (gen.resolve g ti).
Proof.
  intros names Hp Hr Hti. unfold gen.resolve, gen.node.
  destruct (lookup_lt_is_Some_2 _ _ Hti) as [t Ht]. rewrite Ht. cbn.
  set (P := fun (pre : list nat) g' =>
              graph.refines names g g' ∧
              ∀ ei, ei ∈ pre → ∀ e, graph.edgeAt g ti ei = Some e →
                graph.resolvedAt g' ti ei ∧
                graph.inverseOk (graph.skeletonGraph g) ti (graph.skeleton e)).
  apply (holds_mono _ (P (seq 0 (length (gen.Edges t))))).
  { intros g' [Href Hall]. split; [done | ]. intros ei e He.
    apply (Hall ei); [ | done]. apply elem_of_seq.
    apply edgeAt_Some in He as (t' & Ht' & He). rewrite Ht in Ht'.
    injection Ht' as <-. apply lookup_lt_Some in He. lia. }
  apply (foldl_holds graph.reported P (fun g' ei => gen.resolveEdge g' ti ei)
           (seq 0 (length (gen.Edges t))) [] _ (gen.Ok g)); [done | | ].
  - intros pre x g' Hx _ [Href Hall].
    apply elem_of_seq in Hx.
    destruct (lookup_lt_is_Some_2 (gen.Edges t) x) as [e He]; [lia | ].
    assert (Hat : graph.edgeAt g ti x = Some e) by (apply edgeAt_Some; eauto).
    pose proof Href as (Hs & Hr' & Hm).
    destruct (skeleton_edgeAt g g' ti x e Hs Hat) as (e' & Hat' & Hse).
    pose proof (resolveEdge_holds g' ti x e') as Hstep. cbv zeta in Hstep.
    rewrite (skeleton_names _ _ Hs), (skeleton_length _ _ Hs) in Hstep.
    fold names in Hstep.
    specialize (Hstep (skeleton_pointers _ _ _ Hs Hp) Hr' Hat').
    eapply holds_mono; [ | exact Hstep]. cbn.
    intros g'' (Href' & Hres & Hinv). split; [by eapply refines_trans | ].
    intros ei [Hin | ->%list_elem_of_singleton]%elem_of_app e0 He0.
    + destruct (Hall ei Hin e0 He0) as [Hr0 Hi0]. split; [ | done].
      by eapply refines_resolvedAt.
    + split; [done | ]. rewrite Hat in He0. injection He0 as <-.
      rewrite <- Hse, <- Hs. by apply inverseOk_skeleton.
  - split; [by apply refines_refl | ]. intros ei Hei. by apply elem_of_nil in Hei.
Qed.

End resolving.

(** ** [NewGraph], phase by phase *)

Section newgraph.
Context `{gen.Naming}.
Implicit Types (g : gen.Graph) (t : gen.Type__) (e : gen.Edge).

Lemma attached_relationOk names fs g :
  graph.attached names fs g → graph.allEdges (graph.relationOk names) g.
Proof.
  intros (_ & _ & He & _). eapply allEdges_mono; [ | exact He].
  intros e [_ Hs]. unfold graph.relationOk. by rewrite <- Hs.
Qed.

Lemma attached_pointers names fs g :
  graph.attached names fs g →
  graph.allEdges (graph.pointsInto (length (gen.Nodes g))) g.
Proof.
  intros Hg. rewrite (attached_length _ _ _ Hg). destruct Hg as (_ & _ & He & _).
  eapply allEdges_mono; [ | exact He]. by intros e [Hp _].
Qed.

Lemma attached_newNodes (ss : list load.Schema) :
  graph.attached (load.SchemaName <$> ss) (load.Fields <$> ss)
    (gen.mkGraph (graph.newNode <$> ss)).
Proof.
  split; [ | split; [ | split]]; cbn.
  - by rewrite <- list_fmap_compose.
  - by rewrite <- list_fmap_compose.
  - unfold graph.allEdges. cbn. apply Forall_fmap, Forall_forall. intros s _. cbn.
    constructor.
  - apply Forall_fmap, Forall_forall. by intros s _.
Qed.

Lemma addEdges_all names fs g (ss : list load.Schema) :
  graph.attached names fs g →
  (∀ s, s ∈ ss → load.SchemaName s ∈ names) →
  graph.holds graph.reported (graph.attached names fs)
    (foldl (fun (r : gen.result gen.Graph) s => r ≫= fun g => gen.addEdges g s)
           (gen.Ok g) ss).
Proof.
  intros Hg Hss.
  apply (foldl_holds graph.reported (fun _ g => graph.attached names fs g)
           gen.addEdges ss [] ss (gen.Ok g)); [done | | done].
  intros _ s g' Hs _ Hg'. apply addEdges_holds; auto.
Qed.

Lemma nodeResolved_refines names g g1 g2 ti :
  graph.refines names g g1 → graph.nodeResolved g1 g2 ti →
  graph.nodeResolved g g2 ti.
Proof.
  intros (Hs & _ & _) Hn ei e He.
  destruct (skeleton_edgeAt g g1 ti ei e Hs He) as (e' & He' & Hse).
  destruct (Hn ei e' He') as [Hr Hi]. split; [done | ].
  by rewrite <- Hs, <- Hse.
Qed.

Lemma nodeResolved_mono names g g1 g2 ti :
  graph.nodeResolved g g1 ti → graph.refines names g1 g2 →
  graph.nodeResolved g g2 ti.
Proof.
  intros Hn Href ei e He. destruct (Hn ei e He) as [Hr Hi].
  split; [by eapply refines_resolvedAt | done].
Qed.

(** The third phase: every edge of every node is resolved. *)
Lemma resolve_all names fs g :
  graph.attached names fs g →
  graph.holds graph.reported
    (fun g' => graph.refines names g g' ∧ ∀ ti, graph.nodeResolved g g' ti)
    (foldl (fun (r : gen.result gen.Graph) ti => r ≫= fun g => gen.resolve g ti)
           (gen.Ok g) (seq 0 (length (gen.Nodes g)))).
Proof.
  intros Hg.
  pose proof (attached_relationOk _ _ _ Hg) as Hr.
  pose proof (attached_pointers _ _ _ Hg) as Hp.
  assert (Hn : gen.TypeName <$> gen.Nodes g = names) by by destruct Hg.
  set (P := fun (pre : list nat) g' =>
              graph.refines names g g' ∧
              ∀ ti, ti ∈ pre → graph.nodeResolved g g' ti).
  apply (holds_mono _ (P (seq 0 (length (gen.Nodes g))))).
  { intros g' [Href Hall]. split; [done | ]. intros ti.
    destruct (decide (ti < length (gen.Nodes g))) as [Hlt | Hge].
    - apply Hall, elem_of_seq. lia.
    - intros ei e He. apply edgeAt_Some in He as (t & Ht%lookup_lt_Some & _). lia. }
  apply (foldl_holds graph.reported P gen.resolve
           (seq 0 (length (gen.Nodes g))) [] _ (gen.Ok g)); [done | | ].
  - intros pre ti g' Hti%elem_of_seq _ [Href Hall].
    pose proof Href as (Hs & Hr' & _).
    pose proof (resolve_holds g' ti) as Hstep. cbv zeta in Hstep.
    rewrite (skeleton_names _ _ Hs), (skeleton_length _ _ Hs), Hn in Hstep.
    specialize (Hstep (skeleton_pointers _ _ _ Hs Hp) Hr' ltac:(lia)).
    eapply holds_mono; [ | exact Hstep]. cbn.
    intros g'' [Href' Hres]. split; [by eapply refines_trans | ].
    intros tj [Hin | ->%list_elem_of_singleton]%elem_of_app.
    + eapply nodeResolved_mono; [by apply Hall | done].
    + by eapply nodeResolved_refines.
  - split; [by apply refines_refl | ]. intros ti Hti. by apply elem_of_nil in Hti.
Qed.

(** The fourth phase: indexes are added to the nodes, nothing else
    changes. *)
Lemma refines_set_Indexes names g ti t ix :
  graph.allEdges (graph.relationOk names) g →
  gen.Nodes g !! ti = Some t →
  graph.refines names g (gen.set_node ti (gen.set_Indexes ix t) g).
Proof.
  intros Hr Ht. split; [ | split].
  - unfold graph.skeletonGraph, gen.set_node. cbn. f_equal.
    rewrite list_fmap_insert. apply list_insert_id.
    by rewrite list_lookup_fmap, Ht.
  - apply allEdges_set_node; [done | ]. cbn. by eapply allEdges_lookup.
  - intros tj ej (e & He & Hres). exists e. split; [ | done].
    unfold graph.edgeAt, gen.set_node in *. cbn.
    destruct (decide (tj = ti)) as [-> | Hne].
    + rewrite list_lookup_insert_eq by by eapply lookup_lt_Some.
      by rewrite Ht in He.
    + by rewrite list_lookup_insert_ne.
Qed.

Lemma addIndexes_holds names g (s : load.Schema) :
  graph.allEdges (graph.relationOk names) g →
  load.SchemaName s ∈ gen.TypeName <$> gen.Nodes g →
  graph.holds graph.reported (graph.refines names g) (gen.addIndexes g s).
Proof.
  intros Hr Hs. unfold gen.addIndexes.
  apply typ_declared in Hs as [[ti t0] Ht]. rewrite Ht. cbn.
  apply typ_Some in Ht as (_ & _ & Hti).
  apply (foldl_holds graph.reported (fun _ g' => graph.refines names g g') _
           (load.Indexes s) [] (load.Indexes s)); [done | | by apply refines_refl].
  intros _ idx g' _ _ Href. pose proof Href as (Hs & Hr' & _).
  eapply (holds_bind _ (fun t => gen.Nodes g' !! ti = Some t)).
  { apply node_lt; [ | auto]. by rewrite (skeleton_length _ _ Hs). }
  intros t Ht. cbn. eapply refines_trans; [exact Href | ].
  by apply refines_set_Indexes.
Qed.

Lemma addIndexes_all names g (ss : list load.Schema) :
  graph.allEdges (graph.relationOk names) g →
  (∀ s, s ∈ ss → load.SchemaName s ∈ gen.TypeName <$> gen.Nodes g) →
  graph.holds graph.reported (graph.refines names g)
    (foldl (fun (r : gen.result gen.Graph) s => r ≫= fun g => gen.addIndexes g s)
           (gen.Ok g) ss).
Proof.
  intros Hr Hss.
  apply (foldl_holds graph.reported (fun _ g' => graph.refines names g g')
           gen.addIndexes ss [] ss (gen.Ok g)); [done | | by apply refines_refl].
  intros _ s g' Hs _ Href. pose proof Href as (Hsk & Hr' & _).
  eapply holds_mono; [intros g'' Hg''; eapply refines_trans; [exact Href | exact Hg''] | ].
  apply addIndexes_holds; [done | ]. rewrite (skeleton_names _ _ Hsk). auto.
Qed.

(** [NewGraph]: the result is a graph of the nodes of the schemas whose
    edges are all resolved, or a failure that is reported. *)
Lemma NewGraph_holds (ss : list load.Schema) :
  let names := load.SchemaName <$> ss in
  graph.holds graph.reported
    (fun g => ∃ g2, graph.attached names (load.Fields <$> ss) g2 ∧
                    graph.refines names g2 g ∧
                    ∀ ti, graph.nodeResolved g2 g ti)
    (gen.NewGraph ss).
Proof.
  intros names. unfold gen.NewGraph.
  rewrite (addNodes ss []). cbn.
  eapply holds_bind.
  { apply (addEdges_all names (load.Fields <$> ss)); [apply attached_newNodes | ].
    intros s Hs. by apply list_elem_of_fmap_2. }
  intros g2 Hg2. cbn beta.
  eapply holds_bind; [by apply (resolve_all names (load.Fields <$> ss)) | ].
  intros g3 [Href Hall]. cbn beta. pose proof Href as (Hsk & Hr3 & _).
  eapply holds_mono; [ | apply (addIndexes_all names g3 ss)]; [ | done | ].
  - intros g4 Href4. exists g2. split; [done | ].
    split; [by eapply refines_trans | ].
    intros ti. by eapply nodeResolved_mono.
  - intros s Hs. rewrite (skeleton_names _ _ Hsk).
    destruct Hg2 as (-> & _). by apply list_elem_of_fmap_2.
Qed.

End newgraph.

(** ** What [NewGraph] guarantees *)

Section guarantees.
Context `{gen.Naming}.
Implicit Types (g : gen.Graph) (t : gen.Type__) (e : gen.Edge).

Lemma allEdges_of_edgeAt (P : gen.Edge → Prop) g :
  (∀ ti ei e, graph.edgeAt g ti ei = Some e → P e) → graph.allEdges P g.
Proof.
  intros HP. apply Forall_lookup. intros ti t Ht.
  apply Forall_lookup. intros ei e He. apply (HP ti ei).
  apply edgeAt_Some. eauto.
Qed.

(** X1.  The nodes of the graph are the schemas, in the order they were
    given, each with the name and the fields of its schema. *)
Theorem NewGraph_nodes (ss : list load.Schema) g :
  gen.NewGraph ss = gen.Ok g →
  gen.TypeName <$> gen.Nodes g = load.SchemaName <$> ss ∧
  gen.Fields <$> gen.Nodes g = load.Fields <$> ss.
Proof.
  intros Hg. pose proof (NewGraph_holds ss) as Hh. rewrite Hg in Hh.
  destruct Hh as (g2 & (Hn & Hf & _) & (Hs & _) & _).
  split.
  - by rewrite (skeleton_names _ _ Hs).
  - by rewrite (skeleton_fields _ _ Hs).
Qed.

(** X2.  In the graph every edge points to nodes of the graph and has a
    relation: a kind, and either the two columns of a join table or one
    column on the table of a node. *)
Theorem NewGraph_edges_resolved (ss : list load.Schema) g :
  gen.NewGraph ss = gen.Ok g →
  graph.allEdges
    (fun e => graph.pointsInto (length (gen.Nodes g)) e ∧
              graph.resolvedEdge e ∧
              graph.relationOk (gen.TypeName <$> gen.Nodes g) e) g.
Proof.
  intros Hg. pose proof (NewGraph_holds ss) as Hh. rewrite Hg in Hh.
  destruct Hh as (g2 & Hg2 & (Hs & Hr & _) & Hall).
  pose proof Hg2 as (Hn & _).
  apply allEdges_and; [ | apply allEdges_and].
  - rewrite (skeleton_length _ _ Hs). eapply skeleton_pointers; [exact Hs | ].
    by eapply attached_pointers.
  - apply allEdges_of_edgeAt. intros ti ei e He.
    destruct (skeleton_edgeAt g g2 ti ei e (eq_sym Hs) He) as (e2 & He2 & _).
    destruct (Hall ti ei e2 He2) as [(e' & He' & Hres) _]. congruence.
  - by rewrite (skeleton_names _ _ Hs), Hn.
Qed.

(** X3.  Whatever the schemas, [NewGraph] does not dereference a nil type
    or edge: its failures are the ones it reports. *)
Theorem NewGraph_never_panics (ss : list load.Schema) (what : string) :
  gen.NewGraph ss ≠ gen.Err (gen.Panic what).
Proof.
  intros Hg. pose proof (NewGraph_holds ss) as Hh. rewrite Hg in Hh. exact Hh.
Qed.

(** X4.  In the graph every inverse edge has its forward edge: the type it
    points to has an edge of the referenced name that is not an inverse,
    that edge points back to the type of the inverse edge, and one of the
    two is optional. *)
Theorem NewGraph_inverse_edges (ss : list load.Schema) g ti ei e :
  gen.NewGraph ss = gen.Ok g →
  graph.edgeAt g ti ei = Some e →
  graph.inverseOk g ti e.
Proof.
  intros Hg He. pose proof (NewGraph_holds ss) as Hh. rewrite Hg in Hh.
  destruct Hh as (g2 & _ & (Hs & _) & Hall).
  destruct (skeleton_edgeAt g g2 ti ei e (eq_sym Hs) He) as (e2 & He2 & Hse).
  destruct (Hall ti ei e2 He2) as [_ Hinv].
  apply inverseOk_skeleton. by rewrite Hs, <- Hse.
Qed.

End guarantees.

Lemma NewGraph_nodes_witness :
  match gen.NewGraph schemas.integration with
  | gen.Ok g =>
      gen.TypeName <$> gen.Nodes g = load.SchemaName <$> schemas.integration ∧
      gen.Fields <$> gen.Nodes g = load.Fields <$> schemas.integration
  | gen.Err _ => False
  end.
Proof.
  destruct (gen.NewGraph schemas.integration) as [g | e] eqn:Hg.
  - exact (NewGraph_nodes schemas.integration g Hg).
  - vm_compute in Hg. discriminate.
Defined.

Lemma NewGraph_edges_resolved_witness :
  match gen.NewGraph schemas.integration with
  | gen.Ok g =>
      graph.allEdges
        (fun e => graph.pointsInto (length (gen.Nodes g)) e ∧
                  graph.resolvedEdge e ∧
                  graph.relationOk (gen.TypeName <$> gen.Nodes g) e) g
  | gen.Err _ => False
  end.
Proof.
  destruct (gen.NewGraph schemas.integration) as [g | e] eqn:Hg.
  - exact (NewGraph_edges_resolved schemas.integration g Hg).
  - vm_compute in Hg. discriminate.
Defined.

Lemma NewGraph_inverse_edges_witness :
  match gen.NewGraph (schemas.household true true false) with
  | gen.Ok g =>
      match graph.edgeAt g 1 0 with
      | Some e => gen.IsInverse e = true ∧ graph.inverseOk g 1 e
      | None => False
      end
  | gen.Err _ => False
  end.
Proof.
  destruct (gen.NewGraph (schemas.household true true false)) as [g | e] eqn:Hg.
  - destruct (graph.edgeAt g 1 0) as [e | ] eqn:He.
    + split; [ | exact (NewGraph_inverse_edges _ g 1 0 e Hg He)].
      vm_compute in Hg. injection Hg as <-. vm_compute in He. by injection He as <-.
    + vm_compute in Hg. injection Hg as <-. vm_compute in He. discriminate.
  - vm_compute in Hg. discriminate.
Defined.

(** ** The tables of a graph *)

Section tables.
Context `{gen.Naming}.
Implicit Types (g : gen.Graph) (nd : gen.Type__) (e : gen.Edge)
  (t : schema.Table) (all : list schema.Table).

Lemma holds_weaken {A} (E E' : gen.graphError → Prop) (P : A → Prop) r :
  (∀ x, E x → E' x) → graph.holds E P r → graph.holds E' P r.
Proof. destruct r; cbn; auto. Qed.

Lemma holds_deref {A B} (E : gen.graphError → Prop) (P : B → Prop) what
  (o : option A) (k : A → gen.result B) :
  (o = None → E (gen.Panic what)) →
  (∀ a, o = Some a → graph.holds E P (k a)) →
  graph.holds E P (gen.deref what o ≫= k).
Proof. destruct o as [a | ]; cbn; auto. Qed.

Lemma foldl_holds_inv {A B} (E : gen.graphError → Prop) (P : A → Prop)
  (F : gen.result A → B → gen.result A) (xs : list B) :
  ∀ r,
    (∀ x r, x ∈ xs → graph.holds E P r → graph.holds E P (F r x)) →
    graph.holds E P r → graph.holds E P (foldl F r xs).
Proof.
  induction xs as [| x xs IH]; intros r Hstep Hr; cbn; [done | ].
  apply IH.
  - intros y r' Hy. apply Hstep. by right.
  - apply Hstep; [by left | done].
Qed.

(** The table of a node. *)
Lemma AddColumns_name (fs : list schema.Column) t0 :
  schema.TableName (foldl (fun t f => schema.AddColumn f t) t0 fs) =
  schema.TableName t0.
Proof. revert t0. induction fs as [| f fs IH]; intros t0; cbn; [done | by rewrite IH]. Qed.

Lemma AddColumns_primary (fs : list schema.Column) t0 :
  schema.PrimaryKey (foldl (fun t f => schema.AddColumn f t) t0 fs) =
  schema.PrimaryKey t0.
Proof. revert t0. induction fs as [| f fs IH]; intros t0; cbn; [done | by rewrite IH]. Qed.

Lemma AddColumns_columns (fs : list schema.Column) t0 :
  schema.TableColumns (foldl (fun t f => schema.AddColumn f t) t0 fs) =
  schema.TableColumns t0 ++ fs.
Proof.
  revert t0. induction fs as [| f fs IH]; intros t0; cbn.
  - by rewrite app_nil_r.
  - rewrite IH. cbn. by rewrite <- (assoc_L (++)).
Qed.

Lemma nodeTable_name nd :
  schema.TableName (gen.nodeTable nd) = gen.Table (gen.TypeName nd).
Proof. unfold gen.nodeTable. by rewrite AddColumns_name. Qed.

Lemma nodeTable_nodeTableOf nd : graph.nodeTableOf nd (gen.nodeTable nd).
Proof.
  split; [apply nodeTable_name | split].
  - unfold gen.nodeTable. by rewrite AddColumns_primary.
  - unfold gen.nodeTable. by rewrite AddColumns_columns.
Qed.

(** The first loop of [Tables]. *)
Lemma nodeTables_fold (ns : list gen.Type__) :
  ∀ pre (tables0 : gmap string nat),
    graph.mapOn pre tables0 →
    let r := foldl (fun '(tables, all) n =>
                      let table := gen.nodeTable n in
                      (<[schema.TableName table := length all]> tables,
                       all ++ [table]))
                   (tables0, gen.nodeTable <$> pre) ns in
    r.2 = gen.nodeTable <$> (pre ++ ns) ∧ graph.mapOn (pre ++ ns) r.1.
Proof.
  induction ns as [| n ns IH]; intros pre tables0 Hm; cbn.
  - by rewrite app_nil_r.
  - specialize (IH (pre ++ [n])
                   (<[schema.TableName (gen.nodeTable n) := length (gen.nodeTable <$> pre)]>
                      tables0)).
    rewrite fmap_app in IH. cbn in IH. rewrite <- (assoc_L (++)) in IH. cbn in IH.
    apply IH. destruct Hm as [Hin Hpos]. rewrite nodeTable_name, length_fmap. split.
    + intros nd [Hnd | ->%list_elem_of_singleton]%elem_of_app.
      * apply lookup_insert_is_Some'. right. by apply Hin.
      * rewrite lookup_insert_eq. eauto.
    + intros name i.
      destruct (decide (gen.Table (gen.TypeName n) = name)) as [<- | Hne].
      * rewrite lookup_insert_eq. intros [= <-]. exists n. split; [ | done].
        by rewrite lookup_app_r, Nat.sub_diag.
      * rewrite lookup_insert_ne by done. intros (nd & Hnd & Hname)%Hpos.
        exists nd. split; [ | done]. by apply lookup_app_l_Some.
Qed.

Lemma nodeTables_holds g :
  (gen.nodeTables g).2 = gen.nodeTable <$> gen.Nodes g ∧
  graph.mapOn (gen.Nodes g) (gen.nodeTables g).1.
Proof.
  apply (nodeTables_fold (gen.Nodes g) [] ∅). split.
  - intros nd Hnd. by apply elem_of_nil in Hnd.
  - intros name i. by rewrite lookup_empty.
Qed.

Lemma mapOn_lookup g (tables : gmap string nat) name i :
  graph.mapOn (gen.Nodes g) tables → tables !! name = Some i →
  ∃ nd, gen.Nodes g !! i = Some nd ∧ gen.Table (gen.TypeName nd) = name.
Proof. intros [_ Hpos]. apply Hpos. Qed.

Lemma mapOn_table g (tables : gmap string nat) nd :
  graph.mapOn (gen.Nodes g) tables → nd ∈ gen.Nodes g →
  tables !! gen.Table (gen.TypeName nd) ≠ None.
Proof. intros [Hin _] Hnd. by apply not_eq_None_Some, Hin. Qed.

Lemma mapOn_declared g (tables : gmap string nat) name :
  graph.mapOn (gen.Nodes g) tables →
  name ∈ gen.Table <$> (gen.TypeName <$> gen.Nodes g) →
  tables !! name ≠ None.
Proof.
  intros Hm (n & -> & (nd & -> & Hnd)%list_elem_of_fmap)%list_elem_of_fmap.
  by apply (mapOn_table g).
Qed.

(** Updates of the tables. *)
Lemma table_of_node g nd :
  nd ∈ gen.Nodes g →
  gen.Table (gen.TypeName nd) ∈ gen.Table <$> (gen.TypeName <$> gen.Nodes g).
Proof. intros Hnd. by apply list_elem_of_fmap_2, list_elem_of_fmap_2. Qed.

Lemma keyOk_columns g t t' fk :
  schema.TableColumns t ⊆ schema.TableColumns t' →
  graph.keyOk g t fk → graph.keyOk g t' fk.
Proof. intros Hsub (Hc & Hr & Hk). split; [by etrans | done]. Qed.

Lemma tablesOk_insert g all i t t' :
  graph.tablesOk g all → all !! i = Some t →
  schema.TableName t' = schema.TableName t →
  schema.PrimaryKey t' = schema.PrimaryKey t →
  schema.TableColumns t `prefix_of` schema.TableColumns t' →
  Forall (graph.keyOk g t') (schema.ForeignKeys t') →
  graph.tablesOk g (<[i := t']> all).
Proof.
  intros [Hn Hk] Ht Hname Hpk Hcols Hkeys. split.
  - intros j nd Hnd. destruct (Hn j nd Hnd) as (tj & Htj & Hname' & Hpk' & Hpre).
    destruct (decide (j = i)) as [-> | Hne].
    + exists t'. rewrite list_lookup_insert_eq by by eapply lookup_lt_Some.
      split; [done | ]. rewrite Ht in Htj. injection Htj as <-.
      split; [congruence | split; [congruence | by etrans]].
    + exists tj. by rewrite list_lookup_insert_ne.
  - by apply Forall_insert.
Qed.

Lemma tablesOk_app g all t :
  graph.tablesOk g all → Forall (graph.keyOk g t) (schema.ForeignKeys t) →
  graph.tablesOk g (all ++ [t]).
Proof.
  intros [Hn Hk] Hkeys. split.
  - intros j nd Hnd. destruct (Hn j nd Hnd) as (tj & Htj & Hof).
    exists tj. split; [by apply lookup_app_l_Some | done].
  - apply Forall_app. split; [done | by constructor].
Qed.

Lemma tablesOk_node g all i nd :
  graph.tablesOk g all → gen.Nodes g !! i = Some nd →
  ∃ t, all !! i = Some t ∧ graph.nodeTableOf nd t ∧
       Forall (graph.keyOk g t) (schema.ForeignKeys t).
Proof.
  intros [Hn Hk] Hnd. destruct (Hn i nd Hnd) as (t & Ht & Hof).
  exists t. split; [done | split; [done | ]].
  exact (Forall_lookup_1 _ _ _ _ Hk Ht).
Qed.

(** A relation column with its foreign key: fails only for want of a
    column name. *)
Lemma addRelationColumn_holds g e uniq oi ri all ndo ndr :
  graph.tablesOk g all →
  gen.Nodes g !! oi = Some ndo → gen.Nodes g !! ri = Some ndr →
  graph.holds (fun _ => gen.Columns (gen.Rel_ e) = []) (graph.tablesOk g)
    (gen.addRelationColumn e uniq oi ri all).
Proof.
  intros Hok Ho Hr. unfold gen.addRelationColumn, gen.Column.
  destruct (tablesOk_node _ _ _ _ Hok Ho) as (owner & Hown & Hoof & Hokeys).
  destruct (tablesOk_node _ _ _ _ Hok Hr) as (ref & Href & (Hrn & Hrpk & _) & _).
  destruct (gen.Columns (gen.Rel_ e)) as [| name cols]; [done | ]. cbn.
  rewrite Hown, Href. cbn. rewrite Hrpk. cbn.
  eapply tablesOk_insert; [done | exact Hown | done | done | | ]; cbn.
  - by apply prefix_app_r.
  - apply Forall_app. split.
    + eapply Forall_impl; [exact Hokeys | ]. intros fk. apply keyOk_columns. cbn.
      intros c Hc. apply elem_of_app. by left.
    + constructor; [ | constructor]. split; [ | split]; cbn.
      * intros c ->%list_elem_of_singleton. apply elem_of_app. right. by left.
      * rewrite Hrn. apply table_of_node. by eapply list_elem_of_lookup_2.
      * done.
Qed.

(** The second loop of [Tables], one edge: fails only on an edge that
    does not point to a node or has no complete relation. *)
Lemma edgeTables_holds g (tables : gmap string nat) nd all e :
  graph.mapOn (gen.Nodes g) tables → nd ∈ gen.Nodes g →
  graph.tablesOk g all →
  graph.holds
    (fun _ => ¬ (graph.pointsInto (length (gen.Nodes g)) e ∧
                 graph.relationOk (gen.TypeName <$> gen.Nodes g) e))
    (graph.tablesOk g) (gen.edgeTables g tables nd all e).
Proof.
  intros Hm Hnd Hok. unfold gen.edgeTables.
  destruct (gen.IsInverse e); [done | ].
  unfold graph.relationOk, graph.pointsInto.
  destruct (gen.RelType (gen.Rel_ e)) eqn:Hkind; [done | | | | ].
  - (* O2O *)
    apply holds_deref.
    { intros Hnone [_ [_ Hin]]. by apply (mapOn_declared g tables) in Hin. }
    intros oi Hoi. destruct (mapOn_lookup g tables _ oi Hm Hoi) as (ndo & Hndo & _).
    apply holds_deref.
    { intros Hnone _. by apply (mapOn_table g tables nd) in Hnone. }
    intros ri Hri. destruct (mapOn_lookup g tables _ ri Hm Hri) as (ndr & Hndr & _).
    eapply holds_weaken; [ | by eapply addRelationColumn_holds].
    cbn. intros _ Hnil [_ [Hlen _]]. by rewrite Hnil in Hlen.
  - (* O2M *)
    apply holds_deref.
    { intros Hnone [_ [_ Hin]]. by apply (mapOn_declared g tables) in Hin. }
    intros oi Hoi. destruct (mapOn_lookup g tables _ oi Hm Hoi) as (ndo & Hndo & _).
    apply holds_deref.
    { intros Hnone _. by apply (mapOn_table g tables nd) in Hnone. }
    intros ri Hri. destruct (mapOn_lookup g tables _ ri Hm Hri) as (ndr & Hndr & _).
    eapply holds_weaken; [ | by eapply addRelationColumn_holds].
    cbn. intros _ Hnil [_ [Hlen _]]. by rewrite Hnil in Hlen.
  - (* M2O *)
    unfold gen.node. apply holds_deref.
    { intros Hnone%lookup_ge_None [[Hty _] _]. lia. }
    intros etype Hety.
    apply holds_deref.
    { intros Hnone _. revert Hnone.
      apply (mapOn_table g); [done | by eapply list_elem_of_lookup_2]. }
    intros ri Hri. destruct (mapOn_lookup g tables _ ri Hm Hri) as (ndr & Hndr & _).
    apply holds_deref.
    { intros Hnone [_ [_ Hin]]. by apply (mapOn_declared g tables) in Hin. }
    intros oi Hoi. destruct (mapOn_lookup g tables _ oi Hm Hoi) as (ndo & Hndo & _).
    eapply holds_weaken; [ | by eapply addRelationColumn_holds].
    cbn. intros _ Hnil [_ [Hlen _]]. by rewrite Hnil in Hlen.
  - (* M2M *)
    unfold gen.node. apply holds_deref.
    { intros Hnone%lookup_ge_None [[Hty _] _]. lia. }
    intros etype Hety.
    apply holds_deref.
    { intros Hnone _. by apply (mapOn_table g tables nd) in Hnone. }
    intros i1 Hi1. destruct (mapOn_lookup g tables _ i1 Hm Hi1) as (nd1 & Hnd1 & _).
    apply holds_deref.
    { intros Hnone _. revert Hnone.
      apply (mapOn_table g); [done | by eapply list_elem_of_lookup_2]. }
    intros i2 Hi2. destruct (mapOn_lookup g tables _ i2 Hm Hi2) as (nd2 & Hnd2 & _).
    destruct (tablesOk_node _ _ _ _ Hok Hnd1) as (t1 & Ht1 & (Hn1 & Hpk1 & _) & _).
    destruct (tablesOk_node _ _ _ _ Hok Hnd2) as (t2 & Ht2 & (Hn2 & Hpk2 & _) & _).
    rewrite Ht1, Ht2. cbn.
    apply holds_deref.
    { intros Hnone%lookup_ge_None [_ Hlen]. lia. }
    intros n1 Hc1.
    apply holds_deref.
    { intros Hnone%lookup_ge_None [_ Hlen]. lia. }
    intros n2 Hc2.
    rewrite Hpk1, Hpk2. cbn.
    apply tablesOk_app; [done | ]. cbn.
    constructor; [ | constructor; [ | constructor]]; (split; [ | split]); cbn; try done.
    + intros c ->%list_elem_of_singleton. by left.
    + rewrite Hn1. apply table_of_node. by eapply list_elem_of_lookup_2.
    + intros c ->%list_elem_of_singleton. right. by left.
    + rewrite Hn2. apply table_of_node. by eapply list_elem_of_lookup_2.
Qed.

(** The third loop of [Tables]: the indexes of a node never fail. *)
Lemma indexTables_holds g (tables : gmap string nat) all nd :
  graph.mapOn (gen.Nodes g) tables → nd ∈ gen.Nodes g →
  graph.tablesOk g all →
  graph.holds (fun _ => False) (graph.tablesOk g) (gen.indexTables tables all nd).
Proof.
  intros Hm Hnd Hok. unfold gen.indexTables.
  apply foldl_holds_inv; [ | done].
  intros idx r _ Hr. eapply holds_bind; [exact Hr | ].
  intros all' Hok'. cbn beta.
  apply holds_deref.
  { intros Hnone. by apply (mapOn_table g tables nd) in Hnone. }
  intros i Hi. destruct (mapOn_lookup g tables _ i Hm Hi) as (ndi & Hndi & _).
  destruct (tablesOk_node _ _ _ _ Hok' Hndi) as (t & Ht & _ & Hkeys).
  rewrite Ht. cbn.
  eapply tablesOk_insert; [done | exact Ht | done | done | done | ].
  cbn. eapply Forall_impl; [exact Hkeys | ]. intros fk. by apply keyOk_columns.
Qed.

(** [Tables]: fails only on a graph that is not well formed, and gives
    the tables of the nodes first, with sound foreign keys everywhere. *)
Lemma Tables_holds g :
  graph.holds (fun _ => ¬ graph.wellFormed g) (graph.tablesOk g) (gen.Tables g).
Proof.
  unfold gen.Tables. destruct (nodeTables_holds g) as [Hall Hm].
  destruct (gen.nodeTables g) as [tables all0]. cbn in Hall, Hm. subst all0.
  eapply holds_bind.
  - apply (foldl_holds_inv (fun _ => ¬ graph.wellFormed g) (graph.tablesOk g)).
    + intros nd r Hnd Hr. apply foldl_holds_inv; [ | done].
      intros e r' He Hr'. eapply holds_bind; [exact Hr' | ].
      intros all Hok. cbn beta.
      eapply holds_weaken; [ | by apply edgeTables_holds].
      cbn. intros _ Hne Hwf. apply Hne.
      apply list_elem_of_lookup_1 in Hnd as [ti Hti].
      apply list_elem_of_lookup_1 in He as [ei Hei].
      apply (allEdges_edgeAt _ g ti ei e Hwf). apply edgeAt_Some. eauto.
    + cbn. split.
      * intros i nd Hnd. exists (gen.nodeTable nd).
        split; [by rewrite list_lookup_fmap, Hnd | apply nodeTable_nodeTableOf].
      * apply Forall_fmap, Forall_forall. intros nd _. cbn.
        unfold gen.nodeTable. by rewrite AddColumns_keys.
  - intros all1 Hok1. cbn beta.
    apply (foldl_holds_inv (fun _ => ¬ graph.wellFormed g) (graph.tablesOk g));
      [ | done].
    intros nd r Hnd Hr. eapply holds_bind; [exact Hr | ].
    intros all Hok. cbn beta.
    eapply holds_weaken; [ | by eapply indexTables_holds]. done.
Qed.

End tables.

Section derived_tables.
Context `{gen.Naming}.
Implicit Types (g : gen.Graph) (nd : gen.Type__) (all : list schema.Table).

Lemma NewGraph_wellFormed (ss : list load.Schema) g :
  gen.NewGraph ss = gen.Ok g → graph.wellFormed g.
Proof.
  intros Hg. pose proof (NewGraph_holds ss) as Hh. rewrite Hg in Hh.
  destruct Hh as (g2 & Hg2 & (Hs & Hr & _) & _). pose proof Hg2 as (Hn & _).
  apply allEdges_and.
  - rewrite (skeleton_length _ _ Hs). eapply skeleton_pointers; [exact Hs | ].
    by eapply attached_pointers.
  - by rewrite (skeleton_names _ _ Hs), Hn.
Qed.

(** X5.  [Tables] gives the tables of every graph that [NewGraph] built:
    no table, column or primary key it looks up is missing. *)
Theorem Tables_of_NewGraph (ss : list load.Schema) g :
  gen.NewGraph ss = gen.Ok g → ∃ all, gen.Tables g = gen.Ok all.
Proof.
  intros Hg%NewGraph_wellFormed. pose proof (Tables_holds g) as Hh.
  destruct (gen.Tables g) as [all | err]; [by exists all | ]. by destruct Hh.
Qed.

(** X6.  The tables start with the tables of the nodes, in the order of
    the nodes: the table at the position of a node has the table name of the
    node, the identifier as its only primary-key column, and the identifier
    and the fields of the node as its first columns. *)
Theorem Tables_node_tables g all i nd :
  gen.Tables g = gen.Ok all →
  gen.Nodes g !! i = Some nd →
  ∃ t, all !! i = Some t ∧
       schema.TableName t = gen.Table (gen.TypeName nd) ∧
       schema.PrimaryKey t = [gen.IDColumn] ∧
       (gen.IDColumn :: gen.Fields nd) `prefix_of` schema.TableColumns t.
Proof.
  intros Ht Hnd. pose proof (Tables_holds g) as Hh. rewrite Ht in Hh.
  destruct Hh as [Hn _]. exact (Hn i nd Hnd).
Qed.

(** X7.  Every foreign key of every table is on columns of its table and
    refers to the identifier of the table of a node. *)
Theorem Tables_foreign_keys g all t fk :
  gen.Tables g = gen.Ok all →
  t ∈ all → fk ∈ schema.ForeignKeys t →
  schema.Columns fk ⊆ schema.TableColumns t ∧
  schema.RefTable fk ∈ gen.Table <$> (gen.TypeName <$> gen.Nodes g) ∧
  schema.RefColumns fk = [gen.IDColumn].
Proof.
  intros Ht Hin Hfk. pose proof (Tables_holds g) as Hh. rewrite Ht in Hh.
  destruct Hh as [_ Hk]. unfold graph.keysOk in Hk.
  rewrite Forall_forall in Hk. specialize (Hk t Hin).
  rewrite Forall_forall in Hk. exact (Hk fk Hfk).
Qed.

End derived_tables.

Lemma Tables_of_NewGraph_witness :
  match gen.NewGraph schemas.integration with
  | gen.Ok g => ∃ all, gen.Tables g = gen.Ok all
  | gen.Err _ => False
  end.
Proof.
  destruct (gen.NewGraph schemas.integration) as [g | e] eqn:Hg.
  - exact (Tables_of_NewGraph schemas.integration g Hg).
  - vm_compute in Hg. discriminate.
Defined.

Lemma Tables_node_tables_witness :
  match gen.NewGraph schemas.integration with
  | gen.Ok g =>
      match gen.Nodes g !! 10 with
      | Some nd =>
          ∃ t, migrate.Tables !! 10 = Some t ∧
               schema.TableName t = gen.Table (gen.TypeName nd) ∧
               schema.PrimaryKey t = [gen.IDColumn] ∧
               (gen.IDColumn :: gen.Fields nd) `prefix_of` schema.TableColumns t
      | None => False
      end
  | gen.Err _ => False
  end.
Proof.
  pose proof integration_tables as Hit.
  destruct (gen.NewGraph schemas.integration) as [g | e] eqn:Hg; [ | discriminate].
  cbn in Hit.
  destruct (gen.Nodes g !! 10) as [nd | ] eqn:Hnd.
  - exact (Tables_node_tables g migrate.Tables 10 nd Hit Hnd).
  - vm_compute in Hg. injection Hg as <-. vm_compute in Hnd. discriminate.
Defined.

Lemma Tables_foreign_keys_witness :
  match gen.NewGraph schemas.integration with
  | gen.Ok g =>
      match schema.ForeignKeys migrate.PetsTable !! 1 with
      | Some fk =>
          schema.Columns fk ⊆ schema.TableColumns migrate.PetsTable ∧
          schema.RefTable fk ∈ gen.Table <$> (gen.TypeName <$> gen.Nodes g) ∧
          schema.RefColumns fk = [gen.IDColumn]
      | None => False
      end
  | gen.Err _ => False
  end.
Proof.
  pose proof integration_tables as Hit.
  destruct (gen.NewGraph schemas.integration) as [g | e] eqn:Hg; [ | discriminate].
  cbn in Hit.
  destruct (schema.ForeignKeys migrate.PetsTable !! 1) as [fk | ] eqn:Hfk;
    [ | discriminate].
  apply (Tables_foreign_keys g migrate.Tables migrate.PetsTable fk Hit).
  - unfold migrate.Tables. do 9 right. left.
  - by eapply list_elem_of_lookup_2.
Defined.

(** ** The builder: what the terminal operations leave and report *)

Section terminal.
Import ent ent.ItemQuery ItemQueryX.
Context `{Decoder}.
Implicit Types (iq : ItemQuery.t).

Lemma aliased_sameButSql iq s : sameButSql iq (aliased iq s).
Proof. unfold aliased, sameButSql. destruct (sql_ iq); cbn; repeat split. Qed.

Lemma aliased_fresh iq s : sql_ iq = None → aliased iq s = iq.
Proof. unfold aliased. by intros ->. Qed.

Lemma sameButSql_refl iq : sameButSql iq iq.
Proof. repeat split. Qed.

Lemma All_state iq :
  snd (All iq) =
    if relational (dialect.Dialect_ (driver (config_ iq)))
    then aliased iq (sqlAll_selector iq) else iq.
Proof. unfold All. by destruct (dialect.Dialect_ _). Qed.

Lemma Count_state iq :
  snd (Count iq) =
    if relational (dialect.Dialect_ (driver (config_ iq)))
    then aliased iq (sqlCount_selector iq) else iq.
Proof. unfold Count. by destruct (dialect.Dialect_ _). Qed.

Lemma Exist_state iq : snd (Exist iq) = snd (Count iq).
Proof.
  unfold Exist, Count, sqlExist.
  destruct (dialect.Dialect_ _); try done; by destruct (sqlCount iq).
Qed.

(** X8.  All, Count and Exist leave everything that Where, Limit, Offset
    and Order configured as it was: after the call the builder differs from
    the builder before at most in the selector [iq.sql] points to, and not
    at all when there is no such selector or the dialect is not
    relational.  (First and Only are different: they set the limit.) *)
Theorem terminal_operations_keep_the_builder iq :
  (sameButSql iq (snd (All iq)) ∧
   sameButSql iq (snd (Count iq)) ∧
   sameButSql iq (snd (Exist iq))) ∧
  (sql_ iq = None ∨ relational (dialect.Dialect_ (driver (config_ iq))) = false →
   snd (All iq) = iq ∧ snd (Count iq) = iq ∧ snd (Exist iq) = iq).
Proof.
  rewrite Exist_state, All_state, Count_state. split.
  - destruct (relational _); repeat split; cbn;
      first [apply aliased_sameButSql | apply sameButSql_refl | done].
    all: unfold aliased; by destruct (sql_ iq).
  - intros [Hs | ->]; [ | done].
    destruct (relational _); by rewrite ?aliased_fresh.
Qed.

Lemma sqlCount_err iq e :
  fst (sqlCount iq) = Go.Err e →
  (∃ msg, e = Go.ErrBackend msg) ∨ e = Go.ErrNew "ent: no rows found" ∨
  (∃ e', e = Go.ErrWrap "ent: failed reading count" e').
Proof.
  unfold sqlCount. cbn [fst].
  destruct (dialect.Query _ _) as [msg | rows]; cbn.
  - intros [= <-]. left. eauto.
  - destruct rows as [| r rows]; [intros [= <-]; auto | ].
    destruct (sql.ScanInt r); cbn; [done | ]. intros [= <-]. eauto.
Qed.

Lemma gremlinCount_err iq e :
  fst (gremlinCount iq) = Go.Err e → ∃ msg, e = Go.ErrBackend msg.
Proof.
  unfold gremlinCount, gremlin.ReadInt. cbn [fst].
  destruct (dialect.Exec _ _) as [msg | res]; cbn.
  - intros [= <-]. eauto.
  - destruct res as [| [] []]; intros [= <-]; eauto.
Qed.

Lemma gremlinExist_err iq e :
  fst (gremlinExist iq) = Go.Err e → ∃ msg, e = Go.ErrBackend msg.
Proof.
  unfold gremlinExist, gremlin.ReadBool. cbn [fst].
  destruct (dialect.Exec _ _) as [msg | res]; cbn.
  - intros [= <-]. eauto.
  - destruct res as [| [] []]; intros [= <-]; eauto.
Qed.

Lemma Count_err iq e : fst (Count iq) = Go.Err e → own e = false.
Proof.
  unfold Count. destruct (dialect.Dialect_ _).
  1,2: by intros [[msg ->] | [-> | [e' ->]]]%sqlCount_err.
  - by intros [msg ->]%gremlinCount_err.
  - by intros [= <-].
Qed.

Lemma Exist_err iq e : fst (Exist iq) = Go.Err e → own e = false.
Proof.
  unfold Exist. destruct (dialect.Dialect_ _).
  1,2: rewrite sqlExist_sqlCount; destruct (fst (sqlCount iq)); [done | ];
       by intros [= <-].
  - by intros [msg ->]%gremlinExist_err.
  - by intros [= <-].
Qed.

(** X9.  The errors of Count and Exist.  Neither is ever a not-found or
    not-singular error.  On a relational dialect every error of Exist is the
    error of Count behind the prefix "ent: check existence"; on the
    traversal dialect the errors of both are those of the driver and of
    reading the response, as they come; on any other dialect both fail with
    "ent: unsupported dialect". *)
Theorem Count_Exist_errors iq e :
  fst (Count iq) = Go.Err e ∨ fst (Exist iq) = Go.Err e →
  own e = false ∧
  match dialect.Dialect_ (driver (config_ iq)) with
  | dialect.MySQL | dialect.SQLite =>
      fst (Exist iq) = Go.Err e →
      ∃ e', e = Go.ErrWrap "ent: check existence" e' ∧ fst (Count iq) = Go.Err e'
  | dialect.Gremlin => ∃ msg, e = Go.ErrBackend msg
  | dialect.Other _ => e = unsupported
  end.
Proof.
  intros Hor. split; [destruct Hor; [by eapply Count_err | by eapply Exist_err] | ].
  revert Hor. unfold Count, Exist. destruct (dialect.Dialect_ _).
  1,2: rewrite sqlExist_sqlCount; intros _;
       destruct (fst (sqlCount iq)) as [n | e']; [done | ]; intros [= <-]; eauto.
  - by intros [He%gremlinCount_err | He%gremlinExist_err].
  - cbn. by intros [[= <-] | [= <-]].
Qed.

(** X10.  Every entity All returns carries the configuration of the
    builder, so that queries made from the entity go to the same driver. *)
Theorem All_items_configured iq its :
  fst (All iq) = Go.Ok its →
  Forall (fun i => Item_config i = Some (config_ iq)) its.
Proof.
  assert (Hcfg : ∀ l, Forall (fun i => Item_config i = Some (config_ iq))
                        (Items_config (config_ iq) l)).
  { intros l. unfold Items_config. apply Forall_fmap, Forall_forall. by intros. }
  unfold All, sqlAll, gremlinAll. destruct (dialect.Dialect_ _); cbn [fst].
  1,2: destruct (dialect.Query _ _) as [msg | rows]; cbn; [done | ];
       destruct (Items_FromRows rows); cbn; [ | done]; by intros [= <-].
  - destruct (dialect.Exec _ _) as [msg | res]; cbn; [done | ].
    destruct (Items_FromResponse res); cbn; [ | done]. by intros [= <-].
  - done.
Qed.

(** [FromRows], from the slice it is called on. *)
Lemma FromRows_receiver (c : list Item) (rows : sql.Rows) :
  match Items.FromRows c rows with
  | (None, c') =>
      ∃ ids, ScanID <$> rows = inr <$> ids ∧ c' = c ++ (mkItem None <$> ids)
  | (Some e, c') =>
      ∃ pre r post ids msg,
        rows = pre ++ r :: post ∧ ScanID <$> pre = inr <$> ids ∧
        ScanID r = inl msg ∧ e = Go.ErrBackend msg ∧
        c' = c ++ (mkItem None <$> ids)
  end.
Proof.
  revert c. induction rows as [| r rows IH]; intros c; cbn.
  - exists []. by rewrite app_nil_r.
  - destruct (ScanID r) as [msg | id] eqn:Hr.
    + exists [], r, rows, [], msg. by rewrite app_nil_r.
    + specialize (IH (c ++ [mkItem None id])).
      destruct (Items.FromRows (c ++ [mkItem None id]) rows) as [[e | ] c'].
      * destruct IH as (pre & r' & post & ids & msg & -> & Hpre & Hr' & -> & ->).
        exists (r :: pre), r', post, (id :: ids), msg. cbn.
        rewrite Hr, Hpre, <- (assoc_L (++)). done.
      * destruct IH as (ids & Hrows & ->). exists (id :: ids). cbn.
        rewrite ?Hr, Hrows, <- (assoc_L (++)). done.
Qed.

(** The call of [sqlAll]: on a nil slice, dropped on an error. *)
Lemma FromRows_from c (rows : sql.Rows) :
  Items.FromRows c rows =
    match Items_FromRows rows with
    | Go.Ok its => (None, c ++ its)
    | Go.Err e =>
        (Some e, c ++ (Items.FromRows [] rows).2)
    end.
Proof.
  revert c. induction rows as [| r rows IH]; intros c; cbn.
  - by rewrite app_nil_r.
  - destruct (ScanID r) as [msg | id]; cbn; [by rewrite app_nil_r | ].
    rewrite (IH (c ++ [mkItem None id])), (IH [mkItem None id]).
    destruct (Items_FromRows rows) as [its | e]; cbn; by rewrite <- (assoc_L (++)).
Qed.

Lemma Items_FromRows_called (rows : sql.Rows) : Items_FromRows rows = Items.called rows.
Proof.
  unfold Items.called. rewrite (FromRows_from [] rows).
  by destruct (Items_FromRows rows).
Qed.

(** X11.  [FromRows] appends one entity for each row, in the order of
    the rows, to the slice it is called on, and stops at the first row that
    does not scan: it returns the error of that row and leaves the entities
    of the rows before it in the slice.  [sqlAll] calls it on a nil slice
    and returns nil with the error: so [sqlAll] is all or nothing, it
    returns one configured entity for each row of the driver, or the error
    of the first row that does not scan and no entity. *)
Theorem FromRows_keeps_sqlAll_drops (c : list Item) (rows : sql.Rows)
  (iq : ItemQuery.t) :
  match Items.FromRows c rows with
  | (None, c') =>
      ∃ ids, ScanID <$> rows = inr <$> ids ∧ c' = c ++ (mkItem None <$> ids)
  | (Some e, c') =>
      ∃ pre r post ids msg,
        rows = pre ++ r :: post ∧ ScanID <$> pre = inr <$> ids ∧
        ScanID r = inl msg ∧ e = Go.ErrBackend msg ∧
        c' = c ++ (mkItem None <$> ids)
  end ∧
  (dialect.Query (driver (config_ iq)) (sqlAll_selector iq) = inr rows →
   fst (sqlAll iq) =
     match Items.FromRows [] rows with
     | (None, its) => Go.Ok (Items_config (config_ iq) its)
     | (Some e, _) => Go.Err e
     end).
Proof.
  split; [apply FromRows_receiver | ].
  intros Hq. unfold sqlAll. cbn [fst]. rewrite Hq. cbn.
  rewrite Items_FromRows_called. unfold Items.called.
  by destruct (Items.FromRows [] rows) as [[e | ] its].
Qed.

(** X12.  FirstX returns nil exactly when the query has no result: it
    never hides a failure, every error of All makes it panic with that
    error.  OnlyX panics with a not-found error on no result and with a
    not-singular error on more than one. *)
Theorem FirstX_OnlyX_outcomes iq :
  (fst (FirstX iq) = panics.Returns None ↔ fst (All (Limit 1 iq)) = Go.Ok []) ∧
  (∀ e, fst (FirstX iq) = panics.Panics (panics.Error e) ↔
        fst (All (Limit 1 iq)) = Go.Err e) ∧
  (fst (OnlyX iq) = panics.Panics (panics.Error (Go.ErrNotFound item.Label)) ↔
   fst (All (Limit 2 iq)) = Go.Ok []) ∧
  (fst (OnlyX iq) = panics.Panics (panics.Error (Go.ErrNotSingular item.Label)) ↔
   ∃ i j its, fst (All (Limit 2 iq)) = Go.Ok (i :: j :: its)).
Proof.
  assert (HF : fst (FirstX iq) =
                 match fst (First iq) with
                 | Go.Err err =>
                     if negb (IsNotFound err) then panics.Panics (panics.Error err)
                     else panics.Returns None
                 | Go.Ok i => panics.Returns (Some i)
                 end).
  { unfold FirstX. by destruct (First iq) as [[] ?]. }
  assert (HO : fst (OnlyX iq) =
                 match fst (Only iq) with
                 | Go.Err err => panics.Panics (panics.Error err)
                 | Go.Ok i => panics.Returns i
                 end).
  { unfold OnlyX. by destruct (Only iq) as [[] ?]. }
  rewrite HF, HO, First_All, Only_All.
  pose proof (All_err (Limit 1 iq)) as H1.
  pose proof (All_err (Limit 2 iq)) as H2.
  destruct (fst (All (Limit 1 iq))) as [[| i its] | e1];
    destruct (fst (All (Limit 2 iq))) as [[| i2 [| j2 its2]] | e2]; cbn.
  all: repeat split; try done; try (by intros [= <-]); try (by intros (? & ? & ? & [=]));
    try (by eauto).
  all: try (specialize (H1 _ eq_refl)); try (specialize (H2 _ eq_refl)).
  all: try (destruct H1 as [[m1 ->] | ->]); try (destruct H2 as [[m2 ->] | ->]); cbn;
    try done; try congruence; try (by intros [= <-]); try (by intros (? & ? & ? & [=])).
Qed.

End terminal.

Lemma terminal_operations_keep_the_builder_witness :
  snd (ent.ItemQuery.All (sample.items sample.mysql)) = sample.items sample.mysql ∧
  snd (ent.ItemQuery.Count (sample.items sample.mysql)) = sample.items sample.mysql ∧
  snd (ent.ItemQuery.Exist (sample.items sample.mysql)) = sample.items sample.mysql.
Proof.
  apply (terminal_operations_keep_the_builder (sample.items sample.mysql)).
  left. reflexivity.
Defined.

Lemma Count_Exist_errors_witness :
  let iq := sample.items
              (dialect.mkDriver dialect.MySQL (fun _ => inl "down") sample.exec) in
  ∃ e', Go.ErrWrap "ent: check existence" (Go.ErrBackend "down") =
          Go.ErrWrap "ent: check existence" e' ∧
        fst (ent.ItemQuery.Count iq) = Go.Err e'.
Proof.
  intros iq.
  destruct (Count_Exist_errors iq
              (Go.ErrWrap "ent: check existence" (Go.ErrBackend "down"))
              (or_intror eq_refl)) as [_ Hm].
  exact (Hm eq_refl).
Defined.

Lemma All_items_configured_witness :
  match fst (ent.ItemQuery.All (sample.items sample.mysql)) with
  | Go.Ok its =>
      length its = 3 ∧
      Forall (fun i => ent.Item_config i = Some (ent.mkConfig sample.mysql)) its
  | Go.Err _ => False
  end.
Proof.
  destruct (fst (ent.ItemQuery.All (sample.items sample.mysql))) as [its | e] eqn:Ha.
  - split; [by injection Ha as <- | ].
    exact (All_items_configured (sample.items sample.mysql) its Ha).
  - discriminate.
Defined.

(** ** The builder: identifiers *)

Section identifiers.
Import panics select ent ent.ItemQuery ItemQueryX.
Context `{Scanner}.
Implicit Types (iq : ItemQuery.t).

Lemma IDs_relational iq :
  relational (dialect.Dialect_ (driver (config_ iq))) = true →
  IDs iq =
    (Returns
       (rows ← Go.lift (QueryView (driver (config_ iq))
                          (view.mk [item.FieldID] (sqlQuery iq) "item_view"));
        Go.lift (ScanSlice rows)),
     aliased iq (sqlQuery iq)).
Proof.
  unfold IDs, Select, ItemSelect.Scan, ItemSelect.sqlScan.
  destruct (dialect.Dialect_ (driver (config_ iq))) eqn:Hd; cbn; by rewrite ?Hd.
Qed.

Lemma IDs_gremlin iq :
  dialect.Dialect_ (driver (config_ iq)) = dialect.Gremlin →
  IDs iq =
    (Returns
       (res ← Go.lift (dialect.Exec (driver (config_ iq))
                         (gremlinQuery iq ++ [dsl.Custom "id" []]));
        Go.lift (ReadVal res)),
     iq).
Proof.
  unfold IDs, Select, ItemSelect.Scan, ItemSelect.gremlinScan.
  intros Hd. rewrite Hd. cbn. by rewrite Hd.
Qed.

Lemma IDs_other iq name :
  dialect.Dialect_ (driver (config_ iq)) = dialect.Other name →
  IDs iq = (Returns (Go.Err ItemSelect.unsupported), iq).
Proof.
  unfold IDs, Select, ItemSelect.Scan. intros Hd. rewrite Hd. cbn. by rewrite Hd.
Qed.

(** The errors of IDs are not the package's own. *)
Lemma IDs_returns iq :
  ∃ r, fst (IDs iq) = Returns r ∧ ∀ e, r = Go.Err e → own e = false.
Proof.
  destruct (dialect.Dialect_ (driver (config_ iq))) eqn:Hd.
  1,2: rewrite IDs_relational by (by rewrite Hd); eexists; split; [done | ];
       intros e; destruct (QueryView _ _) as [msg | rows]; cbn;
       [by intros [= <-] | destruct (ScanSlice rows); cbn; [by intros [= <-] | done]].
  - rewrite IDs_gremlin by done. eexists. split; [done | ]. intros e.
    destruct (dialect.Exec _ _) as [msg | res]; cbn; [by intros [= <-] | ].
    destruct (ReadVal res); cbn; [by intros [= <-] | done].
  - rewrite (IDs_other iq name) by done. eexists. split; [done | ].
    by intros e [= <-].
Qed.

Lemma FirstID_IDs iq :
  FirstID iq =
    (ids ← fst (IDs (Limit 1 iq));
     Returns (match ids with
              | Go.Err err => Go.Err err
              | Go.Ok [] => Go.Err (Go.ErrNotFound item.Label)
              | Go.Ok (id :: _) => Go.Ok id
              end),
     snd (IDs (Limit 1 iq))).
Proof. unfold FirstID. by destruct (IDs (Limit 1 iq)). Qed.

Lemma OnlyID_IDs iq :
  OnlyID iq =
    (ids ← fst (IDs (Limit 2 iq));
     Returns (match ids with
              | Go.Err err => Go.Err err
              | Go.Ok [id] => Go.Ok id
              | Go.Ok [] => Go.Err (Go.ErrNotFound item.Label)
              | Go.Ok _ => Go.Err (Go.ErrNotSingular item.Label)
              end),
     snd (IDs (Limit 2 iq))).
Proof. unfold OnlyID. by destruct (IDs (Limit 2 iq)). Qed.

Lemma IDs_limit iq : limit (snd (IDs iq)) = limit iq.
Proof.
  unfold IDs, Select, aliased.
  destruct (dialect.Dialect_ _); cbn; try done; by destruct (sql_ iq).
Qed.

(** X13.  IDs, FirstID and OnlyID never dereference a nil pointer:
    Select prepares, for the dialect of the driver, the intermediate query
    that Scan reads for that dialect. *)
Theorem IDs_never_nil_pointer iq :
  fst (IDs iq) ≠ Panics NilPointer ∧
  fst (FirstID iq) ≠ Panics NilPointer ∧
  fst (OnlyID iq) ≠ Panics NilPointer.
Proof.
  rewrite FirstID_IDs, OnlyID_IDs. cbn [fst].
  destruct (IDs_returns iq) as (r & -> & _).
  destruct (IDs_returns (Limit 1 iq)) as (r1 & -> & _).
  destruct (IDs_returns (Limit 2 iq)) as (r2 & -> & _).
  done.
Qed.

(** X14.  What IDs sends.  On a relational dialect, a selection of the
    identifier alone from the query of the builder as a subquery: paging
    applies inside the subquery, and the DISTINCT that All adds to the same
    query when no unique columns are configured is not added.  On the
    traversal dialect, the traversal of the builder, deduplication step
    included, followed by the identifier step. *)
Theorem IDs_queries iq :
  match dialect.Dialect_ (driver (config_ iq)) with
  | dialect.MySQL | dialect.SQLite =>
      ∃ q,
        fst (IDs iq) =
          Returns (rows ← Go.lift (QueryView (driver (config_ iq)) q);
                   Go.lift (ScanSlice rows)) ∧
        view.columns q = [item.FieldID] ∧
        sql.limit (view.inner q) = sql.limit (sqlAll_selector iq) ∧
        sql.offset (view.inner q) = sql.offset (sqlAll_selector iq) ∧
        (unique iq = [] → sqlAll_selector iq = sql.Distinct (view.inner q))
  | dialect.Gremlin =>
      ∃ t,
        fst (IDs iq) =
          Returns (res ← Go.lift (dialect.Exec (driver (config_ iq)) t);
                   Go.lift (ReadVal res)) ∧
        t = gremlinQuery iq ++ [dsl.Custom "id" []] ∧
        (unique iq = [] → dsl.Dedup ∈ t)
  | dialect.Other _ => fst (IDs iq) = Returns (Go.Err ItemSelect.unsupported)
  end.
Proof.
  destruct (dialect.Dialect_ (driver (config_ iq))) eqn:Hd.
  1,2: rewrite IDs_relational by (by rewrite Hd);
       exists (view.mk [item.FieldID] (sqlQuery iq) "item_view"); cbn;
       destruct (sqlAll_selector_paging iq) as [-> ->];
       repeat split; unfold sqlAll_selector; by intros ->.
  - rewrite IDs_gremlin by done. eexists. split; [done | ]. split; [done | ].
    intros Hu. unfold gremlinQuery. rewrite Hu.
    apply elem_of_app. left. apply elem_of_app. right. by left.
  - by rewrite (IDs_other iq name).
Qed.

(** X15.  FirstID and OnlyID decide on the identifiers IDs returns under
    limit 1 and limit 2: FirstID reports not-found exactly when there is
    none, OnlyID reports not-found exactly when there is none and
    not-singular exactly when there are two or more; and like First and
    Only they leave the builder with that limit. *)
Theorem FirstID_OnlyID_results iq :
  (fst (FirstID iq) = Returns (Go.Err (Go.ErrNotFound item.Label)) ↔
   fst (IDs (Limit 1 iq)) = Returns (Go.Ok [])) ∧
  (fst (OnlyID iq) = Returns (Go.Err (Go.ErrNotFound item.Label)) ↔
   fst (IDs (Limit 2 iq)) = Returns (Go.Ok [])) ∧
  (fst (OnlyID iq) = Returns (Go.Err (Go.ErrNotSingular item.Label)) ↔
   ∃ a b ids, fst (IDs (Limit 2 iq)) = Returns (Go.Ok (a :: b :: ids))) ∧
  (∀ id, fst (OnlyID iq) = Returns (Go.Ok id) ↔
         fst (IDs (Limit 2 iq)) = Returns (Go.Ok [id])) ∧
  limit (snd (FirstID iq)) = Some 1%Z ∧
  limit (snd (OnlyID iq)) = Some 2%Z.
Proof.
  rewrite FirstID_IDs, OnlyID_IDs. cbn [fst snd]. rewrite !IDs_limit.
  destruct (IDs_returns (Limit 1 iq)) as (r1 & -> & H1).
  destruct (IDs_returns (Limit 2 iq)) as (r2 & -> & H2). cbn.
  destruct r1 as [[| a1 l1] | e1]; destruct r2 as [[| a2 [| b2 l2]] | e2].
  all: repeat split; try done; try (by intros [= <-]); try (by intros [= ->]);
    try (by intros (? & ? & ? & [=])); try (by eauto).
  all: try (specialize (H1 _ eq_refl)); try (specialize (H2 _ eq_refl)).
  all: try (intros [= ->]; done).
Qed.

End identifiers.

(** ** The builder: paging, unsupported dialects, order of the calls *)

Section configuring.
Import panics select ent ent.ItemQuery ItemQueryX.
Context `{Decoder} `{Scanner}.
Implicit Types (iq : ItemQuery.t).

Lemma add_exact (a b : Z) :
  (- 2 ^ 63 ≤ a + b < 2 ^ 63)%Z → Go.add a b = (a + b)%Z.
Proof.
  intros Hr. unfold Go.add, Go.wrap.
  rewrite Z.mod_small by lia. lia.
Qed.

(** X16.  A builder with a limit and an offset asks both backends for
    the same window: LIMIT l OFFSET o in every query of the relational
    backend, whatever the predicates and orderings do before, and the range
    from o to o + l in the traversal, as long as o + l does not overflow
    Go's int. *)
Theorem limit_offset_window iq (l o : Z) :
  limit iq = Some l → offset iq = Some o →
  (- 2 ^ 63 ≤ o + l < 2 ^ 63)%Z →
  (sql.limit (sqlQuery iq) = Some l ∧ sql.offset (sqlQuery iq) = Some o) ∧
  (sql.limit (sqlAll_selector iq) = Some l ∧ sql.offset (sqlAll_selector iq) = Some o) ∧
  (sql.limit (sqlCount_selector iq) = Some l ∧
   sql.offset (sqlCount_selector iq) = Some o) ∧
  (∃ pre, gremlinPaged iq = pre ++ [dsl.Range o (o + l)]) ∧
  dsl.Range o (o + l) ∈ gremlinQuery iq.
Proof.
  intros Hl Ho Hr.
  assert (Hq : sql.limit (sqlQuery iq) = Some l ∧ sql.offset (sqlQuery iq) = Some o).
  { unfold sqlQuery. rewrite Hl, Ho. by cbn. }
  assert (Hg : ∃ pre, gremlinPaged iq = pre ++ [dsl.Range o (o + l)]).
  { unfold gremlinPaged. rewrite Hl, Ho, (add_exact o l Hr). eauto. }
  split; [done | ].
  destruct (sqlAll_selector_paging iq) as [-> ->].
  destruct (sqlCount_selector_paging iq) as [-> ->].
  do 3 (split; [done | ]).
  destruct Hg as [pre Hg]. unfold gremlinQuery. rewrite Hg.
  destruct (unique iq); rewrite ?elem_of_app; rewrite ?list_elem_of_singleton; auto.
Qed.

(** X17.  On a dialect that is none of MySQL, SQLite and Gremlin every
    terminal operation fails, whatever the driver would answer: All, Count,
    Exist, First and Only with "ent: unsupported dialect", IDs, FirstID and
    OnlyID with "ItemSelect: unsupported dialect"; FirstX panics with the
    error. *)
Theorem unsupported_dialect iq name :
  dialect.Dialect_ (driver (config_ iq)) = dialect.Other name →
  fst (All iq) = Go.Err unsupported ∧
  fst (Count iq) = Go.Err unsupported ∧
  fst (Exist iq) = Go.Err unsupported ∧
  fst (First iq) = Go.Err unsupported ∧
  fst (Only iq) = Go.Err unsupported ∧
  fst (FirstX iq) = Panics (Error unsupported) ∧
  fst (IDs iq) = Returns (Go.Err ItemSelect.unsupported) ∧
  fst (FirstID iq) = Returns (Go.Err ItemSelect.unsupported) ∧
  fst (OnlyID iq) = Returns (Go.Err ItemSelect.unsupported).
Proof.
  intros Hd.
  assert (HA : ∀ n, fst (All (Limit n iq)) = Go.Err unsupported).
  { intros n. unfold All. cbn. by rewrite Hd. }
  assert (HI : ∀ n, fst (IDs (Limit n iq)) = Returns (Go.Err ItemSelect.unsupported)).
  { intros n. by rewrite (IDs_other (Limit n iq) name). }
  split; [unfold All; by rewrite Hd | ].
  split; [unfold Count; by rewrite Hd | ].
  split; [unfold Exist; by rewrite Hd | ].
  split; [by rewrite First_All, HA | ].
  split; [by rewrite Only_All, HA | ].
  split.
  { unfold FirstX. pose proof (First_All iq) as HF. rewrite HA in HF.
    destruct (First iq) as [r iq']. cbn in HF. by rewrite HF. }
  split; [by rewrite (IDs_other iq name) | ].
  split; [by rewrite FirstID_IDs; cbn [fst]; rewrite HI | ].
  by rewrite OnlyID_IDs; cbn [fst]; rewrite HI.
Qed.

(** X18.  The order in which Where, Order, Limit and Offset are called
    on a builder does not matter between calls of different kinds; calls of
    Where and of Order add up in the order they are made, and of several
    calls of Limit or of Offset the last one counts. *)
Theorem builder_calls_commute iq (ps qs : list predicate.Item)
  (os os' : list ent.Order) (n m : Z) :
  (Where ps (Order os iq) = Order os (Where ps iq) ∧
   Where ps (Limit n iq) = Limit n (Where ps iq) ∧
   Where ps (Offset m iq) = Offset m (Where ps iq) ∧
   Order os (Limit n iq) = Limit n (Order os iq) ∧
   Order os (Offset m iq) = Offset m (Order os iq) ∧
   Limit n (Offset m iq) = Offset m (Limit n iq)) ∧
  (Where qs (Where ps iq) = Where (ps ++ qs) iq ∧
   Order os' (Order os iq) = Order (os ++ os') iq ∧
   Limit n (Limit m iq) = Limit n iq ∧
   Offset n (Offset m iq) = Offset n iq).
Proof.
  split; [repeat split | ].
  unfold Where, Order, set_predicates, set_order. cbn.
  by rewrite !(assoc_L (++)).
Qed.

End configuring.

Lemma limit_offset_window_witness :
  let iq := ent.ItemQuery.Limit 2 (ent.ItemQuery.Offset 1 (sample.items sample.tinkerpop)) in
  ent.ItemQuery.gremlinQuery iq =
    [dsl.V; dsl.HasLabel "item"; dsl.Range 1 (1 + 2); dsl.Dedup] ∧
  dsl.Range 1 (1 + 2) ∈ ent.ItemQuery.gremlinQuery iq.
Proof.
  intros iq. split; [reflexivity | ].
  apply (limit_offset_window iq 2 1); [reflexivity | reflexivity | lia].
Defined.

Lemma unsupported_dialect_witness :
  let iq := sample.items (dialect.mkDriver (dialect.Other "spanner") sample.query sample.exec) in
  fst (ent.ItemQuery.Count iq) = Go.Err ent.ItemQuery.unsupported ∧
  fst (ItemQueryX.IDs iq) = panics.Returns (Go.Err ItemSelect.unsupported).
Proof.
  intros iq.
  destruct (@unsupported_dialect sample.decoder sample_select.scanner iq "spanner" eq_refl)
    as (_ & HC & _ & _ & _ & _ & HI & _).
  split; [exact HC | exact HI].
Defined.

(** ** [NewGraph]: what makes it fail *)

Section failures.
Context `{gen.Naming}.
Implicit Types (g : gen.Graph) (t : gen.Type__) (e : gen.Edge).

Lemma foldl_Err {A B} (f : A → B → gen.result A) (xs : list B) err :
  foldl (fun r x => r ≫= fun a => f a x) (gen.Err err) xs = gen.Err err.
Proof. induction xs as [| x xs IH]; cbn; [done | apply IH]. Qed.

(** A loop fails when the body fails on one of the elements, whatever
    state it is reached in. *)
Lemma foldl_fails {A B} (E : gen.graphError → Prop) (P : A → Prop)
  (f : A → B → gen.result A) (x : B) (xs : list B) :
  x ∈ xs →
  (∀ a y, y ∈ xs → P a → graph.holds E P (f a y)) →
  (∀ a, P a → ∃ err, f a x = gen.Err err ∧ E err) →
  ∀ r, graph.holds E P r →
    ∃ err, foldl (fun r x => r ≫= fun a => f a x) r xs = gen.Err err ∧ E err.
Proof.
  intros Hx Hstep Hfail. induction xs as [| y xs IH]; intros r Hr.
  - by apply elem_of_nil in Hx.
  - cbn. destruct r as [a | err]; cbn in *.
    + apply elem_of_cons in Hx as [<- | Hx].
      * destruct (Hfail a Hr) as (err & -> & Herr). rewrite foldl_Err. eauto.
      * apply (IH Hx).
        -- intros a' y' Hy'. apply Hstep. by right.
        -- apply Hstep; [by left | done].
    + rewrite foldl_Err. eauto.
Qed.

Lemma typ_undeclared g name :
  name ∉ gen.TypeName <$> gen.Nodes g → gen.typ g name = None.
Proof.
  intros Hn. destruct (gen.typ g name) as [[i t] | ] eqn:Ht; [ | done].
  apply typ_Some in Ht as (Hi & <- & _). destruct Hn.
  apply list_elem_of_fmap_2. by eapply list_elem_of_lookup_2.
Qed.

(** One declaration of [addEdges]: the body of its loop. *)
Lemma addEdges_step_holds names fs g ti (d : load.Edge) :
  graph.attached names fs g → ti < length names →
  graph.holds graph.reported (graph.attached names fs)
    (t ← gen.node g ti;
     es ← gen.addEdge g ti t d;
     gen.Ok (gen.set_node ti (gen.set_Edges (gen.Edges t ++ es) t) g)).
Proof.
  intros Hg Hti. pose proof (attached_length _ _ _ Hg) as Hlen.
  eapply (holds_bind _ (fun t => gen.Nodes g !! ti = Some t));
    [apply node_lt; [lia | auto] | ]. intros t Ht.
  eapply holds_bind; [by apply (addEdge_holds names fs) | ].
  intros es Hes. cbn. destruct Hg as (Hn & Hf & He & Hi).
  split; [ | split; [ | split]].
  - rewrite <- Hn. by eapply names_set_node.
  - rewrite <- Hf. by eapply fields_set_node.
  - apply allEdges_set_node; [done | ]. cbn. apply Forall_app. split; [ | done].
    by eapply allEdges_lookup.
  - unfold gen.set_node. cbn. apply Forall_insert; [done | ]. cbn.
    exact (Forall_lookup_1 _ _ _ _ Hi Ht).
Qed.

Lemma addEdges_unknown_type names fs g (s : load.Schema) (d : load.Edge) :
  graph.attached names fs g → load.SchemaName s ∈ names →
  d ∈ load.Edges s → load.Type_ d ∉ names →
  ∃ err, gen.addEdges g s = gen.Err err ∧ graph.reported err.
Proof.
  intros Hg Hs Hd Hty. unfold gen.addEdges.
  pose proof Hg as (Hn & _).
  assert (Hin : load.SchemaName s ∈ gen.TypeName <$> gen.Nodes g) by by rewrite Hn.
  apply typ_declared in Hin as [[ti t0] Ht]. rewrite Ht. cbn.
  apply typ_Some in Ht as (_ & _ & Hti).
  rewrite (attached_length _ _ _ Hg) in Hti.
  apply (foldl_fails graph.reported (graph.attached names fs) _ d); [done | | | done].
  - intros g' d' _ Hg'. by apply addEdges_step_holds.
  - intros g' Hg'. pose proof Hg' as (Hn' & _).
    destruct (lookup_lt_is_Some_2 (gen.Nodes g') ti) as [t Hnode].
    { by rewrite (attached_length _ _ _ Hg'). }
    unfold gen.node. rewrite Hnode. cbn. unfold gen.addEdge.
    rewrite typ_undeclared by by rewrite Hn'. cbn.
    eexists. split; [reflexivity | done].
Qed.

(** X19.  An edge to a type that none of the schemas declares makes
    [NewGraph] fail, with an error it reports. *)
Theorem NewGraph_unknown_type (ss : list load.Schema) (s : load.Schema)
  (d : load.Edge) :
  s ∈ ss → d ∈ load.Edges s →
  load.Type_ d ∉ load.SchemaName <$> ss →
  ∃ err, gen.NewGraph ss = gen.Err err ∧ graph.reported err.
Proof.
  intros Hs Hd Hty. unfold gen.NewGraph. rewrite (addNodes ss []). cbn.
  destruct (foldl_fails graph.reported
              (graph.attached (load.SchemaName <$> ss) (load.Fields <$> ss))
              gen.addEdges s ss Hs) with (r := gen.Ok (gen.mkGraph (graph.newNode <$> ss)))
    as (err & -> & Herr).
  - intros g s' Hin Hg.
    apply addEdges_holds; [done | by apply list_elem_of_fmap_2].
  - intros g Hg. eapply addEdges_unknown_type; eauto. by apply list_elem_of_fmap_2.
  - apply attached_newNodes.
  - eauto.
Qed.

End failures.

Lemma NewGraph_unknown_type_witness :
  ∃ err,
    gen.NewGraph [load.mkSchema "User" [] [load.To "pets" "Pet"] []] = gen.Err err ∧
    graph.reported err.
Proof.
  apply (NewGraph_unknown_type _ (load.mkSchema "User" [] [load.To "pets" "Pet"] [])
           (load.To "pets" "Pet")); [by left | by left | ].
  cbn. intros Hin%list_elem_of_singleton. discriminate.
Defined.

(** ** [NewGraph]: the edges of the graph are the declared edges *)

Section declared.
Context `{gen.Naming}.
Implicit Types (g : gen.Graph) (t : gen.Type__) (e : gen.Edge).

Lemma typ_NoDup g i t :
  NoDup (gen.TypeName <$> gen.Nodes g) → gen.Nodes g !! i = Some t →
  gen.typ g (gen.TypeName t) = Some (i, t).
Proof.
  intros Hnd Ht. unfold gen.typ. apply list_find_Some.
  split; [done | split; [done | ]].
  intros j t' Ht' Hlt Heq.
  assert (j = i); [ | lia].
  apply (NoDup_lookup _ j i (gen.TypeName t) Hnd).
  - by rewrite list_lookup_fmap, Ht', Heq.
  - by rewrite list_lookup_fmap, Ht.
Qed.

Lemma ofType_skeleton names t t' :
  graph.skeletonType t' = graph.skeletonType t →
  decl.ofType names t' = decl.ofType names t.
Proof.
  intros [= _ _ He]. unfold decl.ofType.
  apply (f_equal (fmap (decl.ofEdge names))) in He.
  by rewrite <- !list_fmap_compose in He.
Qed.

Lemma ofType_refines names g g' i t t' :
  graph.skeletonGraph g' = graph.skeletonGraph g →
  gen.Nodes g !! i = Some t → gen.Nodes g' !! i = Some t' →
  decl.ofType names t' = decl.ofType names t.
Proof.
  intros [= Hs] Ht Ht'. apply ofType_skeleton.
  apply (f_equal (fun l => l !! i)) in Hs.
  rewrite !list_lookup_fmap, Ht, Ht' in Hs. by apply (inj Some).
Qed.

(** The edges [addEdge] makes of a declaration are the declared ones. *)
Lemma addEdge_declared g ti t (d : load.Edge) es :
  gen.addEdge g ti t d = gen.Ok es →
  decl.ofEdge (gen.TypeName <$> gen.Nodes g) <$> es = decl.edges d.
Proof.
  unfold gen.addEdge, decl.edges.
  destruct (gen.typ g (load.Type_ d)) as [[i t'] | ] eqn:Ht; [ | done].
  apply typ_Some in Ht as (Hi & Hn & _).
  assert (Hty : (gen.TypeName <$> gen.Nodes g) !! i = Some (load.Type_ d)).
  { by rewrite list_lookup_fmap, Hi, <- Hn. }
  destruct (negb (load.Inverse d)).
  { intros [= <-]. cbn. unfold decl.ofEdge. cbn. by rewrite Hty. }
  destruct (load.Ref d) as [ref | ].
  - intros (_ & _ & (_ & _ & [= <-])%bind_Ok)%bind_Ok.
    cbn. unfold decl.ofEdge. cbn. by rewrite Hty.
  - intros (_ & _ & [= <-])%bind_Ok. cbn. unfold decl.ofEdge. cbn. by rewrite Hty.
Qed.

(** The edge phase of [NewGraph], schema by schema: the nodes of the
    schemas gone through have the declared edges, the others none. *)
Lemma addEdges_declared names fs (pre post : list load.Schema) (s : load.Schema) g :
  NoDup names → names = load.SchemaName <$> (pre ++ s :: post) →
  graph.attached names fs g →
  (∀ i t, gen.Nodes g !! i = Some t →
     decl.ofType names t = from_option decl.ofSchema [] (pre !! i)) →
  graph.holds graph.reported
    (fun g' =>
       graph.attached names fs g' ∧
       ∀ i t, gen.Nodes g' !! i = Some t →
         decl.ofType names t = from_option decl.ofSchema [] ((pre ++ [s]) !! i))
    (gen.addEdges g s).
Proof.
  intros Hnd Hnames Hg Hview. pose proof Hg as (Hn & _).
  pose proof (attached_length _ _ _ Hg) as Hlen.
  set (ti := length pre).
  assert (Hti : names !! ti = Some (load.SchemaName s)).
  { rewrite Hnames, list_lookup_fmap. unfold ti.
    by rewrite lookup_app_r, Nat.sub_diag. }
  assert (Hlt : ti < length names) by by eapply lookup_lt_Some.
  destruct (lookup_lt_is_Some_2 (gen.Nodes g) ti) as [t0 Ht0]; [lia | ].
  assert (Hname0 : gen.TypeName t0 = load.SchemaName s).
  { rewrite <- Hn, list_lookup_fmap, Ht0 in Hti. by injection Hti. }
  unfold gen.addEdges. rewrite <- Hname0, (typ_NoDup g ti t0) by by rewrite ?Hn.
  cbn.
  set (P := fun (epre : list load.Edge) g' =>
              graph.attached names fs g' ∧
              (∀ i t, i ≠ ti → gen.Nodes g' !! i = Some t →
                 decl.ofType names t = from_option decl.ofSchema [] (pre !! i)) ∧
              (∀ t, gen.Nodes g' !! ti = Some t →
                 decl.ofType names t = epre ≫= decl.edges)).
  apply (holds_mono _ (P (load.Edges s))).
  { intros g' (Hg' & Hother & Hown). split; [done | ]. intros i t Ht.
    destruct (decide (i = ti)) as [-> | Hne].
    - unfold ti. rewrite lookup_app_r, Nat.sub_diag by done. cbn. by apply Hown.
    - rewrite (Hother i t Hne Ht).
      destruct (decide (i < ti)) as [Hi | Hi].
      + by rewrite lookup_app_l.
      + rewrite (lookup_ge_None_2 pre i) by (unfold ti in *; lia).
        rewrite lookup_ge_None_2; [done | ]. rewrite length_app. cbn.
        unfold ti in *. lia. }
  apply (foldl_holds graph.reported P _ (load.Edges s) [] (load.Edges s));
    [done | | ].
  - intros epre d g' _ _ (Hg' & Hother & Hown). pose proof Hg' as (Hn' & _).
    pose proof (attached_length _ _ _ Hg') as Hlen'.
    destruct (lookup_lt_is_Some_2 (gen.Nodes g') ti) as [t Ht]; [lia | ].
    unfold gen.node. rewrite Ht. cbn.
    pose proof (addEdges_step_holds names fs g' ti d Hg' Hlt) as Hstep.
    unfold gen.node in Hstep. rewrite Ht in Hstep. cbn in Hstep.
    destruct (gen.addEdge g' ti t d) as [es | err] eqn:Hes; cbn in *; [ | done].
    split; [done | split].
    + intros i t' Hne. unfold gen.set_node. cbn.
      rewrite list_lookup_insert_ne by done. by apply Hother.
    + intros t'. unfold gen.set_node. cbn.
      rewrite list_lookup_insert_eq by by eapply lookup_lt_Some.
      intros [= <-]. unfold decl.ofType. cbn.
      rewrite fmap_app, bind_app. cbn. rewrite app_nil_r.
      f_equal; [by apply Hown | ].
      rewrite <- Hn'. by eapply addEdge_declared.
  - split; [done | split].
    + intros i t _. apply Hview.
    + intros t Ht. rewrite (Hview ti t Ht). unfold ti.
      by rewrite lookup_ge_None_2.
Qed.

Lemma addEdges_all_declared (ss : list load.Schema) :
  NoDup (load.SchemaName <$> ss) →
  graph.holds graph.reported
    (fun g =>
       graph.attached (load.SchemaName <$> ss) (load.Fields <$> ss) g ∧
       ∀ i t, gen.Nodes g !! i = Some t →
         decl.ofType (load.SchemaName <$> ss) t =
           from_option decl.ofSchema [] (ss !! i))
    (foldl (fun (r : gen.result gen.Graph) s => r ≫= fun g => gen.addEdges g s)
           (gen.Ok (gen.mkGraph (graph.newNode <$> ss))) ss).
Proof.
  intros Hnd.
  set (names := load.SchemaName <$> ss). set (fs := load.Fields <$> ss).
  apply (foldl_holds graph.reported
           (fun pre g =>
              graph.attached names fs g ∧
              ∀ i t, gen.Nodes g !! i = Some t →
                decl.ofType names t = from_option decl.ofSchema [] (pre !! i))
           gen.addEdges ss [] ss); [done | | ].
  - intros pre s g _ [post Hss] [Hg Hview].
    eapply addEdges_declared; [done | unfold names; by rewrite Hss | done | done].
  - split; [apply attached_newNodes | ].
    intros i t. cbn. rewrite list_lookup_fmap.
    destruct (ss !! i); cbn; [ | done]. by intros [= <-].
Qed.

(** The phases of a run of [NewGraph] that succeeds: the graph after the
    edge phase, and what resolution and the index phase make of it. *)
Lemma NewGraph_phases (ss : list load.Schema) g :
  gen.NewGraph ss = gen.Ok g →
  ∃ g2,
    foldl (fun (r : gen.result gen.Graph) s => r ≫= fun g => gen.addEdges g s)
          (gen.Ok (gen.mkGraph (graph.newNode <$> ss))) ss = gen.Ok g2 ∧
    graph.attached (load.SchemaName <$> ss) (load.Fields <$> ss) g2 ∧
    graph.refines (load.SchemaName <$> ss) g2 g ∧
    ∀ ti, graph.nodeResolved g2 g ti.
Proof.
  intros Hg. unfold gen.NewGraph in Hg.
  rewrite (addNodes ss []) in Hg. cbn in Hg.
  apply bind_Ok in Hg as (g2 & Hg2 & Hg). exists g2. split; [done | ].
  assert (Hatt : graph.attached (load.SchemaName <$> ss) (load.Fields <$> ss) g2).
  { pose proof (addEdges_all _ _ _ ss (attached_newNodes ss)) as H2.
    rewrite Hg2 in H2. apply H2. intros s Hs. by apply list_elem_of_fmap_2. }
  split; [done | ].
  apply bind_Ok in Hg as (g3 & Hg3 & Hg4).
  pose proof (resolve_all _ _ g2 Hatt) as H3. rewrite Hg3 in H3.
  destruct H3 as [Href3 Hall]. pose proof Href3 as (Hs3 & Hr3 & _).
  pose proof (addIndexes_all (load.SchemaName <$> ss) g3 ss Hr3) as H4.
  rewrite Hg4 in H4. cbn in H4.
  assert (Href4 : graph.refines (load.SchemaName <$> ss) g3 g).
  { apply H4. intros s' Hs'. rewrite (skeleton_names _ _ Hs3).
    destruct Hatt as (-> & _). by apply list_elem_of_fmap_2. }
  split; [by eapply refines_trans | ].
  intros ti. by eapply nodeResolved_mono.
Qed.

(** X20.  When the schemas have different names, the edges of every node
    of the graph are the edges its schema declares, in the order of the
    declarations: each has the declared name, is the inverse of the edge it
    was declared the inverse of, and points to the node of the declared
    type; a declaration of an edge together with its inverse gives the two
    edges, the inverse first. *)
Theorem NewGraph_edges_declared (ss : list load.Schema) g i (s : load.Schema) t :
  NoDup (load.SchemaName <$> ss) →
  gen.NewGraph ss = gen.Ok g →
  ss !! i = Some s → gen.Nodes g !! i = Some t →
  decl.ofType (load.SchemaName <$> ss) t = decl.ofSchema s.
Proof.
  intros Hnd Hg Hs Ht.
  destruct (NewGraph_phases ss g Hg) as (g2 & Hg2 & Hatt & (Hsk & _) & _).
  pose proof (addEdges_all_declared ss Hnd) as H2. rewrite Hg2 in H2.
  destruct H2 as [_ Hview].
  destruct (lookup_lt_is_Some_2 (gen.Nodes g2) i) as [t2 Ht2].
  { rewrite <- (skeleton_length _ _ Hsk). by eapply lookup_lt_Some. }
  rewrite (ofType_refines _ g2 g i t2 t Hsk Ht2 Ht), (Hview i t2 Ht2), Hs. done.
Qed.

(** X21.  An inverse edge whose reference names no forward edge of the
    type it points to makes [NewGraph] fail, with an error it reports. *)
Theorem NewGraph_inverse_without_forward (ss : list load.Schema)
  (s s' : load.Schema) (d : load.Edge) :
  NoDup (load.SchemaName <$> ss) →
  s ∈ ss → d ∈ load.Edges s →
  load.Inverse d = true → load.Ref d = None → load.RefName d ≠ "" →
  s' ∈ ss → load.SchemaName s' = load.Type_ d →
  (load.RefName d, "") ∉ (fun x => (x.1.1, x.1.2)) <$> decl.ofSchema s' →
  ∃ err, gen.NewGraph ss = gen.Err err ∧ graph.reported err.
Proof.
  intros Hnd Hs Hd Hinv Href Hname Hs' Hty Hmissing.
  pose proof (NewGraph_holds ss) as Hh.
  destruct (gen.NewGraph ss) as [g | err] eqn:Hg; [exfalso | eauto].
  clear Hh. set (names := load.SchemaName <$> ss) in *.
  destruct (NewGraph_phases ss g Hg) as (g2 & Hg2 & Hatt & _ & Hres).
  pose proof (addEdges_all_declared ss Hnd) as H2. rewrite Hg2 in H2.
  destruct H2 as [_ Hview]. fold names in Hview.
  pose proof (attached_length _ _ _ Hatt) as Hlen.
  apply list_elem_of_lookup_1 in Hs as [i Hi].
  apply list_elem_of_lookup_1 in Hs' as [j Hj].
  (* the inverse edge, in the graph after the edge phase *)
  destruct (lookup_lt_is_Some_2 (gen.Nodes g2) i) as [t2 Ht2].
  { rewrite Hlen. unfold names. rewrite length_fmap. by eapply lookup_lt_Some. }
  pose proof (Hview i t2 Ht2) as Hv. rewrite Hi in Hv. cbn in Hv.
  assert (Hin : (load.Name d, load.RefName d, Some (load.Type_ d)) ∈ decl.ofType names t2).
  { rewrite Hv. unfold decl.ofSchema. apply list_elem_of_bind. exists d.
    split; [ | done]. unfold decl.edges. rewrite Hinv, Href. cbn. by left. }
  apply list_elem_of_fmap in Hin as (e2 & He2 & [ei Hei]%list_elem_of_lookup_1).
  injection He2 as _ Hinv2 Hty2.
  assert (Hat : graph.edgeAt g2 i ei = Some e2) by (apply edgeAt_Some; eauto).
  destruct (Hres i ei e2 Hat) as [_ Hok].
  apply (proj1 (inverseOk_skeleton g2 i e2)) in Hok.
  destruct Hok as (etype & ri & ref & Hety & Hassoc & _).
  { unfold gen.IsInverse. rewrite <- Hinv2. by rewrite bool_decide_eq_false_2. }
  (* the type it points to is the node of the schema of that name *)
  assert (Hpos : gen.Type_ e2 = j).
  { apply (NoDup_lookup names _ _ (load.Type_ d) Hnd); [done | ].
    unfold names. by rewrite list_lookup_fmap, Hj, <- Hty. }
  rewrite Hpos in Hety.
  pose proof (Hview j etype Hety) as Hv'. rewrite Hj in Hv'. cbn in Hv'.
  apply HasAssoc_Some in Hassoc as (Hri & Hrn & Hrinv).
  apply Hmissing. rewrite <- Hv'.
  apply list_elem_of_fmap. exists (decl.ofEdge names ref). split.
  - cbn. rewrite Hrn, <- Hinv2. f_equal.
    unfold gen.IsInverse in Hrinv. apply negb_false_iff in Hrinv.
    by apply bool_decide_eq_true_1 in Hrinv.
  - apply list_elem_of_fmap_2. by eapply list_elem_of_lookup_2.
Qed.

End declared.

Lemma NewGraph_edges_declared_witness :
  match gen.NewGraph (schemas.household true true false) with
  | gen.Ok g =>
      match gen.Nodes g !! 0 with
      | Some t =>
          decl.ofType ["User"; "Pet"] t =
            [("spouse", "spouse", Some "User"); ("spouse", "", Some "User");
             ("pets", "", Some "Pet")]
      | None => False
      end
  | gen.Err _ => False
  end.
Proof.
  destruct (gen.NewGraph (schemas.household true true false)) as [g | e] eqn:Hg.
  - destruct (gen.Nodes g !! 0) as [t | ] eqn:Ht.
    + apply (NewGraph_edges_declared (schemas.household true true false) g 0
               (load.mkSchema "User" []
                  [schemas.spouse; load.To "pets" "Pet"] []) t);
        [ | done | done | done].
      cbn. apply NoDup_cons. split; [ | apply NoDup_singleton].
      intros Hin%list_elem_of_singleton. discriminate.
    + vm_compute in Hg. injection Hg as <-. discriminate.
  - vm_compute in Hg. discriminate.
Defined.

Lemma NewGraph_inverse_without_forward_witness :
  ∃ err,
    gen.NewGraph
      [load.mkSchema "User" [] [] [];
       load.mkSchema "Pet" [] [load.From "owner" "User" "pets"] []] = gen.Err err ∧
    graph.reported err.
Proof.
  apply (NewGraph_inverse_without_forward _
           (load.mkSchema "Pet" [] [load.From "owner" "User" "pets"] [])
           (load.mkSchema "User" [] [] [])
           (load.From "owner" "User" "pets")).
  - cbn. apply NoDup_cons. split; [ | apply NoDup_singleton].
    intros Hin%list_elem_of_singleton. discriminate.
  - right. left.
  - left.
  - reflexivity.
  - reflexivity.
  - discriminate.
  - left.
  - reflexivity.
  - cbn. apply not_elem_of_nil.
Defined.

(** ** Selections *)

Section selections.
Import panics select ent ent.ItemQuery ItemQueryX.
Context `{Scanner}.
Implicit Types (iq : ItemQuery.t).

(** X22.  Scan and Strings on a selection made by Select never
    dereference a nil pointer, whatever the dialect: Select prepares the
    intermediate query of the dialect Scan dispatches on.  Strings on a
    selection of more than one field fails with its own error, whatever the
    driver would answer. *)
Theorem Select_Scan_never_nil_pointer iq (field : string) (fields : list string) :
  let its := fst (Select field fields iq) in
  ItemSelect.Scan its ≠ Panics NilPointer ∧
  ItemSelect.Strings its ≠ Panics NilPointer ∧
  (fields ≠ [] →
   ItemSelect.Strings its =
     Returns (Go.Err (Go.ErrNew
       "ent: ItemSelect.Strings is not achievable when selecting more than 1 field"))).
Proof.
  cbv zeta.
  assert (HS : ItemSelect.Scan (fst (Select field fields iq)) ≠ Panics NilPointer).
  { unfold Select, ItemSelect.Scan.
    destruct (dialect.Dialect_ (driver (config_ iq))) eqn:Hd; cbn; by rewrite Hd. }
  split; [done | ].
  assert (Hf : ItemSelect.fields (fst (Select field fields iq)) = field :: fields).
  { unfold Select. by destruct (dialect.Dialect_ _). }
  unfold ItemSelect.Strings. rewrite Hf. cbn [length]. split.
  - by destruct (bool_decide _).
  - intros Hne. rewrite bool_decide_eq_true_2; [done | ].
    destruct fields; [done | cbn; lia].
Qed.

End selections.

Lemma Select_Scan_never_nil_pointer_witness :
  ItemSelect.Strings
    (fst (ItemQueryX.Select "id" ["name"] (sample.items sample.mysql))) =
  panics.Returns (Go.Err (Go.ErrNew
    "ent: ItemSelect.Strings is not achievable when selecting more than 1 field")).
Proof.
  apply (@Select_Scan_never_nil_pointer sample_select.scanner
           (sample.items sample.mysql) "id" ["name"]).
  discriminate.
Defined.

(** A selection that Select did not make has no intermediate query to
    read. *)
Example Scan_without_Select :
  ItemSelect.Scan (ItemSelect.mk (ent.mkConfig sample.mysql) ["id"] None None) =
  panics.Panics panics.NilPointer.
Proof. reflexivity. Qed.

(** ** The panicking variants *)

Section panicking.
Import panics select ent ent.ItemQuery ItemQueryX.
Context `{Decoder}.
Implicit Types (iq : ItemQuery.t).

Lemma foreign_own e : foreign e → own e = false.
Proof. by intros [[msg ->] | ->]. Qed.

Lemma Count_err_shape iq e :
  fst (Count iq) = Go.Err e →
  foreign e ∨ e = Go.ErrNew "ent: no rows found" ∨
  ∃ e', e = Go.ErrWrap "ent: failed reading count" e'.
Proof.
  unfold Count. destruct (dialect.Dialect_ _).
  1,2: intros [[msg ->] | [-> | [e' ->]]]%sqlCount_err;
       [left; left; eauto | right; by left | right; right; eauto].
  - intros [msg ->]%gremlinCount_err. left. left. eauto.
  - intros [= <-]. left. by right.
Qed.

Lemma Exist_err_shape iq e :
  fst (Exist iq) = Go.Err e →
  foreign e ∨
  ∃ e', e = Go.ErrWrap "ent: check existence" e' ∧ fst (Count iq) = Go.Err e'.
Proof.
  unfold Exist, Count. destruct (dialect.Dialect_ _).
  1,2: rewrite sqlExist_sqlCount; destruct (fst (sqlCount iq)) as [n | e']; [done | ];
       intros [= <-]; right; eauto.
  - intros [msg ->]%gremlinExist_err. left. left. eauto.
  - intros [= <-]. left. by right.
Qed.

(** X23.  What the variants panic with.  AllX and FirstX panic only
    with an error of the backend or with the error of an unsupported
    dialect.  CountX panics with those, with "ent: no rows found" and with a
    scan error behind "ent: failed reading count"; ExistX with those and
    with the error of Count behind "ent: check existence".  None of the four
    panics with a not-found or not-singular error, or with a nil pointer
    dereference.  (OnlyX does panic with not-found and not-singular
    errors.) *)
Theorem X_variants_panic_values iq (c : cause) :
  (fst (AllX iq) = Panics c ∨ fst (FirstX iq) = Panics c →
   ∃ e, c = Error e ∧ foreign e) ∧
  (fst (CountX iq) = Panics c →
   ∃ e, c = Error e ∧ fst (Count iq) = Go.Err e ∧
        (foreign e ∨ e = Go.ErrNew "ent: no rows found" ∨
         ∃ e', e = Go.ErrWrap "ent: failed reading count" e')) ∧
  (fst (ExistX iq) = Panics c →
   ∃ e, c = Error e ∧ fst (Exist iq) = Go.Err e ∧
        (foreign e ∨
         ∃ e', e = Go.ErrWrap "ent: check existence" e' ∧
               fst (Count iq) = Go.Err e')) ∧
  (fst (AllX iq) = Panics c ∨ fst (CountX iq) = Panics c ∨
   fst (ExistX iq) = Panics c ∨ fst (FirstX iq) = Panics c →
   ∃ e, c = Error e ∧ own e = false).
Proof.
  assert (HA : fst (AllX iq) = Panics c → ∃ e, c = Error e ∧ foreign e).
  { unfold AllX. pose proof (All_err iq) as He.
    destruct (All iq) as [[its | e] iq']; cbn in *; [done | ].
    intros [= <-]. eauto. }
  assert (HF : fst (FirstX iq) = Panics c → ∃ e, c = Error e ∧ foreign e).
  { unfold FirstX. pose proof (First_All iq) as HF.
    pose proof (All_err (Limit 1 iq)) as He.
    destruct (First iq) as [[i | e] iq']; cbn in *; [done | ].
    destruct (IsNotFound e) eqn:Hnf; cbn; [done | ].
    intros [= <-]. eexists. split; [done | ].
    destruct (fst (All (Limit 1 iq))) as [[| i its] | e']; [ | done | ].
    - injection HF as ->. done.
    - injection HF as ->. by apply He. }
  assert (HC : fst (CountX iq) = Panics c →
               ∃ e, c = Error e ∧ fst (Count iq) = Go.Err e ∧
                    (foreign e ∨ e = Go.ErrNew "ent: no rows found" ∨
                     ∃ e', e = Go.ErrWrap "ent: failed reading count" e')).
  { unfold CountX. pose proof (Count_err_shape iq) as He.
    destruct (Count iq) as [[n | e] iq']; cbn in *; [done | ].
    intros [= <-]. eauto. }
  assert (HE : fst (ExistX iq) = Panics c →
               ∃ e, c = Error e ∧ fst (Exist iq) = Go.Err e ∧
                    (foreign e ∨
                     ∃ e', e = Go.ErrWrap "ent: check existence" e' ∧
                           fst (Count iq) = Go.Err e')).
  { unfold ExistX. pose proof (Exist_err_shape iq) as He.
    destruct (Exist iq) as [[b | e] iq']; cbn in *; [done | ].
    intros [= <-]. eauto. }
  split; [intros [Hc | Hc]; auto | ]. split; [done | ]. split; [done | ].
  intros [Hc | [Hc | [Hc | Hc]]].
  - destruct (HA Hc) as (e & -> & He). eauto using foreign_own.
  - destruct (HC Hc) as (e & -> & Hcount & _). eauto using Count_err.
  - destruct (HE Hc) as (e & -> & Hexist & _). eauto using Exist_err.
  - destruct (HF Hc) as (e & -> & He). eauto using foreign_own.
Qed.

End panicking.

Lemma FromRows_keeps_sqlAll_drops_witness :
  let rows := [[sql.VString "1"]; [sql.VInt 2]; [sql.VString "3"]] in
  let iq := sample.items (dialect.mkDriver dialect.MySQL (fun _ => inr rows) sample.exec) in
  Items.FromRows [] rows = (Some (Go.ErrBackend "scan"), [ent.mkItem None "1"]) ∧
  fst (ent.ItemQuery.sqlAll iq) = Go.Err (Go.ErrBackend "scan").
Proof.
  intros rows iq. split; [reflexivity | ].
  destruct (@FromRows_keeps_sqlAll_drops sample.decoder [] rows iq) as [_ Hall].
  rewrite Hall; reflexivity.
Defined.

Lemma X_variants_panic_values_witness :
  let iq := sample.items (dialect.mkDriver dialect.MySQL (fun _ => inr []) sample.exec) in
  ∃ e, panics.Error (Go.ErrNew "ent: no rows found") = panics.Error e ∧
       fst (ent.ItemQuery.Count iq) = Go.Err e ∧
       (ent.ItemQuery.foreign e ∨ e = Go.ErrNew "ent: no rows found" ∨
        ∃ e', e = Go.ErrWrap "ent: failed reading count" e').
Proof.
  intros iq.
  destruct (@X_variants_panic_values sample.decoder iq
              (panics.Error (Go.ErrNew "ent: no rows found"))) as (_ & HC & _).
  apply HC. reflexivity.
Defined.

(** ** The sample drivers, once more *)

Section more_examples.
Import panics ent ent.ItemQuery ItemQueryX sample.

Example ids_sql : fst (IDs (items mysql)) = Returns (Go.Ok ["1"; "2"; "3"]).
Proof. reflexivity. Qed.

Example ids_gremlin : fst (IDs (items tinkerpop)) = Returns (Go.Ok ["1"; "2"]).
Proof. reflexivity. Qed.

Example only_id_gremlin :
  fst (OnlyID (items tinkerpop)) = Returns (Go.Err (Go.ErrNotSingular "item")).
Proof. reflexivity. Qed.

Example only_id_sql_offset :
  fst (OnlyID (Offset 2 (items mysql))) = Returns (Go.Ok "3").
Proof. reflexivity. Qed.

Example first_x_none : fst (FirstX (Offset 3 (items mysql))) = Returns None.
Proof. reflexivity. Qed.

Example only_x_none :
  fst (OnlyX (Offset 3 (items mysql))) = Panics (Error (Go.ErrNotFound "item")).
Proof. reflexivity. Qed.

End more_examples.

(** ** The two sides of a relation agree *)

Section pairs.
Context `{gen.Naming}.
Implicit Types (g : gen.Graph) (t : gen.Type__) (e : gen.Edge).

Lemma partner_Some g e tq rq :
  pairing.partner g e = Some (tq, rq) →
  tq = gen.Type_ e ∧
  ∃ etype ref,
    gen.Nodes g !! gen.Type_ e = Some etype ∧
    gen.HasAssoc etype (gen.Inverse e) = Some (rq, ref) ∧
    graph.edgeAt g tq rq = Some ref ∧ gen.IsInverse ref = false.
Proof.
  unfold pairing.partner.
  destruct (gen.Nodes g !! gen.Type_ e) as [etype | ] eqn:Hn; [ | done]. cbn.
  destruct (gen.HasAssoc etype (gen.Inverse e)) as [[ri ref] | ] eqn:Hh; [ | done].
  cbn. intros [= <- <-]. split; [done | ]. exists etype, ref.
  destruct (HasAssoc_Some _ _ _ _ Hh) as (Hr & _ & Hinv).
  repeat split; try done. apply edgeAt_Some. eauto.
Qed.

Lemma partner_skeleton g e :
  pairing.partner (graph.skeletonGraph g) (graph.skeleton e) = pairing.partner g e.
Proof.
  unfold pairing.partner.
  change (gen.Type_ (graph.skeleton e)) with (gen.Type_ e).
  change (gen.Inverse (graph.skeleton e)) with (gen.Inverse e).
  unfold graph.skeletonGraph. cbn [gen.Nodes]. rewrite list_lookup_fmap.
  destruct (gen.Nodes g !! gen.Type_ e) as [etype | ]; [ | done].
  cbn [fmap option_fmap option_map mbind option_bind].
  rewrite HasAssoc_skeleton.
  by destruct (gen.HasAssoc etype (gen.Inverse e)) as [[ri ref] | ].
Qed.

Lemma partner_same g g' e e' :
  graph.skeletonGraph g' = graph.skeletonGraph g →
  graph.skeleton e' = graph.skeleton e →
  pairing.partner g' e' = pairing.partner g e.
Proof.
  intros Hg He. by rewrite <- (partner_skeleton g'), <- (partner_skeleton g), Hg, He.
Qed.

Lemma skeleton_IsInverse e e' :
  graph.skeleton e' = graph.skeleton e → gen.IsInverse e' = gen.IsInverse e.
Proof. intros [= _ _ _ Hi _ _ _]. unfold gen.IsInverse. by rewrite Hi. Qed.

Lemma unshared_skeleton g g' :
  graph.skeletonGraph g' = graph.skeletonGraph g →
  pairing.unshared g → pairing.unshared g'.
Proof.
  intros Hs Hu ti ei e tj ej e' q He He' Hi Hi' Hp Hp'.
  destruct (skeleton_edgeAt g' g ti ei e (eq_sym Hs) He) as (e0 & He0 & Hs0).
  destruct (skeleton_edgeAt g' g tj ej e' (eq_sym Hs) He') as (e0' & He0' & Hs0').
  apply (Hu ti ei e0 tj ej e0' q); try done.
  - by rewrite (skeleton_IsInverse _ _ Hs0).
  - by rewrite (skeleton_IsInverse _ _ Hs0').
  - by rewrite <- (partner_same g g' e0 e Hs (eq_sym Hs0)).
  - by rewrite <- (partner_same g g' e0' e' Hs (eq_sym Hs0')).
Qed.

(** What [resolveEdge] does to the graph. *)
Lemma resolveEdge_edge g ti ei g' :
  gen.resolveEdge g ti ei = gen.Ok g' → ∃ e, graph.edgeAt g ti ei = Some e.
Proof.
  unfold gen.resolveEdge, gen.node.
  destruct (gen.Nodes g !! ti) as [t | ] eqn:Ht; [ | done]. cbn.
  destruct (gen.Edges t !! ei) as [e | ] eqn:He; [ | done]. intros _.
  exists e. apply edgeAt_Some. eauto.
Qed.

Lemma resolveEdge_inverse g ti ei e g' :
  graph.edgeAt g ti ei = Some e → gen.IsInverse e = true →
  gen.resolveEdge g ti ei = gen.Ok g' →
  ∃ ri ref kind table cols,
    pairing.partner g e = Some (gen.Type_ e, ri) ∧
    graph.edgeAt g (gen.Type_ e) ri = Some ref ∧
    gen.IsInverse ref = false ∧ kind ≠ gen.Unk ∧
    g' = gen.set_edge (gen.Type_ e) ri
           (gen.set_Rel (gen.mkRelation (pairing.mirror kind) table cols) ref)
           (gen.set_edge ti ei (gen.set_Rel (gen.mkRelation kind table cols) e) g).
Proof.
  intros (t & Ht & Het)%edgeAt_Some Hinv.
  unfold gen.resolveEdge, gen.node. rewrite Ht. cbn. rewrite Het. cbn. rewrite Hinv.
  destruct (gen.Nodes g !! gen.Type_ e) as [etype | ] eqn:Hety; [ | done]. cbn.
  destruct (gen.HasAssoc etype (gen.Inverse e)) as [[ri ref] | ] eqn:Hha; [ | done].
  pose proof (HasAssoc_Some _ _ _ _ Hha) as (Href & _ & Hrinv).
  assert (Hp : pairing.partner g e = Some (gen.Type_ e, ri)).
  { unfold pairing.partner. rewrite Hety. cbn. by rewrite Hha. }
  assert (Hat : graph.edgeAt g (gen.Type_ e) ri = Some ref).
  { apply edgeAt_Some. eauto. }
  destruct (negb (gen.Optional e) && negb (gen.Optional ref)); [done | ].
  destruct (negb (bool_decide (gen.Type_ ref = ti))); [done | ].
  destruct (gen.Unique ref), (gen.Unique e); cbn.
  - intros [= <-]. by exists ri, ref, gen.O2O, (gen.Table (gen.TypeName t)),
      [gen.snake (gen.Name e) +:+ "_id"].
  - intros [= <-]. by exists ri, ref, gen.O2M, (gen.Table (gen.TypeName etype)),
      [gen.snake (gen.Name ref) +:+ "_id"].
  - intros [= <-]. by exists ri, ref, gen.M2O, (gen.Table (gen.TypeName t)),
      [gen.snake (gen.Name e) +:+ "_id"].
  - destruct (gen.Nodes g !! gen.Owner ref) as [rowner | ]; [ | done]. cbn.
    destruct (gen.Nodes g !! gen.Type_ ref) as [rtype | ]; [ | done]. cbn.
    intros [= <-]. eexists ri, ref, gen.M2M, _, _. by repeat split.
Qed.

Lemma resolveEdge_forward g ti ei e g' :
  graph.edgeAt g ti ei = Some e → gen.IsInverse e = false →
  gen.resolveEdge g ti ei = gen.Ok g' →
  (gen.RelType (gen.Rel_ e) ≠ gen.Unk ∧ g' = g) ∨
  (gen.RelType (gen.Rel_ e) = gen.Unk ∧
   ∃ e2, graph.skeleton e2 = graph.skeleton e ∧ g' = gen.set_edge ti ei e2 g).
Proof.
  intros (t & Ht & Het)%edgeAt_Some Hinv.
  unfold gen.resolveEdge, gen.node. rewrite Ht. cbn. rewrite Het. cbn. rewrite Hinv.
  destruct (bool_decide (gen.RelType (gen.Rel_ e) = gen.Unk)) eqn:Hunk.
  - apply bool_decide_eq_true in Hunk. intros Hres. right. split; [done | ].
    apply bind_Ok in Hres as (e1 & He1 & [= <-]).
    assert (Hs1 : graph.skeleton e1 = graph.skeleton e).
    { destruct (negb (gen.Unique e) && bool_decide (gen.Type_ e = ti)).
      - apply bind_Ok in He1 as (eowner & _ & [= <-]). done.
      - destruct (gen.Unique e && bool_decide (gen.Type_ e = ti));
          [by injection He1 as <- | ].
        destruct (gen.Unique e); [by injection He1 as <- | ].
        apply bind_Ok in He1 as (etype & _ & [= <-]). done. }
    eexists. split; [ | reflexivity].
    by destruct (negb (gen.IsM2M e1)).
  - apply bool_decide_eq_false in Hunk. intros [= <-]. by left.
Qed.

(** One step of resolution keeps the sides it has paired, and pairs the
    edge it is about when that is an inverse edge. *)
Lemma resolveEdge_paired (D : nat → nat → Prop) g ti ei g' :
  pairing.unshared g → pairing.paired D g →
  gen.resolveEdge g ti ei = gen.Ok g' →
  graph.skeletonGraph g' = graph.skeletonGraph g ∧
  pairing.paired (fun tj ej => D tj ej ∨ (tj, ej) = (ti, ei)) g'.
Proof.
  intros Hu Hpd Hres.
  destruct (resolveEdge_edge _ _ _ _ Hres) as [e He].
  destruct (gen.IsInverse e) eqn:Hinv.
  - destruct (resolveEdge_inverse _ _ _ _ _ He Hinv Hres)
      as (ri & ref & kind & table & cols & Hp & Href & Hrinv & Hkind & ->).
    set (e' := gen.set_Rel (gen.mkRelation kind table cols) e).
    set (ref' := gen.set_Rel (gen.mkRelation (pairing.mirror kind) table cols) ref).
    set (g1 := gen.set_edge ti ei e' g).
    assert (Hne : (ti, ei) ≠ (gen.Type_ e, ri)).
    { intros [= Hti Hei]. rewrite <- Hti, <- Hei in Href. congruence. }
    assert (Href1 : graph.edgeAt g1 (gen.Type_ e) ri = Some ref).
    { unfold g1. by rewrite edgeAt_set_edge_ne. }
    assert (Hs1 : graph.skeletonGraph g1 = graph.skeletonGraph g).
    { by apply (skeleton_set_edge g ti ei e). }
    assert (Hs2 : graph.skeletonGraph (gen.set_edge (gen.Type_ e) ri ref' g1) =
                  graph.skeletonGraph g).
    { rewrite <- Hs1. by apply (skeleton_set_edge g1 _ _ ref). }
    split; [done | ].
    assert (Hq : graph.edgeAt (gen.set_edge (gen.Type_ e) ri ref' g1) (gen.Type_ e) ri =
                 Some ref') by by eapply edgeAt_set_edge_eq.
    assert (Hpe : graph.edgeAt (gen.set_edge (gen.Type_ e) ri ref' g1) ti ei = Some e').
    { rewrite edgeAt_set_edge_ne by done. by eapply edgeAt_set_edge_eq. }
    unfold g1 in *. clear g1.
    intros tj ej e0 HD He0 Hi0.
    destruct (decide ((tj, ej) = (gen.Type_ e, ri))) as [[= -> ->] | Hnq].
    { rewrite Hq in He0. injection He0 as <-.
      change (gen.IsInverse ref') with (gen.IsInverse ref) in Hi0. congruence. }
    destruct (decide ((tj, ej) = (ti, ei))) as [[= -> ->] | Hnp].
    { rewrite Hpe in He0. injection He0 as <-. split; [done | ].
      intros tq rq Hpq.
      rewrite (partner_same g _ e e' Hs2 eq_refl), Hp in Hpq.
      injection Hpq as <- <-. exists ref'. by split. }
    rewrite !edgeAt_set_edge_ne in He0 by done.
    destruct HD as [HD | HD]; [ | done].
    destruct (Hpd tj ej e0 HD He0 Hi0) as [Hk0 Hag]. split; [done | ].
    intros tq rq Hpq. rewrite (partner_same g _ e0 e0 Hs2 eq_refl) in Hpq.
    destruct (Hag tq rq Hpq) as (ref0 & Href0 & Hag0).
    exists ref0. split; [ | done].
    rewrite !edgeAt_set_edge_ne; [done | | ].
    + intros [= <- <-]. rewrite He in Href0. injection Href0 as <-.
      destruct (partner_Some _ _ _ _ Hpq) as (_ & _ & ref1 & _ & _ & Hr1 & Hi1).
      congruence.
    + intros [= <- <-]. apply Hnp. symmetry.
      by apply (Hu ti ei e tj ej e0 (gen.Type_ e, ri)).
  - destruct (resolveEdge_forward _ _ _ _ _ He Hinv Hres)
      as [[_ ->] | (Hunk & e2 & Hs2 & ->)].
    { split; [done | ].
      intros tj ej e0 [HD | [= -> ->]] He0 Hi0; [by apply (Hpd tj ej) | ].
      congruence. }
    assert (Hsg : graph.skeletonGraph (gen.set_edge ti ei e2 g) = graph.skeletonGraph g)
      by by apply (skeleton_set_edge g ti ei e).
    split; [done | ].
    intros tj ej e0 HD He0 Hi0.
    destruct (decide ((tj, ej) = (ti, ei))) as [[= -> ->] | Hnp].
    { rewrite (edgeAt_set_edge_eq g ti ei e e2 He) in He0. injection He0 as <-.
      rewrite (skeleton_IsInverse _ _ Hs2) in Hi0. congruence. }
    rewrite edgeAt_set_edge_ne in He0 by done.
    destruct HD as [HD | HD]; [ | done].
    destruct (Hpd tj ej e0 HD He0 Hi0) as [Hk0 Hag]. split; [done | ].
    intros tq rq Hpq. rewrite (partner_same g _ e0 e0 Hsg eq_refl) in Hpq.
    destruct (Hag tq rq Hpq) as (ref0 & Href0 & Hag0).
    exists ref0. split; [ | done].
    rewrite edgeAt_set_edge_ne; [done | ].
    intros [= <- <-]. rewrite He in Href0. injection Href0 as <-.
    destruct Hag0 as (_ & _ & Hmir). rewrite Hunk in Hmir.
    destruct (gen.RelType (gen.Rel_ e0)); cbn in Hmir; congruence.
Qed.

Lemma paired_mono (D D' : nat → nat → Prop) g :
  (∀ ti ei e, graph.edgeAt g ti ei = Some e → D' ti ei → D ti ei) →
  pairing.paired D g → pairing.paired D' g.
Proof. intros HD Hp ti ei e Hd He Hi. apply (Hp ti ei); eauto. Qed.

(** [resolve] on a node pairs the inverse edges of the node. *)
Lemma resolve_paired (D : nat → nat → Prop) g ti g' :
  pairing.unshared g → pairing.paired D g →
  gen.resolve g ti = gen.Ok g' →
  graph.skeletonGraph g' = graph.skeletonGraph g ∧
  pairing.paired (fun tj ej => D tj ej ∨ tj = ti) g'.
Proof.
  intros Hu Hpd. unfold gen.resolve, gen.node.
  destruct (gen.Nodes g !! ti) as [t | ] eqn:Ht; [ | done]. cbn. intros Hfold.
  apply (foldl_bind
           (fun pre g' =>
              graph.skeletonGraph g' = graph.skeletonGraph g ∧
              pairing.paired (fun tj ej => D tj ej ∨ (tj = ti ∧ ej ∈ pre)) g')
           (fun g' ei => gen.resolveEdge g' ti ei)) with (pre := []) in Hfold.
  - destruct Hfold as [Hs Hp]. split; [done | ].
    eapply paired_mono; [ | exact Hp]. cbn.
    intros tj ej e He [HD | ->]; [by left | ]. right. split; [done | ].
    apply elem_of_seq.
    destruct (skeleton_edgeAt g' g ti ej e (eq_sym Hs) He) as (e0 & He0 & _).
    apply edgeAt_Some in He0 as (t0 & Ht0 & He0). rewrite Ht in Ht0.
    injection Ht0 as <-. apply lookup_lt_Some in He0. lia.
  - intros pre g1 ei g2 [Hs Hp] Hstep.
    destruct (resolveEdge_paired _ g1 ti ei g2 (unshared_skeleton _ _ Hs Hu) Hp Hstep)
      as [Hs2 Hp2].
    split; [congruence | ].
    eapply paired_mono; [ | exact Hp2]. cbn.
    intros tj ej e _ [HD | [-> [Hin | ->%list_elem_of_singleton]%elem_of_app]]; auto.
  - intros g1 [= <-]. split; [done | ].
    eapply paired_mono; [ | exact Hpd]. cbn.
    intros tj ej e _ [HD | [_ Hin]]; [done | by apply elem_of_nil in Hin].
Qed.

(** The third phase of [NewGraph] pairs every inverse edge. *)
Lemma resolve_all_paired g g' :
  pairing.unshared g →
  foldl (fun (r : gen.result gen.Graph) ti => r ≫= fun g => gen.resolve g ti)
        (gen.Ok g) (seq 0 (length (gen.Nodes g))) = gen.Ok g' →
  graph.skeletonGraph g' = graph.skeletonGraph g ∧
  pairing.paired (fun _ _ => True) g'.
Proof.
  intros Hu Hfold.
  apply (foldl_bind
           (fun pre g' =>
              graph.skeletonGraph g' = graph.skeletonGraph g ∧
              pairing.paired (fun tj _ => tj ∈ pre) g')
           gen.resolve) with (pre := []) in Hfold.
  - destruct Hfold as [Hs Hp]. split; [done | ].
    eapply paired_mono; [ | exact Hp]. cbn.
    intros tj ej e He _. apply elem_of_seq.
    apply edgeAt_Some in He as (t & Ht%lookup_lt_Some & _).
    rewrite (skeleton_length _ _ Hs) in Ht. lia.
  - intros pre g1 ti g2 [Hs Hp] Hstep.
    destruct (resolve_paired _ g1 ti g2 (unshared_skeleton _ _ Hs Hu) Hp Hstep)
      as [Hs2 Hp2].
    split; [congruence | ].
    eapply paired_mono; [ | exact Hp2]. cbn.
    intros tj ej e _ [Hin | ->%list_elem_of_singleton]%elem_of_app; auto.
  - intros g1 [= <-]. split; [done | ].
    intros tj ej e Hin. by apply elem_of_nil in Hin.
Qed.

(** The index phase leaves the edges alone. *)
Lemma addIndexes_edges g (s : load.Schema) g' :
  gen.addIndexes g s = gen.Ok g' →
  gen.Edges <$> gen.Nodes g' = gen.Edges <$> gen.Nodes g.
Proof.
  unfold gen.addIndexes.
  destruct (gen.typ g (load.SchemaName s)) as [[ti t0] | ]; [ | done]. cbn.
  intros Hfold.
  apply (foldl_bind
           (fun _ g' => gen.Edges <$> gen.Nodes g' = gen.Edges <$> gen.Nodes g)
           (fun g idx =>
              t ← gen.node g ti;
              gen.Ok (gen.set_node ti
                        (gen.set_Indexes
                           (gen.Indexes t ++
                              [gen.mkIndex (load.IndexName idx) (load.IndexUnique idx)
                                 (load.IndexColumns idx)]) t) g)))
    with (pre := []) in Hfold; [done | | ].
  - intros _ g1 idx g2 Hs Hstep.
    apply bind_Ok in Hstep as (t & Ht%node_Ok & Hstep).
    injection Hstep as <-. rewrite <- Hs. unfold gen.set_node. cbn.
    rewrite list_fmap_insert. cbn. apply list_insert_id.
    by rewrite list_lookup_fmap, Ht.
  - by intros g1 [= <-].
Qed.

Lemma addIndexes_all_edges (ss : list load.Schema) g g' :
  foldl (fun (r : gen.result gen.Graph) s => r ≫= fun g => gen.addIndexes g s)
        (gen.Ok g) ss = gen.Ok g' →
  gen.Edges <$> gen.Nodes g' = gen.Edges <$> gen.Nodes g.
Proof.
  intros Hfold.
  apply (foldl_bind
           (fun _ g' => gen.Edges <$> gen.Nodes g' = gen.Edges <$> gen.Nodes g)
           gen.addIndexes) with (pre := []) in Hfold; [done | | by intros g1 [= <-]].
  intros _ g1 s g2 Hs Hstep. rewrite <- Hs. by eapply addIndexes_edges.
Qed.

Lemma edgeAt_edges g g' ti ei :
  gen.Edges <$> gen.Nodes g' = gen.Edges <$> gen.Nodes g →
  graph.edgeAt g' ti ei = graph.edgeAt g ti ei.
Proof.
  intros Hs. apply (f_equal (fun l => l !! ti)) in Hs.
  rewrite !list_lookup_fmap in Hs. unfold graph.edgeAt.
  destruct (gen.Nodes g' !! ti), (gen.Nodes g !! ti); cbn in *; congruence.
Qed.

Lemma partner_edges g g' e :
  gen.Edges <$> gen.Nodes g' = gen.Edges <$> gen.Nodes g →
  pairing.partner g' e = pairing.partner g e.
Proof.
  intros Hs. apply (f_equal (fun l => l !! gen.Type_ e)) in Hs.
  rewrite !list_lookup_fmap in Hs. unfold pairing.partner, gen.HasAssoc.
  destruct (gen.Nodes g' !! gen.Type_ e), (gen.Nodes g !! gen.Type_ e);
    cbn in *; congruence.
Qed.

Lemma paired_edges (D : nat → nat → Prop) g g' :
  gen.Edges <$> gen.Nodes g' = gen.Edges <$> gen.Nodes g →
  pairing.paired D g → pairing.paired D g'.
Proof.
  intros Hs Hp ti ei e HD He Hi. rewrite (edgeAt_edges _ _ _ _ Hs) in He.
  destruct (Hp ti ei e HD He Hi) as [Hk Hag]. split; [done | ].
  intros tq rq Hpq. rewrite (partner_edges _ _ _ Hs) in Hpq.
  rewrite (edgeAt_edges _ _ _ _ Hs). by apply Hag.
Qed.

(** X24.  When no two inverse edges of the graph refer to the same
    forward edge, the two sides of every relation agree: an inverse edge
    and the forward edge it refers to have the same relation table and the
    same relation columns, and their relation kinds mirror each other
    (O2O with O2O, M2O with O2M, O2M with M2O, M2M with M2M). *)
Theorem NewGraph_relations_agree (ss : list load.Schema) g ti ei e :
  gen.NewGraph ss = gen.Ok g →
  pairing.unshared g →
  graph.edgeAt g ti ei = Some e → gen.IsInverse e = true →
  ∃ etype ri ref,
    gen.Nodes g !! gen.Type_ e = Some etype ∧
    gen.HasAssoc etype (gen.Inverse e) = Some (ri, ref) ∧
    pairing.agree e ref.
Proof.
  intros Hg Hu He Hinv.
  destruct (NewGraph_phases ss g Hg) as (g2 & Hg2 & Hatt & (Hsk & _) & Hres).
  (* the forward edge is there *)
  destruct (skeleton_edgeAt g g2 ti ei e (eq_sym Hsk) He) as (e2 & He2 & Hse).
  destruct (Hres ti ei e2 He2) as [_ Hok].
  rewrite <- Hsk, Hse in Hok. apply (proj1 (inverseOk_skeleton g ti e)) in Hok.
  destruct (Hok Hinv) as (etype & ri & ref & Hety & Hha & _).
  exists etype, ri, ref. split; [done | split; [done | ]].
  (* the phases again, for the relations *)
  unfold gen.NewGraph in Hg. rewrite (addNodes ss []) in Hg. cbn in Hg.
  rewrite Hg2 in Hg. cbn in Hg.
  apply bind_Ok in Hg as (g3 & Hg3 & Hg4).
  destruct (resolve_all_paired g2 g3 (unshared_skeleton _ _ (eq_sym Hsk) Hu) Hg3)
    as [_ Hp3].
  pose proof (paired_edges _ g3 g (addIndexes_all_edges _ _ _ Hg4) Hp3) as Hp.
  destruct (Hp ti ei e I He Hinv) as [_ Hag].
  destruct (Hag (gen.Type_ e) ri) as (ref' & Href' & Hagree).
  { unfold pairing.partner. rewrite Hety. cbn. by rewrite Hha. }
  destruct (HasAssoc_Some _ _ _ _ Hha) as (Href & _).
  assert (graph.edgeAt g (gen.Type_ e) ri = Some ref) by (apply edgeAt_Some; eauto).
  congruence.
Qed.

End pairs.

Lemma NewGraph_relations_agree_witness :
  match gen.NewGraph (schemas.household true true false) with
  | gen.Ok g =>
      match graph.edgeAt g 1 0 with
      | Some e =>
          gen.Rel_ e = gen.mkRelation gen.M2O "pets" ["owner_id"] ∧
          ∃ etype ri ref,
            gen.Nodes g !! gen.Type_ e = Some etype ∧
            gen.HasAssoc etype (gen.Inverse e) = Some (ri, ref) ∧
            pairing.agree e ref
      | None => False
      end
  | gen.Err _ => False
  end.
Proof.
  destruct (gen.NewGraph (schemas.household true true false)) as [g | err] eqn:Hg;
    [ | vm_compute in Hg; discriminate].
  pose proof Hg as Hg'. vm_compute in Hg'. injection Hg' as <-.
  destruct (graph.edgeAt _ 1 0) as [e | ] eqn:He; [ | vm_compute in He; discriminate].
  pose proof He as He'. vm_compute in He'. injection He' as <-.
  split; [reflexivity | ].
  apply (NewGraph_relations_agree (schemas.household true true false) _ 1 0 _ Hg);
    [ | exact He | reflexivity].
  intros ti ei e tj ej e' q H1 H2 Hi Hi' Hp Hp'.
  destruct ti as [| [| ti]]; destruct ei as [| [| [| ei]]];
    vm_compute in H1; try discriminate; injection H1 as <-;
    vm_compute in Hi; try discriminate;
    vm_compute in Hp; injection Hp as <-;
    destruct tj as [| [| tj]]; destruct ej as [| [| [| ej]]];
    vm_compute in H2; try discriminate; injection H2 as <-;
    vm_compute in Hi'; try discriminate;
    vm_compute in Hp'; try discriminate; reflexivity.
Defined.
